(** * PulsePoint to Discord: the payload decryptor, the incident normalizer
      and the incident lifecycle engine of [src/pulsepoint-workflow.ts]

    The development follows the source file from the bottom up: the
    helpers on JavaScript values, the decryptor ([decryptPulsePointData]
    and [hexToBytes]), the normalizer (step 2 of [PulsePointWorkflow.run])
    and the engine (steps 3 to 8 of [run], with [buildDiscordFields]); the
    handler [fetch] of [src/index.ts] comes after them.  JavaScript strings
    are modelled as [string] (sequences of 8-bit characters), byte arrays as
    [list byte], instants as [Z] (milliseconds since the epoch), and objects
    used as dictionaries as [gmap string _] read through [js_get], which
    also sees the members every object literal inherits. *)

From Stdlib Require Import ZArith Lia Ascii String.
From stdpp Require Import gmap strings list fin_maps pretty sorting.

Local Open Scope string_scope.
Local Open Scope Z_scope.

Abbreviation byte := Byte.byte.

(** ** JavaScript values and strings *)

Module Js.

(** The own property names of [Object.prototype]: what [obj[k]] finds on an
    object literal that has no own property [k]. *)
Definition inherited_names : list string :=
  [ "constructor"; "__defineGetter__"; "__defineSetter__"; "hasOwnProperty";
    "__lookupGetter__"; "__lookupSetter__"; "isPrototypeOf";
    "propertyIsEnumerable"; "toString"; "valueOf"; "__proto__";
    "toLocaleString" ].

(** The result of [obj[k]] on an object literal whose own properties are the
    entries of a map: an own property, a member inherited from
    [Object.prototype] (a function, or the prototype itself for [__proto__]:
    truthy, and without any of the fields the program reads), or
    [undefined]. *)
Inductive prop (A : Type) : Type :=
  | Own (a : A)
  | Inherited
  | Undefined.
Arguments Own {A} a.
Arguments Inherited {A}.
Arguments Undefined {A}.

Definition js_get {A} (obj : gmap string A) (k : string) : prop A :=
  match obj !! k with
  | Some a => Own a
  | None => if bool_decide (k ∈ inherited_names) then Inherited else Undefined
  end.

(** Truthiness of a string that may be [undefined]. *)
Definition truthy (s : option string) : bool :=
  match s with
  | Some (String _ _) => true
  | _ => false
  end.

(** [`${s}`] for a string that may be [undefined]. *)
Definition template (s : option string) : string :=
  match s with Some t => t | None => "undefined" end.

(** [s[i]] inside a concatenation. *)
Definition char_at (s : string) (i : nat) : string :=
  match String.get i s with
  | Some c => String c EmptyString
  | None => "undefined"
  end.

Definition lower_ascii (c : ascii) : ascii :=
  let n := nat_of_ascii c in
  if (65 <=? n)%nat && (n <=? 90)%nat then ascii_of_nat (n + 32) else c.

Definition upper_ascii (c : ascii) : ascii :=
  let n := nat_of_ascii c in
  if (97 <=? n)%nat && (n <=? 122)%nat then ascii_of_nat (n - 32) else c.

Fixpoint map_string (f : ascii -> ascii) (s : string) : string :=
  match s with
  | EmptyString => EmptyString
  | String c r => String (f c) (map_string f r)
  end.

Definition toLowerCase : string -> string := map_string lower_ascii.
Definition toUpperCase : string -> string := map_string upper_ascii.

(** [s.lastIndexOf(c)] for a one-character needle: [-1] when absent. *)
Fixpoint lastIndexOf_from (c : ascii) (s : string) (i : Z) (found : Z) : Z :=
  match s with
  | EmptyString => found
  | String d r =>
      lastIndexOf_from c r (i + 1) (if Ascii.eqb d c then i else found)
  end.

Definition lastIndexOf (s : string) (c : ascii) : Z :=
  lastIndexOf_from c s 0 (-1).

Definition str_length (s : string) : Z := Z.of_nat (String.length s).

(** [s.substring(start, end)]: both bounds are clamped to [0 .. length], and
    when [start > end] the two are swapped. *)
Definition substring (s : string) (start end_ : Z) : string :=
  let clamp i := Z.min (Z.max i 0) (str_length s) in
  let from := Z.min (clamp start) (clamp end_) in
  let to := Z.max (clamp start) (clamp end_) in
  String.substring (Z.to_nat from) (Z.to_nat (to - from)) s.

(** [s.startsWith(p)]. *)
Definition startsWith (s p : string) : bool := String.prefix p s.

(** [s.includes(p)]. *)
Fixpoint includes (s p : string) : bool :=
  String.prefix p s ||
  match s with
  | EmptyString => false
  | String _ r => includes r p
  end.

(** [parts.join(sep)]. *)
Fixpoint join (sep : string) (parts : list string) : string :=
  match parts with
  | [] => EmptyString
  | [p] => p
  | p :: rest => p ++ sep ++ join sep rest
  end.

(** The white space [parseInt] skips at the start of a text (WhiteSpace and
    LineTerminator), among the 8-bit characters: TAB, LF, VT, FF, CR, SP and
    NBSP. *)
Definition is_white_space (c : ascii) : bool :=
  bool_decide (nat_of_ascii c ∈ [9; 10; 11; 12; 13; 32; 160]%nat).

Fixpoint trim_start (s : string) : string :=
  match s with
  | String c r => if is_white_space c then trim_start r else s
  | EmptyString => EmptyString
  end.

(** The value of a digit of a radix up to 36: [0] to [9], then the letters
    of either case. *)
Definition digit_value (c : ascii) : option Z :=
  let n := Z.of_nat (nat_of_ascii c) in
  if (48 <=? n) && (n <=? 57) then Some (n - 48)
  else if (97 <=? n) && (n <=? 122) then Some (n - 87)
  else if (65 <=? n) && (n <=? 90) then Some (n - 55)
  else None.

Definition radix_digit (R : Z) (c : ascii) : option Z :=
  match digit_value c with
  | Some v => if v <? R then Some v else None
  | None => None
  end.

(** The number the digits at the start of a text denote, up to the first
    character that is no digit of the radix: [None] when there is none. *)
Fixpoint digits_value (R : Z) (s : string) (acc : option Z) : option Z :=
  match s with
  | String c r =>
      match radix_digit R c with
      | Some v => digits_value R r (Some (default 0 acc * R + v))
      | None => acc
      end
  | EmptyString => acc
  end.

Definition ToInt32 (n : Z) : Z := (n + 2 ^ 31) `mod` 2 ^ 32 - 2 ^ 31.

(** [parseInt(s, radix)] for a radix that is a whole number; [None] is
    [NaN].  The text is trimmed at its start, a sign is taken off, then,
    for the radix 16 (or none), a prefix [0x] or [0X]; what follows is read
    up to the first character that is no digit.  ([-0] is [0] here.) *)
Definition parseInt (s : string) (radix : Z) : option Z :=
  let trimmed := trim_start s in
  let sign := match String.get 0 trimmed with
              | Some c => if Ascii.eqb c "-" then -1 else 1
              | None => 1
              end in
  let unsigned :=
    match trimmed with
    | String c r => if Ascii.eqb c "+" || Ascii.eqb c "-" then r else trimmed
    | EmptyString => trimmed
    end in
  let R := ToInt32 radix in
  if negb (R =? 0) && ((R <? 2) || (36 <? R)) then None
  else
    let stripPrefix := (R =? 0) || (R =? 16) in
    let R := if R =? 0 then 10 else R in
    let prefixed :=
      match unsigned with
      | String c (String d _) =>
          Ascii.eqb c "0" && (Ascii.eqb d "x" || Ascii.eqb d "X")
      | _ => false
      end in
    let R := if stripPrefix && prefixed then 16 else R in
    let digits :=
      if stripPrefix && prefixed
      then substring unsigned 2 (str_length unsigned)
      else unsigned in
    match digits_value R digits None with
    | Some mathInt => Some (sign * mathInt)
    | None => None
    end.

(** The byte an element of a [Uint8Array] holds after the assignment of a
    number: [0] for [NaN], else the number modulo 256. *)
Definition ToUint8 (v : option Z) : byte :=
  match v with
  | Some n => default Byte.x00 (Byte.of_N (Z.to_N (n `mod` 256)))
  | None => Byte.x00
  end.

End Js.

(** ** The payload decryptor: [decryptPulsePointData] *)

Module Decryptor.

Definition quote : ascii := "034"%char.
Definition backslash : ascii := "092"%char.

(** "Build the password": [e], then the concatenation assigned to [t]. *)
Definition e : string := "CommonIncidents".

Definition password : string :=
  Js.char_at e 13 ++ Js.char_at e 1 ++ Js.char_at e 2 ++ "brady" ++ "5" ++ "r"
  ++ Js.char_at (Js.toLowerCase e) 6 ++ Js.char_at e 5 ++ "gs".

(** [concatenateArrays(...arrays)]. *)
Definition concatenateArrays (arrays : list (list byte)) : list byte :=
  concat arrays.

(** [new TextEncoder().encode(t)] on text in the 8-bit model. *)
Definition encode (t : string) : list byte := list_byte_of_string t.

Section KeyDerivation.

(** [crypto.subtle.digest('MD5', ·)], a primitive of the platform. *)
Variable digest : list byte -> list byte.

(** The loop [while (key.length < 32)]; [block] is [null] before the first
    round.  The loop has no bound of its own, so the model takes fuel and
    answers [None] when it runs out. *)
Fixpoint derive_loop (fuel : nat) (t : string) (salt : list byte)
    (key : list byte) (block : option (list byte)) : option (list byte) :=
  if decide (length key < 32)%nat then
    match fuel with
    | O => None
    | S fuel' =>
        let hasher :=
          digest (concatenateArrays
                    [ match block with Some b => b | None => [] end;
                      encode t; salt ]) in
        derive_loop fuel' t salt (concatenateArrays [key; hasher]) (Some hasher)
    end
  else Some key.

(** The key handed to [importKey]: the loop, then "Truncate key to 32 bytes
    if longer". *)
Definition derive_key (fuel : nat) (salt : list byte) : option (list byte) :=
  match derive_loop fuel password salt [] None with
  | Some key => Some (if decide (32 < length key)%nat then take 32 key else key)
  | None => None
  end.

(** The derivation in the words of the specification: hash blocks, each the
    digest of the previous block, the passphrase bytes and the salt, the
    first one from an empty previous block. *)
Fixpoint spec_block (n : nat) (salt : list byte) : list byte :=
  match n with
  | O => []
  | S n' => digest (spec_block n' salt ++ encode password ++ salt)
  end.

(** The running key buffer after [n] rounds. *)
Fixpoint spec_buffer (n : nat) (salt : list byte) : list byte :=
  match n with
  | O => []
  | S n' => spec_buffer n' salt ++ spec_block (S n') salt
  end.

End KeyDerivation.

(** [hexToBytes(hex)]: an array of [Math.floor(hex.length / 2)] bytes, the
    one of index [i] assigned [parseInt(hex.substring(i * 2, i * 2 + 2), 16)]. *)
Definition hexToBytes (hex : string) : list byte :=
  map (fun i : nat =>
         Js.ToUint8
           (Js.parseInt (Js.substring hex (Z.of_nat i * 2) (Z.of_nat i * 2 + 2)) 16))
    (seq 0 (Z.to_nat (Js.str_length hex `div` 2))).

(** "Strip off extra bytes and wrapper quotes". *)
Definition strip_wrapper (out : string) : string :=
  let quoteEndIndex := Js.lastIndexOf out quote in
  Js.substring out 1
    (if 0 <=? quoteEndIndex then quoteEndIndex else Js.str_length out).

(** "Un-escape quotes": [out.replace(/\\"/g, '"')]. *)
Fixpoint unescape_quotes (out : string) : string :=
  match out with
  | EmptyString => EmptyString
  | String c r =>
      match r with
      | String d r' =>
          if Ascii.eqb c backslash && Ascii.eqb d quote
          then String quote (unescape_quotes r')
          else String c (unescape_quotes r)
      | EmptyString => String c EmptyString
      end
  end.

(** The text handed to [JSON.parse]. *)
Definition unwrap (out : string) : string :=
  unescape_quotes (strip_wrapper out).

(** The other direction of the two decodings, for their round trips; the
    repository has no encoder.  A byte array as hexadecimal text, two digits
    a byte, and a text with a backslash put before each of its double
    quotes. *)
Definition hex_digit (upper : bool) (n : N) : ascii :=
  ascii_of_N (if (n <? 10)%N then 48 + n else (if upper then 55 else 87) + n).

Fixpoint hex_text (upper : bool) (bytes : list byte) : string :=
  match bytes with
  | [] => EmptyString
  | b :: rest =>
      String (hex_digit upper (Byte.to_N b / 16))
        (String (hex_digit upper (Byte.to_N b mod 16)) (hex_text upper rest))
  end.

Fixpoint escape_quotes (text : string) : string :=
  match text with
  | EmptyString => EmptyString
  | String c r =>
      if Ascii.eqb c quote
      then String backslash (String quote (escape_quotes r))
      else String c (escape_quotes r)
  end.

End Decryptor.

(** ** The feed's incidents: [PulsePointUnit] and [PulsePointIncident]

    The two display fields are declared as strings.  The normalizer fills
    them with whatever its lookup tables return, so the records are
    parametric in the type [D] of display values: [string] as declared (the
    engine), [Display] for what the normalizer can return. *)

Record PulsePointUnit (D : Type) := {
  UnitID : string;
  PulsePointDispatchStatus : option string;
  DisplayDispatchStatus : option D
}.
Arguments UnitID {D} _.
Arguments PulsePointDispatchStatus {D} _.
Arguments DisplayDispatchStatus {D} _.

Record PulsePointIncident (D : Type) := {
  ID : string;
  Closed : option bool;
  CallReceivedDateTime : option string;
  PulsePointIncidentCallType : option string;
  DisplayIncidentCallType : option D;
  FullDisplayAddress : option string;
  Unit : option (list (PulsePointUnit D))
}.
Arguments ID {D} _.
Arguments Closed {D} _.
Arguments CallReceivedDateTime {D} _.
Arguments PulsePointIncidentCallType {D} _.
Arguments DisplayIncidentCallType {D} _.
Arguments FullDisplayAddress {D} _.
Arguments Unit {D} _.

(** [incident.Closed] as a condition. *)
Definition is_closed {D} (incident : PulsePointIncident D) : bool :=
  match Closed incident with Some b => b | None => false end.

(** ** The incident normalizer: step 2 of [run] after the decryption *)

Module Normalizer.

(** What a lookup in [statusMap] or [typeMap] followed by [|| 'Unknown']
    evaluates to: a string, or a member inherited from [Object.prototype]
    (which is truthy, so [||] keeps it). *)
Inductive Display :=
  | Shown (s : string)
  | Member (name : string).

Definition statusMap : gmap string string :=
  list_to_map
    [ ("AR", "Cleared"); ("ER", "En Route"); ("OS", "On Scene");
      ("TR", "Transport"); ("DP", "Dispatched"); ("AK", "Dispatched");
      ("TA", "Transport Arrived") ].

Definition typeMap : gmap string string :=
  list_to_map
    [ ("ME", "Medical Emergency"); ("TC", "Traffic Collision");
      ("STBY", "Standby"); ("TCE", "Expanded Traffic Collision");
      ("CSR", "Confined Space"); ("HMR", "Hazardous Materials Response") ].

(** [table[code] || 'Unknown'] after the guard [if (!code) return 'Unknown']. *)
Definition lookup_or_unknown (table : gmap string string)
    (code : option string) : Display :=
  if negb (Js.truthy code) then Shown "Unknown"
  else
    let code := Js.template code in
    match Js.js_get table code with
    | Js.Own v => if Js.truthy (Some v) then Shown v else Shown "Unknown"
    | Js.Inherited => Member code
    | Js.Undefined => Shown "Unknown"
    end.

Definition mapDispatchStatus (status : option string) : Display :=
  lookup_or_unknown statusMap status.

Definition mapIncidentCallType (callType : option string) : Display :=
  lookup_or_unknown typeMap callType.

(** The parsed payload: [decrypted.incidents?.active] and [.recent]. *)
Record Incidents := {
  active : option (list (PulsePointIncident string));
  recent : option (list (PulsePointIncident string))
}.

Record DecryptedFeed := { incidents : option Incidents }.

(** [incident.Closed = closed]. *)
Definition set_Closed {D} (closed : bool) (incident : PulsePointIncident D)
    : PulsePointIncident D :=
  {| ID := ID incident;
     Closed := Some closed;
     CallReceivedDateTime := CallReceivedDateTime incident;
     PulsePointIncidentCallType := PulsePointIncidentCallType incident;
     DisplayIncidentCallType := DisplayIncidentCallType incident;
     FullDisplayAddress := FullDisplayAddress incident;
     Unit := Unit incident |}.

(** [unit.DisplayDispatchStatus = mapDispatchStatus(...)]. *)
Definition display_unit (unit : PulsePointUnit string) : PulsePointUnit Display :=
  {| UnitID := UnitID unit;
     PulsePointDispatchStatus := PulsePointDispatchStatus unit;
     DisplayDispatchStatus :=
       Some (mapDispatchStatus (PulsePointDispatchStatus unit)) |}.

(** The body of the loop over [allIncidents]. *)
Definition display_incident (incident : PulsePointIncident string)
    : PulsePointIncident Display :=
  {| ID := ID incident;
     Closed := Closed incident;
     CallReceivedDateTime := CallReceivedDateTime incident;
     PulsePointIncidentCallType := PulsePointIncidentCallType incident;
     DisplayIncidentCallType :=
       Some (mapIncidentCallType (PulsePointIncidentCallType incident));
     FullDisplayAddress := FullDisplayAddress incident;
     Unit := option_map (map display_unit) (Unit incident) |}.

(** The value of step 2, given the decrypted payload. *)
Definition normalize (decrypted : DecryptedFeed) : list (PulsePointIncident Display) :=
  let activeIncidents := default [] (incidents decrypted ≫= active) in
  let recentIncidents := default [] (incidents decrypted ≫= recent) in
  let allIncidents :=
    (map (set_Closed false) activeIncidents
       ++ map (set_Closed true) recentIncidents)%list in
  map display_incident allIncidents.

(** A payload without the attributes the normalizer assigns: what it was
    before any [Closed], [DisplayDispatchStatus] or
    [DisplayIncidentCallType] got into it. *)
Definition bare_unit (unit : PulsePointUnit string) : PulsePointUnit string :=
  {| UnitID := UnitID unit;
     PulsePointDispatchStatus := PulsePointDispatchStatus unit;
     DisplayDispatchStatus := None |}.

Definition bare_incident (incident : PulsePointIncident string)
    : PulsePointIncident string :=
  {| ID := ID incident;
     Closed := None;
     CallReceivedDateTime := CallReceivedDateTime incident;
     PulsePointIncidentCallType := PulsePointIncidentCallType incident;
     DisplayIncidentCallType := None;
     FullDisplayAddress := FullDisplayAddress incident;
     Unit := option_map (map bare_unit) (Unit incident) |}.

Definition bare (decrypted : DecryptedFeed) : DecryptedFeed :=
  {| incidents :=
       option_map
         (fun lists =>
            {| active := option_map (map bare_incident) (active lists);
               recent := option_map (map bare_incident) (recent lists) |})
         (incidents decrypted) |}.

End Normalizer.


(** ** The digest of the platform

    Modelled from RFC 1321, not from the repository:
    [crypto.subtle.digest('MD5', data)] as the runtime computes it.  The
    key derivation is stated for any digest of 128 bits; this one makes its
    examples concrete. *)

Module MD5.

Local Open Scope N_scope.

Definition w32 (x : N) : N := x mod 4294967296.

Definition rotl (x c : N) : N :=
  w32 (N.lor (N.shiftl x c) (N.shiftr x (32 - c))).

Definition not32 (x : N) : N := N.lxor x 4294967295.

Definition shifts : list N :=
  [ 7; 12; 17; 22; 7; 12; 17; 22; 7; 12; 17; 22; 7; 12; 17; 22;
    5; 9; 14; 20; 5; 9; 14; 20; 5; 9; 14; 20; 5; 9; 14; 20;
    4; 11; 16; 23; 4; 11; 16; 23; 4; 11; 16; 23; 4; 11; 16; 23;
    6; 10; 15; 21; 6; 10; 15; 21; 6; 10; 15; 21; 6; 10; 15; 21 ].

(** [floor (2^32 * abs (sin (i + 1)))] for [i] from 0 to 63. *)
Definition sines : list N :=
  [ 3614090360; 3905402710; 606105819; 3250441966;
    4118548399; 1200080426; 2821735955; 4249261313;
    1770035416; 2336552879; 4294925233; 2304563134;
    1804603682; 4254626195; 2792965006; 1236535329;
    4129170786; 3225465664; 643717713; 3921069994;
    3593408605; 38016083; 3634488961; 3889429448;
    568446438; 3275163606; 4107603335; 1163531501;
    2850285829; 4243563512; 1735328473; 2368359562;
    4294588738; 2272392833; 1839030562; 4259657740;
    2763975236; 1272893353; 4139469664; 3200236656;
    681279174; 3936430074; 3572445317; 76029189;
    3654602809; 3873151461; 530742520; 3299628645;
    4096336452; 1126891415; 2878612391; 4237533241;
    1700485571; 2399980690; 4293915773; 2240044497;
    1873313359; 4264355552; 2734768916; 1309151649;
    4149444226; 3174756917; 718787259; 3951481745 ].

(** Little-endian words and bytes. *)
Fixpoint words (n : nat) (bytes : list N) : list N :=
  match n, bytes with
  | S n', b0 :: b1 :: b2 :: b3 :: rest =>
      (b0 + 256 * b1 + 65536 * b2 + 16777216 * b3) :: words n' rest
  | _, _ => []
  end.

Definition le_bytes (n : nat) (x : N) : list N :=
  map (fun i => (x / 256 ^ N.of_nat i) mod 256) (seq 0 n).

(** The message, the byte 128, zeros up to 56 modulo 64, and the length in
    bits on eight bytes. *)
Definition pad (message : list N) : list N :=
  let len := N.of_nat (length message) in
  let zeros := (119 - len mod 64) mod 64 in
  (message ++ 128 :: repeat 0 (N.to_nat zeros) ++ le_bytes 8 (8 * len))%list.

Fixpoint chunks (n : nat) (bytes : list N) : list (list N) :=
  match n with
  | O => []
  | S n' => take 64 bytes :: chunks n' (drop 64 bytes)
  end.

Definition round (M : list N) (state : N * N * N * N) (i : nat) : N * N * N * N :=
  let '(A, B, C, D) := state in
  let j := N.of_nat i in
  let '(F, g) :=
    if j <? 16 then (N.lor (N.land B C) (N.land (not32 B) D), j)
    else if j <? 32 then (N.lor (N.land D B) (N.land (not32 D) C), (5 * j + 1) mod 16)
    else if j <? 48 then (N.lxor (N.lxor B C) D, (3 * j + 5) mod 16)
    else (N.lxor C (N.lor B (not32 D)), (7 * j) mod 16) in
  let F := w32 (F + A + nth i sines 0 + nth (N.to_nat g) M 0) in
  (D, w32 (B + rotl F (nth i shifts 0)), B, C).

Definition compress (state : N * N * N * N) (chunk : list N) : N * N * N * N :=
  let '(a0, b0, c0, d0) := state in
  let '(A, B, C, D) := foldl (round (words 16 chunk)) state (seq 0 64) in
  (w32 (a0 + A), w32 (b0 + B), w32 (c0 + C), w32 (d0 + D)).

Definition to_byte (n : N) : byte := default Byte.x00 (Byte.of_N n).

Definition digest (data : list byte) : list byte :=
  let padded := pad (map Byte.to_N data) in
  let '(a, b, c, d) :=
    foldl compress (1732584193, 4023233417, 2562383102, 271733878)
      (chunks (length padded / 64) padded) in
  map to_byte (le_bytes 4 a ++ le_bytes 4 b ++ le_bytes 4 c ++ le_bytes 4 d)%list.

End MD5.
(** ** The lifecycle engine: steps 3 to 8 of [PulsePointWorkflow.run]

    The run is a function of the incidents step 2 returned, of the store
    and of the outside (the clock and the notification channel); it threads
    a state through the steps and returns the summary with the final state.
    The body of each step runs once, and the operations of the store
    ([list], [get], [put], [delete]) succeed. *)

Module Engine.

Abbreviation Incident := (PulsePointIncident string).

(** "Stored incident data in KV".  [lastUpdated] is the instant its ISO-8601
    text denotes: [toISOString] and the [Date] constructor are inverse to
    each other on instants. *)
Record StoredIncident := {
  pulsepointId : string;
  closed : bool;
  messageId : option string;
  lastUpdated : Z;
  callReceived : option string;
  displayIncidentCallType : option string
}.

(** The two webhook bindings of [Env]; the KV binding is the store of the
    state below. *)
Record Env := {
  DISCORD_WEBHOOK_URL : string;
  DISCORD_STANDBY_WEBHOOK_URL : string
}.

Record DiscordField := {
  name : string;
  value : string;
  inline : option bool
}.

(** The object literal [embed]. *)
Record Embed := {
  title : option string;
  fields : list DiscordField;
  color : Z;
  footer_text : string;
  url : string;
  timestamp : option string
}.

Inductive Method := POST | PATCH.

(** A call [fetch(url, { method, body: JSON.stringify({ embeds: [embed] }) })]. *)
Record Request := {
  req_url : string;
  method : Method;
  embeds : Embed
}.

(** The fields the program reads of a parsed response text: [messageData.id],
    [messageData.message_id] and [messageData.message.id], as strings.  All
    three are absent for a JSON value that is not an object. *)
Record MessageData := {
  data_id : option string;
  data_message_id : option string;
  data_message : option string
}.

(** What [response.text()] and [JSON.parse] make of the response. *)
Inductive Body :=
  | Unreadable              (* [response.text()] rejects *)
  | Blank                   (* the text is empty or white space *)
  | Malformed               (* [JSON.parse] throws *)
  | Json (messageData : MessageData).

Record Response := {
  ok : bool;
  body : Body
}.

(** The outside of the engine: the clock and the notification channel.  Each
    is indexed by the number of readings and calls made before in the run,
    so that the answers may vary in any way during a run; [fetch] answers
    [None] when the call rejects. *)
Record World := {
  now : nat -> Z;
  fetch : nat -> Request -> option Response
}.

Inductive Transition := New | UpdatedOpen | NewlyClosed | Expired.

(** What a run does to the outside, in order. *)
Inductive Event :=
  | Notified (transition : Transition) (incident : string)
      (request : Request) (response : option Response)
  | Put (key : string) (data : StoredIncident)
  | Deleted (key : string).

(** The state a run threads through its steps: the KV namespace, the object
    [trackedIncidents] of step 3 (one object shared by steps 4 to 8, whose
    records step 5 may mutate), the events so far and their number plus that
    of the clock readings. *)
Record State := {
  kv : gmap string StoredIncident;
  trackedIncidents : gmap string StoredIncident;
  trace : list Event;
  tick : nat
}.

Record Summary := {
  totalIncidents : nat;
  trackedIncidentsCount : nat;
  newIncidents : nat;
  updatedOpenIncidents : nat;
  closedIncidents : nat;
  expiredIncidents : nat;
  prunedIncidents : nat;
  timestamp_ : Z
}.

(** *** The store and [trackedIncidents] *)

Definition incident_key (id : string) : string := "incident:" ++ id.

Definition key_le (a b : string * StoredIncident) : Prop :=
  String.leb a.1 b.1 = true.

Global Instance key_le_dec : RelDecision key_le.
Proof. intros a b. unfold key_le. apply _. Defined.

(** [PULSEPOINT_KV.list({ prefix })]: the keys that start with the prefix,
    in lexicographic order, each with the record [get(key, 'json')] returns
    (the listing is taken to fit one page). *)
Definition KV_list (prefix : string) (store : gmap string StoredIncident)
    : list (string * StoredIncident) :=
  merge_sort key_le
    (List.filter (fun entry => String.prefix prefix entry.1) (map_to_list store)).

(** Step 3, "Get tracked incidents from KV": [incidents[data.pulsepointId] =
    data] for each listed key.  (A record whose [pulsepointId] is
    [__proto__] would replace the prototype of the object instead; the engine
    never stores one, see [store_keyed].) *)
Definition load_tracked (store : gmap string StoredIncident)
    : gmap string StoredIncident :=
  foldl (fun incidents entry => <[pulsepointId entry.2 := entry.2]> incidents)
    ∅ (KV_list "incident:" store).

(** [{ ...tracked, lastUpdated }] and [{ ...tracked, closed: true, lastUpdated }]. *)
Definition with_lastUpdated (t : Z) (tracked : StoredIncident) : StoredIncident :=
  {| pulsepointId := pulsepointId tracked;
     closed := closed tracked;
     messageId := messageId tracked;
     lastUpdated := t;
     callReceived := callReceived tracked;
     displayIncidentCallType := displayIncidentCallType tracked |}.

Definition with_closed (t : Z) (tracked : StoredIncident) : StoredIncident :=
  {| pulsepointId := pulsepointId tracked;
     closed := true;
     messageId := messageId tracked;
     lastUpdated := t;
     callReceived := callReceived tracked;
     displayIncidentCallType := displayIncidentCallType tracked |}.

(** [tracked.messageId = id]. *)
Definition with_messageId (id : string) (tracked : StoredIncident) : StoredIncident :=
  {| pulsepointId := pulsepointId tracked;
     closed := closed tracked;
     messageId := Some id;
     lastUpdated := lastUpdated tracked;
     callReceived := callReceived tracked;
     displayIncidentCallType := displayIncidentCallType tracked |}.

(** *** The five selections *)

Definition places : list string :=
  [ "VANCOUVER"; "BURNABY"; "WESTMINSTER"; "SURREY"; "DELTA"; "BELCARRA";
    "MAPLE RIDGE"; "RICHMOND"; "COQUITLAM"; "LANGLEY"; "ABBOTSFORD";
    "CHILLIWACK"; "MISSION"; "YALE"; "ADDRESS NOT AVAILABLE" ].

(** [locationRegex.test(address)]: the pattern is not anchored and ignores
    case, so it matches when one of the names occurs in the address. *)
Definition locationRegex_test (address : string) : bool :=
  existsb (Js.includes (Js.toUpperCase address)) places.

(** [!trackedIncidents[incident.ID]]. *)
Definition isNew (tracked : gmap string StoredIncident) (id : string) : bool :=
  match Js.js_get tracked id with
  | Js.Undefined => true
  | _ => false
  end.

(** [incident.FullDisplayAddress && locationRegex.test(...)]. *)
Definition isMatch (incident : Incident) : bool :=
  match FullDisplayAddress incident with
  | Some address => Js.truthy (Some address) && locationRegex_test address
  | None => false
  end.

(** [tracked && !tracked.closed]. *)
Definition isTrackedAndOpen (tracked : gmap string StoredIncident) (id : string) : bool :=
  match Js.js_get tracked id with
  | Js.Own data => negb (closed data)
  | Js.Inherited => true
  | Js.Undefined => false
  end.

Definition newOnes (tracked : gmap string StoredIncident)
    (incidents : list Incident) : list Incident :=
  List.filter
    (fun incident =>
       isNew tracked (ID incident) && negb (is_closed incident) && isMatch incident)
    incidents.

Definition openIncidents (tracked : gmap string StoredIncident)
    (incidents : list Incident) : list Incident :=
  List.filter
    (fun incident =>
       isTrackedAndOpen tracked (ID incident) && negb (is_closed incident))
    incidents.

Definition newlyClosed (tracked : gmap string StoredIncident)
    (incidents : list Incident) : list Incident :=
  List.filter
    (fun incident => isTrackedAndOpen tracked (ID incident) && is_closed incident)
    incidents.

(** [(now.getTime() - lastUpdated.getTime()) / unit > limit], on instants in
    milliseconds: the quotient exceeds the whole number [limit] exactly when
    the difference exceeds [limit * unit]. *)
Definition elapsed_more_than (limit unit : Z) (now_ last : Z) : bool :=
  limit * unit <? now_ - last.

Definition hour : Z := 1000 * 60 * 60.
Definition day : Z := 1000 * 60 * 60 * 24.
Definition cutoffDays : Z := 3.

(** The loops over [Object.entries(trackedIncidents)].  The entries are
    taken in the order of [map_to_list], not in that of the object (the keys
    that are whole numbers first, in ascending order, then the others as
    they were inserted): the order decides in which order the records are
    worked on, and nothing else. *)
Definition expiredIds (tracked : gmap string StoredIncident) (now_ : Z) : list string :=
  map fst
    (List.filter
       (fun entry => negb (closed entry.2)
                     && elapsed_more_than 24 hour now_ (lastUpdated entry.2))
       (map_to_list tracked)).

Definition pruneIds (tracked : gmap string StoredIncident) (now_ : Z) : list string :=
  map fst
    (List.filter
       (fun entry => closed entry.2
                     && elapsed_more_than cutoffDays day now_ (lastUpdated entry.2))
       (map_to_list tracked)).


(** *** The steps *)

Section Run.

Variable env : Env.
Variable world : World.
Variable incidents : list Incident.

(** [Date.now()] and [new Date()]. *)
Definition Date_now (s : State) : Z * State :=
  (now world (tick s),
   {| kv := kv s; trackedIncidents := trackedIncidents s;
      trace := trace s; tick := S (tick s) |}).

(** [await fetch(...)], on behalf of a transition of an incident. *)
Definition do_fetch (transition : Transition) (id : string) (request : Request)
    (s : State) : option Response * State :=
  let response := fetch world (tick s) request in
  (response,
   {| kv := kv s; trackedIncidents := trackedIncidents s;
      trace := trace s ++ [Notified transition id request response];
      tick := S (tick s) |}).

(** [await this.env.PULSEPOINT_KV.put(key, JSON.stringify(data))]. *)
Definition KV_put (key : string) (data : StoredIncident) (s : State) : State :=
  {| kv := <[key := data]> (kv s); trackedIncidents := trackedIncidents s;
     trace := trace s ++ [Put key data]; tick := S (tick s) |}.

(** [await this.env.PULSEPOINT_KV.delete(key)]. *)
Definition KV_delete (key : string) (s : State) : State :=
  {| kv := delete key (kv s); trackedIncidents := trackedIncidents s;
     trace := trace s ++ [Deleted key]; tick := S (tick s) |}.

(** The assignment [tracked.messageId = id] on the record of
    [trackedIncidents] that [tracked] refers to. *)
Definition assign_messageId (key : string) (id : string) (s : State) : State :=
  {| kv := kv s;
     trackedIncidents := alter (with_messageId id) key (trackedIncidents s);
     trace := trace s; tick := tick s |}.

(** A loop [for (const x of xs) { ... }] whose body either reaches the
    increment of the counter at its end ([true]) or leaves early
    ([continue], or an exception caught around the body: [false]). *)
Fixpoint for_each {A} (body : A -> State -> bool * State) (xs : list A)
    (s : State) : nat * State :=
  match xs with
  | [] => (O, s)
  | x :: rest =>
      let '(counted, s) := body x s in
      let '(count, s) := for_each body rest s in
      (if counted then S count else count, s)
  end.

(** [buildDiscordFields(incident)]. *)
Definition knownStatuses : list string :=
  [ "On Scene"; "En Route"; "Cleared"; "Transport"; "Dispatched";
    "Transport Arrived" ].

Definition status_field (units : list (PulsePointUnit string)) (status : string)
    : list DiscordField :=
  let matching :=
    List.filter (fun unit => bool_decide (DisplayDispatchStatus unit = Some status))
      units in
  if decide (0 < length matching)%nat
  then [ {| name := status;
            value := Js.join ", " (map UnitID matching);
            inline := Some true |} ]
  else [].

Definition unknown_field (units : list (PulsePointUnit string)) : list DiscordField :=
  let unknownUnits :=
    List.filter
      (fun unit =>
         negb (bool_decide
                 (default EmptyString (DisplayDispatchStatus unit) ∈ knownStatuses)))
      units in
  if decide (0 < length unknownUnits)%nat
  then [ {| name := "Unknown";
            value :=
              Js.join ", "
                (map (fun unit =>
                        UnitID unit ++ " - "
                        ++ Js.template (PulsePointDispatchStatus unit))
                   unknownUnits);
            inline := Some true |} ]
  else [].

Definition buildDiscordFields (incident : Incident) (s : State)
    : list DiscordField * State :=
  let address :=
    {| name := "Full Address";
       value := if Js.truthy (FullDisplayAddress incident)
                then Js.template (FullDisplayAddress incident)
                else "Address not available";
       inline := None |} in
  let units :=
    match Unit incident with
    | Some units =>
        (status_field units "On Scene" ++ status_field units "En Route"
         ++ status_field units "Transport" ++ status_field units "Dispatched"
         ++ status_field units "Transport Arrived"
         ++ status_field units "Cleared" ++ unknown_field units)%list
    | None => []
    end in
  let '(t, s) := Date_now s in
  let updated :=
    {| name := "Last Updated";
       value := "<t:" ++ pretty (t `div` 1000) ++ ":R>";
       inline := Some false |} in
  ((address :: units ++ [updated])%list, s).

Definition permalink (id : string) : string :=
  "https://web.pulsepoint.org/?agencies=EMS1201&incident=" ++ id.

Definition footer (id : string) : string := "PulsePoint ID: " ++ id.

Definition red : Z := 0xf40a38.
Definition grey : Z := 0x818182.

(** [isStandby ? DISCORD_STANDBY_WEBHOOK_URL : DISCORD_WEBHOOK_URL]. *)
Definition webhook (callType : option string) : string :=
  if bool_decide (callType = Some "Standby")
  then DISCORD_STANDBY_WEBHOOK_URL env
  else DISCORD_WEBHOOK_URL env.

(** [!tracked.messageId.startsWith('incident-')]. *)
Definition isRealMessageId (id : string) : bool :=
  negb (Js.startsWith id "incident-").

(** The request of steps 5 to 7: "We have a real Discord message ID, attempt
    to update", else "We have a fallback ID, create a new message". *)
Definition update_request (baseWebhookUrl id : string) (embed : Embed) : Request :=
  if isRealMessageId id
  then {| req_url := baseWebhookUrl ++ "/messages/" ++ id;
          method := PATCH; embeds := embed |}
  else {| req_url := baseWebhookUrl; method := POST; embeds := embed |}.

(** **** Step 4, "Process new incidents" *)

(** The identifier step 4 stores after an accepted call: [None] when
    [response.text()] rejects (caught with the rejections of [fetch]:
    [continue]), else what the parsed text carries, else the fallback. *)
Definition new_messageId (fallback : string) (b : Body) : option string :=
  match b with
  | Unreadable => None
  | Blank | Malformed => Some fallback
  | Json messageData =>
      if Js.truthy (data_id messageData)
      then data_id messageData
      else if Js.truthy (data_message_id messageData)
      then data_message_id messageData
      else if Js.truthy (data_message messageData)
      then data_message messageData
      else Some fallback
  end.

Definition process_new (incident : Incident) (s : State) : bool * State :=
  let '(stamp, s) := Date_now s in
  let messageId := "incident-" ++ ID incident ++ "-" ++ pretty stamp in
  let '(discordFields, s) := buildDiscordFields incident s in
  let webhookUrl := webhook (DisplayIncidentCallType incident) in
  let embed :=
    {| title := DisplayIncidentCallType incident;
       fields := discordFields;
       color := red;
       footer_text := footer (ID incident);
       url := permalink (ID incident);
       timestamp := CallReceivedDateTime incident |} in
  let '(response, s) :=
    do_fetch New (ID incident)
      {| req_url := webhookUrl ++ "?wait=true"; method := POST; embeds := embed |}
      s in
  match response with
  | None => (false, s)
  | Some response =>
      if negb (ok response) then (false, s)
      else
        match new_messageId messageId (body response) with
        | None => (false, s)
        | Some messageId =>
            let '(t, s) := Date_now s in
            (true,
             KV_put (incident_key (ID incident))
               {| pulsepointId := ID incident;
                  closed := false;
                  messageId := Some messageId;
                  lastUpdated := t;
                  callReceived := CallReceivedDateTime incident;
                  displayIncidentCallType := DisplayIncidentCallType incident |}
               s)
        end
  end.

Definition step4 (s : State) : nat * State :=
  let newOnes := newOnes (trackedIncidents s) incidents in
  let '(_, s) := for_each process_new newOnes s in
  (length newOnes, s).

(** **** Step 5, "Update existing open incidents" *)

(** [messageData.id] of an accepted response, when there is one to adopt. *)
Definition returned_id (response : Response) : option string :=
  if ok response then
    match body response with
    | Json messageData =>
        if Js.truthy (data_id messageData) then data_id messageData else None
    | _ => None
    end
  else None.

(** What follows the call of step 5.  After a refused PATCH the new message
    is no longer posted (the call is commented out) and the identifier is
    adopted only [if (response.ok)], inside [if (!response.ok)]; after a
    POST it is adopted [if (response.ok)]. *)
Definition adopted_id (id : string) (response : Response) : option string :=
  if isRealMessageId id
  then if negb (ok response) then returned_id response else None
  else returned_id response.

Definition adopt (key : string) (adopted : option string)
    (tracked : StoredIncident) (s : State) : StoredIncident * State :=
  match adopted with
  | Some id => (with_messageId id tracked, assign_messageId key id s)
  | None => (tracked, s)
  end.

Definition process_open (incident : Incident) (s : State) : bool * State :=
  match Js.js_get (trackedIncidents s) (ID incident) with
  | Js.Own tracked =>
      if negb (Js.truthy (messageId tracked)) then (false, s)
      else
        let '(discordFields, s) := buildDiscordFields incident s in
        let embed :=
          {| title := DisplayIncidentCallType incident;
             fields := discordFields;
             color := red;
             footer_text := footer (ID incident);
             url := permalink (ID incident);
             timestamp := CallReceivedDateTime incident |} in
        let id := Js.template (messageId tracked) in
        let baseWebhookUrl := webhook (DisplayIncidentCallType incident) in
        let '(response, s) :=
          do_fetch UpdatedOpen (ID incident)
            (update_request baseWebhookUrl id embed) s in
        match response with
        | None => (false, s)
        | Some response =>
            let '(tracked, s) :=
              adopt (ID incident) (adopted_id id response) tracked s in
            if negb (ok response) then (false, s)
            else
              let '(t, s) := Date_now s in
              (true,
               KV_put (incident_key (ID incident)) (with_lastUpdated t tracked) s)
        end
  | _ => (false, s)   (* an inherited member has no [messageId] *)
  end.

Definition step5 (s : State) : nat * State :=
  for_each process_open (openIncidents (trackedIncidents s) incidents) s.

(** **** Step 6, "Process newly closed incidents" *)

Definition process_closed (incident : Incident) (s : State) : bool * State :=
  match Js.js_get (trackedIncidents s) (ID incident) with
  | Js.Own tracked =>
      if negb (Js.truthy (messageId tracked)) then (false, s)
      else
        let '(discordFields, s) := buildDiscordFields incident s in
        let embed :=
          {| title :=
               Some (Js.template (DisplayIncidentCallType incident) ++ " - Closed");
             fields := discordFields;
             color := grey;
             footer_text := footer (ID incident);
             url := permalink (ID incident);
             timestamp := CallReceivedDateTime incident |} in
        let id := Js.template (messageId tracked) in
        let baseWebhookUrl := webhook (DisplayIncidentCallType incident) in
        let '(response, s) :=
          do_fetch NewlyClosed (ID incident)
            (update_request baseWebhookUrl id embed) s in
        match response with
        | None => (false, s)
        | Some response =>
            if negb (ok response) then (false, s)
            else
              let '(t, s) := Date_now s in
              (true, KV_put (incident_key (ID incident)) (with_closed t tracked) s)
        end
  | _ => (false, s)
  end.

Definition step6 (s : State) : nat * State :=
  for_each process_closed (newlyClosed (trackedIncidents s) incidents) s.

(** **** Step 7, "Check for expired incidents" *)

(** "If not in current data, create a minimal version based on stored data". *)
Definition minimal (id : string) (tracked : StoredIncident) : Incident :=
  {| ID := id;
     Closed := None;
     CallReceivedDateTime := callReceived tracked;
     PulsePointIncidentCallType := None;
     DisplayIncidentCallType := displayIncidentCallType tracked;
     FullDisplayAddress := Some "Address information no longer available";
     Unit := Some [] |}.

Definition process_expired (id : string) (s : State) : bool * State :=
  match Js.js_get (trackedIncidents s) id with
  | Js.Own tracked =>
      if negb (Js.truthy (messageId tracked)) then (false, s)
      else
        let incidentData :=
          match List.find (fun inc => String.eqb (ID inc) id) incidents with
          | Some inc => inc
          | None => minimal id tracked
          end in
        let '(discordFields, s) := buildDiscordFields incidentData s in
        let embed :=
          {| title :=
               Some (Js.template (displayIncidentCallType tracked) ++ " - Expired");
             fields := discordFields;
             color := grey;
             footer_text := footer id;
             url := permalink id;
             timestamp := callReceived tracked |} in
        let mid := Js.template (messageId tracked) in
        let baseWebhookUrl := webhook (displayIncidentCallType tracked) in
        let '(response, s) :=
          do_fetch Expired id (update_request baseWebhookUrl mid embed) s in
        match response with
        | None => (false, s)
        | Some response =>
            if negb (ok response) then (false, s)
            else
              let '(t, s) := Date_now s in
              (true, KV_put (incident_key id) (with_closed t tracked) s)
        end
  | _ => (false, s)
  end.

Definition step7 (s : State) : nat * State :=
  let '(now_, s) := Date_now s in
  for_each process_expired (expiredIds (trackedIncidents s) now_) s.

(** **** Step 8, "Prune closed incidents from KV" *)

Definition process_prune (id : string) (s : State) : bool * State :=
  (true, KV_delete (incident_key id) s).

Definition step8 (s : State) : nat * State :=
  let '(now_, s) := Date_now s in
  for_each process_prune (pruneIds (trackedIncidents s) now_) s.

(** **** The run, from step 3 on *)

Definition start (store : gmap string StoredIncident) : State :=
  {| kv := store; trackedIncidents := load_tracked store; trace := []; tick := O |}.

Definition run (store : gmap string StoredIncident) : Summary * State :=
  let s := start store in
  let tracked := size (trackedIncidents s) in
  let '(newIncidents, s) := step4 s in
  let '(updatedOpenIncidents, s) := step5 s in
  let '(closedIncidents, s) := step6 s in
  let '(expiredIncidents, s) := step7 s in
  let '(prunedIncidents, s) := step8 s in
  let '(t, s) := Date_now s in
  ({| totalIncidents := length incidents;
      trackedIncidentsCount := tracked;
      newIncidents := newIncidents;
      updatedOpenIncidents := updatedOpenIncidents;
      closedIncidents := closedIncidents;
      expiredIncidents := expiredIncidents;
      prunedIncidents := prunedIncidents;
      timestamp_ := t |}, s).

End Run.

(** *** The vocabulary of the lemmas on the engine *)

(** A call that lets its transition go on to the store: the response is
    there and [ok]; step 4 also has to read its text. *)
Definition accepted (t : Transition) (response : option Response) : Prop :=
  exists r, response = Some r /\ ok r = true /\ (t = New -> body r <> Unreadable).

(** A call that did not succeed: a response that is not [ok], or none. *)
Definition failed (response : option Response) : Prop :=
  forall r, response = Some r -> ok r = false.

(** What step 5 can turn a record of [trackedIncidents] into: the record
    itself, or the record under another message identifier. *)
Definition reidentified (tracked tracked' : StoredIncident) : Prop :=
  tracked' = tracked
  \/ (Js.truthy (messageId tracked) = true
      /\ exists id, Js.truthy (Some id) = true /\ tracked' = with_messageId id tracked).

(** Two states a step cannot tell apart: they differ in [tick] only. *)
Definition same (s s' : State) : Prop :=
  kv s' = kv s /\ trackedIncidents s' = trackedIncidents s /\ trace s' = trace s.

(** The identifier has a record with a message identifier to work on. *)
Definition usable (t : Transition) (id : string) (s : State) : Prop :=
  match t with
  | New => True
  | _ => exists tracked,
      trackedIncidents s !! id = Some tracked /\ Js.truthy (messageId tracked) = true
  end.

(** The record a transition stores, and what it does to [trackedIncidents]. *)
Definition stored (t : Transition) (id : string) (s s' : State)
    (data : StoredIncident) : Prop :=
  match t with
  | New =>
      trackedIncidents s' = trackedIncidents s
      /\ pulsepointId data = id /\ closed data = false
      /\ Js.truthy (messageId data) = true
  | UpdatedOpen =>
      exists tracked tracked' at_,
        trackedIncidents s !! id = Some tracked
        /\ Js.truthy (messageId tracked) = true
        /\ reidentified tracked tracked'
        /\ trackedIncidents s' = <[id := tracked']> (trackedIncidents s)
        /\ data = with_lastUpdated at_ tracked'
  | NewlyClosed | Expired =>
      exists tracked at_,
        trackedIncidents s !! id = Some tracked
        /\ Js.truthy (messageId tracked) = true
        /\ trackedIncidents s' = trackedIncidents s
        /\ data = with_closed at_ tracked
  end.

(** The transitions that store [closed: true]. *)
Definition closing (t : Transition) : Prop := t = NewlyClosed \/ t = Expired.

(** One pass of the body of a notifying loop, for one identifier: the body
    leaves at the guard on [messageId], or makes one call that fails, or
    makes one call that is accepted and stores one record. *)
Inductive attempt (world : World) (t : Transition) (id : string) (s s' : State)
    : list Event -> Prop :=
  | attempt_skipped :
      t <> New ->
      (forall tracked, trackedIncidents s !! id = Some tracked ->
                       Js.truthy (messageId tracked) = false) ->
      same s s' ->
      attempt world t id s s' []
  | attempt_failed n request :
      ~ accepted t (fetch world n request) ->
      usable t id s ->
      kv s' = kv s ->
      trackedIncidents s' = trackedIncidents s ->
      trace s' = (trace s ++ [Notified t id request (fetch world n request)])%list ->
      attempt world t id s s' [Notified t id request (fetch world n request)]
  | attempt_stored n request data :
      accepted t (fetch world n request) ->
      stored t id s s' data ->
      kv s' = <[incident_key id := data]> (kv s) ->
      trace s' = (trace s ++ [Notified t id request (fetch world n request);
                              Put (incident_key id) data])%list ->
      attempt world t id s s'
        [Notified t id request (fetch world n request); Put (incident_key id) data].

(** A notifying loop over a list of identifiers. *)
Inductive sweep (world : World) (t : Transition)
    : list string -> State -> State -> list Event -> Prop :=
  | sweep_nil s s' :
      same s s' -> sweep world t [] s s' []
  | sweep_cons id ids s s1 s2 evs1 evs2 :
      attempt world t id s s1 evs1 ->
      sweep world t ids s1 s2 evs2 ->
      sweep world t (id :: ids) s s2 (evs1 ++ evs2).

(** [trackedIncidents] before and after some passes of step 5: the same
    identifiers, each with its record or that record reidentified. *)
Definition evolved (m m' : gmap string StoredIncident) : Prop :=
  forall id,
    match m !! id, m' !! id with
    | Some tracked, Some tracked' => reidentified tracked tracked'
    | None, None => True
    | _, _ => False
    end.

(** What an event of a sweep over [ids] that starts from the records [m] of
    [trackedIncidents] looks like. *)
Definition event_in (t : Transition) (ids : list string)
    (m : gmap string StoredIncident) (e : Event) : Prop :=
  match e with
  | Notified t' id _ _ =>
      t' = t /\ id ∈ ids
      /\ (t <> New ->
          exists tracked, m !! id = Some tracked /\ Js.truthy (messageId tracked) = true)
  | Put key data =>
      exists id, key = incident_key id /\ id ∈ ids
        /\ match t with
           | New =>
               pulsepointId data = id /\ closed data = false
               /\ Js.truthy (messageId data) = true
           | UpdatedOpen =>
               exists tracked tracked' at_,
                 m !! id = Some tracked /\ Js.truthy (messageId tracked) = true
                 /\ reidentified tracked tracked'
                 /\ data = with_lastUpdated at_ tracked'
           | NewlyClosed | Expired =>
               exists tracked tracked' at_,
                 m !! id = Some tracked /\ Js.truthy (messageId tracked) = true
                 /\ reidentified tracked tracked'
                 /\ data = with_closed at_ tracked'
           end
  | Deleted _ => False
  end.

(** What an event of a run looks like, from the records [m] the run loaded
    in step 3: a notification is for an identifier its step selected; a
    record is stored for a new incident, or for an identifier whose loaded
    record was open and had a message identifier; a record is deleted only
    when it was loaded as closed. *)
Definition lawful (m : gmap string StoredIncident) (incidents : list Incident)
    (e : Event) : Prop :=
  match e with
  | Notified New id _ _ => id ∈ map ID (newOnes m incidents)
  | Notified t id _ _ =>
      (exists tracked,
          m !! id = Some tracked /\ closed tracked = false
          /\ Js.truthy (messageId tracked) = true)
      /\ match t with
         | UpdatedOpen => id ∈ map ID (openIncidents m incidents)
         | NewlyClosed => id ∈ map ID (newlyClosed m incidents)
         | _ => exists now_, id ∈ expiredIds m now_
         end
  | Put key data =>
      exists id,
        key = incident_key id /\ Js.truthy (messageId data) = true
        /\ ((id ∈ map ID (newOnes m incidents)
             /\ pulsepointId data = id /\ closed data = false)
            \/ (exists tracked,
                  m !! id = Some tracked /\ closed tracked = false
                  /\ Js.truthy (messageId tracked) = true
                  /\ pulsepointId data = pulsepointId tracked))
  | Deleted key =>
      exists id tracked,
        key = incident_key id /\ m !! id = Some tracked /\ closed tracked = true
  end.

(** The effect of a list of events on the store. *)
Definition apply_event (store : gmap string StoredIncident) (e : Event)
    : gmap string StoredIncident :=
  match e with
  | Notified _ _ _ _ => store
  | Put key data => <[key := data]> store
  | Deleted key => delete key store
  end.

Definition replay (evs : list Event) (store : gmap string StoredIncident)
    : gmap string StoredIncident :=
  foldl apply_event store evs.

(** An event that concerns an identifier, and one that writes its record. *)
Definition about (id : string) (e : Event) : Prop :=
  match e with
  | Notified _ id' _ _ => id' = id
  | Put key _ => key = incident_key id
  | Deleted key => key = incident_key id
  end.

Definition writes (id : string) (e : Event) : Prop :=
  match e with
  | Notified _ _ _ _ => False
  | Put key _ => key = incident_key id
  | Deleted key => key = incident_key id
  end.

(** Every call made for the identifier failed. *)
Definition quiet (id : string) (e : Event) : Prop :=
  match e with
  | Notified _ id' _ response => id' = id -> failed response
  | _ => True
  end.

(** The stores the engine produces: every record sits under the key of its
    own identifier, and no identifier names a member objects inherit. *)
Definition store_keyed (store : gmap string StoredIncident) : Prop :=
  map_Forall
    (fun key data =>
       key = incident_key (pulsepointId data)
       /\ pulsepointId data ∉ Js.inherited_names)
    store.

(** Every record carries a message identifier. *)
Definition store_notified (store : gmap string StoredIncident) : Prop :=
  map_Forall (fun _ data => Js.truthy (messageId data) = true) store.

(** Feeds as the data model has them: identifiers are unique within a feed,
    and none names a member objects inherit. *)
Definition feed_wf (incidents : list Incident) : Prop :=
  NoDup (map ID incidents)
  /\ Forall (fun incident => ID incident ∉ Js.inherited_names) incidents.

(** The call of a pass of steps 5 to 7, from the stored message
    identifier: a fallback identifier has a new message created on the
    webhook, a real one has its message patched. *)
Definition call_shape (baseWebhookUrl id : string) (request : Request) : Prop :=
  if isRealMessageId id
  then method request = PATCH
       /\ req_url request = baseWebhookUrl ++ "/messages/" ++ id
  else method request = POST /\ req_url request = baseWebhookUrl.

(** What a pass of steps 5 to 7 does for an identifier whose record
    [tracked] has a message identifier: it makes one call, of the shape
    above; when the call fails it does nothing else; and in step 5, when the
    identifier was a fallback and the accepted response carries an
    identifier, that one is stored, in the record and in
    [trackedIncidents]. *)
Definition pass_spec (world : World) (t : Transition) (id baseWebhookUrl : string)
    (tracked : StoredIncident) (s : State) (result : bool * State) : Prop :=
  let stored_id := Js.template (messageId tracked) in
  exists request puts,
    call_shape baseWebhookUrl stored_id request
    /\ trace result.2
       = (trace s
          ++ Notified t id request (fetch world (S (tick s)) request) :: puts)%list
    /\ (failed (fetch world (S (tick s)) request) ->
        puts = [] /\ result.1 = false /\ kv result.2 = kv s
        /\ trackedIncidents result.2 = trackedIncidents s)
    /\ (t = UpdatedOpen -> isRealMessageId stored_id = false ->
        forall response messageData,
          fetch world (S (tick s)) request = Some response ->
          ok response = true -> body response = Json messageData ->
          Js.truthy (data_id messageData) = true ->
          let adopted :=
            with_messageId (Js.template (data_id messageData)) tracked in
          (exists at_,
              puts = [Put (incident_key id) (with_lastUpdated at_ adopted)])
          /\ trackedIncidents result.2 !! id = Some adopted).

(** Runs one after the other, each on the store the one before left, with
    its own feed and its own outside. *)
Fixpoint after (env : Env) (runs : list (World * list Incident))
    (store : gmap string StoredIncident) : gmap string StoredIncident :=
  match runs with
  | [] => store
  | (world, incidents) :: rest =>
      after env rest (kv (run env world incidents store).2)
  end.

(** The record of the identifier is there after each of the runs. *)
Fixpoint survives (env : Env) (runs : list (World * list Incident))
    (store : gmap string StoredIncident) (id : string) : Prop :=
  match runs with
  | [] => True
  | (world, incidents) :: rest =>
      let store' := kv (run env world incidents store).2 in
      is_Some (store' !! incident_key id) /\ survives env rest store' id
  end.

(** *** The vocabulary of the lemmas on the embeds and on the calls *)

(** The names [buildDiscordFields] gives the fields of the units, in the
    order it pushes them. *)
Definition unit_field_names : list string :=
  [ "On Scene"; "En Route"; "Transport"; "Dispatched"; "Transport Arrived";
    "Cleared"; "Unknown" ].

(** The field a unit is listed in: that of its display status when it is
    one of [knownStatuses], else the last one. *)
Definition field_of (unit : PulsePointUnit string) : string :=
  let status := default EmptyString (DisplayDispatchStatus unit) in
  if bool_decide (status ∈ knownStatuses) then status else "Unknown".

(** How a unit is written in its field. *)
Definition label_of (unit : PulsePointUnit string) : string :=
  if bool_decide (field_of unit = "Unknown")
  then UnitID unit ++ " - " ++ Js.template (PulsePointDispatchStatus unit)
  else UnitID unit.

(** The units of a field, in the order of the incident. *)
Definition listed (units : list (PulsePointUnit string)) (field : string)
    : list (PulsePointUnit string) :=
  List.filter (fun unit => bool_decide (field_of unit = field)) units.

(** The field of a name, when a unit is listed in it. *)
Definition unit_field (units : list (PulsePointUnit string)) (field : string)
    : list DiscordField :=
  if decide (0 < length (listed units field))%nat
  then [ {| name := field;
            value := Js.join ", " (map label_of (listed units field));
            inline := Some true |} ]
  else [].

Global Instance Transition_eq_dec : EqDecision Transition.
Proof. solve_decision. Defined.

(** The call a transition makes for an identifier: the embed names the
    identifier in its footer and in its link and has the colour of the
    transition; the call goes to one of the two webhooks, as the creation
    of a message that is waited for (step 4), or as the patch or the
    creation [call_shape] describes (steps 5 to 7). *)
Definition call_of (env : Env) (t : Transition) (id : string) (request : Request)
    : Prop :=
  footer_text (embeds request) = footer id
  /\ url (embeds request) = permalink id
  /\ color (embeds request) = match t with New | UpdatedOpen => red | _ => grey end
  /\ exists base,
       (base = DISCORD_WEBHOOK_URL env \/ base = DISCORD_STANDBY_WEBHOOK_URL env)
       /\ match t with
          | New => method request = POST /\ req_url request = base ++ "?wait=true"
          | _ => exists stored_id,
                   stored_id <> EmptyString /\ call_shape base stored_id request
          end.

(** [accepted], as a test. *)
Definition accepted_b (t : Transition) (response : option Response) : bool :=
  match response with
  | Some r =>
      ok r && match t, body r with
              | New, Unreadable => false
              | _, _ => true
              end
  | None => false
  end.

(** The events of one pass of a loop and whether the pass reached the
    increment of the counter: no event (the guard on [messageId]), a call
    that is not accepted, or an accepted call and the [put] of the record of
    the identifier; the last case is the one that counts. *)
Definition pass_trace (env : Env) (t : Transition) (id : string)
    (counted : bool) (evs : list Event) : Prop :=
  (t <> New /\ evs = [] /\ counted = false)
  \/ exists request response,
       call_of env t id request
       /\ ((accepted_b t response = false
            /\ evs = [Notified t id request response] /\ counted = false)
           \/ (accepted_b t response = true /\ counted = true
               /\ exists data,
                    evs = [Notified t id request response;
                           Put (incident_key id) data])).

(** The events of a loop over a list of identifiers, and its counter. *)
Inductive loop_trace (env : Env) (t : Transition)
    : list string -> nat -> list Event -> Prop :=
  | loop_done : loop_trace env t [] O []
  | loop_pass id ids counted n evs1 evs2 :
      pass_trace env t id counted evs1 ->
      loop_trace env t ids n evs2 ->
      loop_trace env t (id :: ids) (if counted then S n else n) (evs1 ++ evs2).

(** Counting the events of a trace. *)
Definition is_call (t : Transition) (e : Event) : bool :=
  match e with
  | Notified t' _ _ _ => bool_decide (t' = t)
  | _ => false
  end.

Definition is_accepted_call (t : Transition) (e : Event) : bool :=
  match e with
  | Notified t' _ _ response => bool_decide (t' = t) && accepted_b t response
  | _ => false
  end.

Definition is_notified (e : Event) : bool :=
  match e with Notified _ _ _ _ => true | _ => false end.

Definition is_put (e : Event) : bool :=
  match e with Put _ _ => true | _ => false end.

Definition is_delete (e : Event) : bool :=
  match e with Deleted _ => true | _ => false end.

Definition count (p : Event -> bool) (evs : list Event) : nat :=
  length (List.filter p evs).

(** A trace in which each accepted call is followed by the [put] of the
    record of its identifier, and each [put] follows such a call. *)
Inductive paired : list Event -> Prop :=
  | paired_nil : paired []
  | paired_failed t id request response rest :
      accepted_b t response = false -> paired rest ->
      paired (Notified t id request response :: rest)
  | paired_stored t id request response data rest :
      accepted_b t response = true -> paired rest ->
      paired (Notified t id request response :: Put (incident_key id) data :: rest)
  | paired_deleted key rest :
      paired rest -> paired (Deleted key :: rest).

(** *** The vocabulary of the lemmas on what a record keeps *)

(** The record has a message identifier that is no fallback. *)
Definition has_real_id (tracked : StoredIncident) : Prop :=
  isRealMessageId (Js.template (messageId tracked)) = true.

(** A record of [trackedIncidents] against the one step 3 loaded: the same,
    or, when the loaded one had a fallback identifier, the same under
    another message identifier. *)
Definition kept (loaded tracked : StoredIncident) : Prop :=
  tracked = loaded
  \/ (~ has_real_id loaded /\ exists id, tracked = with_messageId id loaded).

(** A [put] on the key of a loaded record writes that record, as [kept]
    has it, with a new [lastUpdated] and, maybe, closed. *)
Definition put_kept (m0 : gmap string StoredIncident) (e : Event) : Prop :=
  match e with
  | Put key data =>
      forall id loaded,
        key = incident_key id -> m0 !! id = Some loaded ->
        exists tracked at_,
          kept loaded tracked
          /\ (data = with_lastUpdated at_ tracked \/ data = with_closed at_ tracked)
  | _ => True
  end.

(** The state of a run against what step 3 loaded. *)
Definition keeping (m0 : gmap string StoredIncident) (s : State) : Prop :=
  (forall id loaded,
      m0 !! id = Some loaded ->
      exists tracked, trackedIncidents s !! id = Some tracked /\ kept loaded tracked)
  /\ Forall (put_kept m0) (trace s).

(** *** The vocabulary of the lemmas on the calls, one by one *)

(** A record under another message identifier, or under none. *)
Definition under (mid : option string) (tracked : StoredIncident) : StoredIncident :=
  {| pulsepointId := pulsepointId tracked;
     closed := closed tracked;
     messageId := mid;
     lastUpdated := lastUpdated tracked;
     callReceived := callReceived tracked;
     displayIncidentCallType := displayIncidentCallType tracked |}.

(** What an event does to the message identifier [mid] that the record of
    [id] has in [trackedIncidents]: a call of step 5 for [id] that got a
    response assigns the identifier [adopted_id] finds in it, when it finds
    one; no other event changes it. *)
Definition reassign (id : string) (mid : option string) (e : Event)
    : option string :=
  match e with
  | Notified UpdatedOpen id' _ (Some response) =>
      if bool_decide (id' = id)
      then match adopted_id (Js.template mid) response with
           | Some new => Some new
           | None => mid
           end
      else mid
  | _ => mid
  end.

(** The message identifier the record of [id] has in [trackedIncidents]
    after the events [evs] of a run that loaded it as [loaded]. *)
Definition current_messageId (evs : list Event) (id : string)
    (loaded : StoredIncident) : option string :=
  foldl (reassign id) (messageId loaded) evs.

(** What an event of a run is, after the events [pre] of the run, from the
    feed and the records [m0] of step 3.  A call of step 4 creates a message
    that is waited for, on the webhook of the display type of an incident of
    the feed, with that type for its title.  A call of steps 5 and 6 is of
    the shape [call_shape] gives for the message identifier the record has
    by then, on the webhook of the display type of an incident of the feed;
    a call of step 7 is so on the webhook of the display type of the record.
    The record step 4 writes after its call has the identifier of the
    incident, the title and the instant of the message, and for its message
    identifier what [new_messageId] reads in the response, with a fallback
    made of the identifier of the incident and a reading of the clock. *)
Definition event_described (env : Env) (world : World) (incidents : list Incident)
    (m0 : gmap string StoredIncident) (pre : list Event) (e : Event) : Prop :=
  match e with
  | Notified New id request _ =>
      exists incident,
        In incident incidents /\ ID incident = id
        /\ method request = POST
        /\ req_url request
           = webhook env (DisplayIncidentCallType incident) ++ "?wait=true"
        /\ title (embeds request) = DisplayIncidentCallType incident
        /\ timestamp (embeds request) = CallReceivedDateTime incident
  | Notified Expired id request _ =>
      exists loaded,
        m0 !! id = Some loaded
        /\ call_shape (webhook env (displayIncidentCallType loaded))
             (Js.template (current_messageId pre id loaded)) request
  | Notified _ id request _ =>
      exists incident loaded,
        In incident incidents /\ ID incident = id /\ m0 !! id = Some loaded
        /\ call_shape (webhook env (DisplayIncidentCallType incident))
             (Js.template (current_messageId pre id loaded)) request
  | Put key data =>
      match last pre with
      | Some (Notified New id request (Some response)) =>
          key = incident_key id
          /\ pulsepointId data = id /\ closed data = false
          /\ callReceived data = timestamp (embeds request)
          /\ displayIncidentCallType data = title (embeds request)
          /\ exists n n',
               (n < n')%nat
               /\ new_messageId ("incident-" ++ id ++ "-" ++ pretty (now world n))
                    (body response)
                  = messageId data
               /\ lastUpdated data = now world n'
      | _ => True
      end
  | Deleted _ => True
  end.

(** Each of the events [evs] that follow the events [pre] is as
    [event_described] has it. *)
Fixpoint described_from (env : Env) (world : World) (incidents : list Incident)
    (m0 : gmap string StoredIncident) (pre evs : list Event) : Prop :=
  match evs with
  | [] => True
  | e :: rest =>
      event_described env world incidents m0 pre e
      /\ described_from env world incidents m0 (pre ++ [e]) rest
  end.

(** The state of a run against what step 3 loaded and the events so far:
    [trackedIncidents] has the loaded records, each under its message
    identifier of the moment. *)
Definition described (env : Env) (world : World) (incidents : list Incident)
    (m0 : gmap string StoredIncident) (s : State) : Prop :=
  (forall id,
      trackedIncidents s !! id
      = (fun loaded => under (current_messageId (trace s) id loaded) loaded)
          <$> m0 !! id)
  /\ described_from env world incidents m0 [] (trace s).

End Engine.

(** * The entry point of the worker: the handler [fetch] of [src/index.ts]

    The handler answers a request from the bindings of the environment:
    the workflow binding, of which it gets or creates an instance, and the
    KV namespace, of which it reads and writes the text under the key
    [latestIncidentId].  The request comes as the handler reads it: the
    path and the parameter [instanceId] of its URL, its method, and what
    [request.json()] makes of its body. *)

Module Index.

(** [instance.id] and [await instance.status()] (the status as the text
    of its JSON; [None] when the call throws). *)
Record Instance := {
  instance_id : string;
  instance_status : option string
}.

(** The binding [PULSEPOINT_WORKFLOW] for one request: [get(id)] and
    [create()], each [None] when it throws. *)
Record Workflow := {
  get : string -> option Instance;
  create : option Instance
}.

(** [await request.json()]: it rejects on a body that is no JSON; else the
    value is [null], or a value with or without a member [id] (a string,
    as the handler declares it). *)
Inductive Payload :=
  | Unparsable
  | Null
  | Value (id : option string).

Record Request := {
  pathname : string;               (* [url.pathname] *)
  instanceId : option string;      (* [url.searchParams.get('instanceId')] *)
  method : string;
  json : Payload
}.

(** The responses of the handler: the five [Response.json] (one with the
    status 404) and the page of the usage. *)
Inductive Reply :=
  | Status (id : string) (status : string)
  | NotFound (error : string)
  | Triggered (id : string) (message : string) (status : string)
  | Latest (latestIncidentId : string)
  | Reset (message : string)
  | Usage.

(** What a call of the handler comes to: its response ([None] when it
    throws), the namespace after it, and whether it created an instance of
    the workflow. *)
Record Outcome := {
  reply : option Reply;
  namespace : gmap string string;
  started : bool
}.

Definition latestIncidentId : string := "latestIncidentId".

Definition fetch (workflow : Workflow) (kv : gmap string string)
    (request : Request) : Outcome :=
  if Js.truthy (instanceId request) then
    let id := Js.template (instanceId request) in
    let answer :=
      match get workflow id with
      | Some instance =>
          match instance_status instance with
          | Some status => Status (instance_id instance) status
          | None => NotFound ("Instance not found: " ++ id)
          end
      | None => NotFound ("Instance not found: " ++ id)
      end in
    {| reply := Some answer; namespace := kv; started := false |}
  else if String.eqb (pathname request) "/trigger" then
    match create workflow with
    | Some instance =>
        {| reply :=
             match instance_status instance with
             | Some status =>
                 Some (Triggered (instance_id instance)
                         "Workflow instance created" status)
             | None => None
             end;
           namespace := kv; started := true |}
    | None => {| reply := None; namespace := kv; started := false |}
    end
  else if String.eqb (pathname request) "/latest-id" then
    let latestId := kv !! latestIncidentId in
    {| reply := Some (Latest (if Js.truthy latestId then Js.template latestId
                              else "0"));
       namespace := kv; started := false |}
  else if String.eqb (pathname request) "/reset-id"
          && String.eqb (method request) "POST" then
    match json request with
    | Value id =>
        let newId := if Js.truthy id then Js.template id else "0" in
        {| reply := Some (Reset ("Latest incident ID reset to " ++ newId));
           namespace := <[latestIncidentId := newId]> kv; started := false |}
    | Unparsable | Null =>
        {| reply := None; namespace := kv; started := false |}
    end
  else {| reply := Some Usage; namespace := kv; started := false |}.

End Index.

(** ** Concrete feeds, stores and outsides *)

Module Examples.

Import Engine.

(** A salt of eight bytes. *)
Definition salt : list byte := map MD5.to_byte [1; 2; 3; 4; 5; 6; 7; 8]%N.

(** A decrypted text that opens with a double quote and has no other one. *)
Definition unclosed_text : string := String Decryptor.quote "abc".

(** A text as the feed wraps it: the payload between double quotes, with
    its own quotes escaped, and a tail. *)
Definition wrapped_text : string :=
  String Decryptor.quote
    ("{\" ++ String Decryptor.quote
       ("a\" ++ String Decryptor.quote
          (":1}" ++ String Decryptor.quote "zz"))).

(** A payload with one active incident whose call type and whose unit's
    dispatch status name members that every object inherits. *)
Definition odd_incident : PulsePointIncident string :=
  {| ID := "300";
     Closed := None;
     CallReceivedDateTime := Some "2024-05-01T10:00:00Z";
     PulsePointIncidentCallType := Some "constructor";
     DisplayIncidentCallType := None;
     FullDisplayAddress := Some "1 MAIN ST, VANCOUVER, BC";
     Unit := Some [ {| UnitID := "M1";
                       PulsePointDispatchStatus := Some "toString";
                       DisplayDispatchStatus := None |} ] |}.

Definition odd_feed : Normalizer.DecryptedFeed :=
  {| Normalizer.incidents :=
       Some {| Normalizer.active := Some [odd_incident];
               Normalizer.recent := None |} |}.

(** A payload with an active and a recent incident. *)
Definition raw (id : string) (callType : option string) (status : option string)
    : PulsePointIncident string :=
  {| ID := id;
     Closed := None;
     CallReceivedDateTime := None;
     PulsePointIncidentCallType := callType;
     DisplayIncidentCallType := None;
     FullDisplayAddress := Some "123 Main St, Vancouver, BC";
     Unit := Some [ {| UnitID := "A1";
                       PulsePointDispatchStatus := status;
                       DisplayDispatchStatus := None |} ] |}.

Definition plain_feed : Normalizer.DecryptedFeed :=
  {| Normalizer.incidents :=
       Some {| Normalizer.active := Some [raw "101" (Some "ME") (Some "ER")];
               Normalizer.recent := Some [raw "102" (Some "XX") None] |} |}.

(** The engine. *)
Definition env : Env :=
  {| DISCORD_WEBHOOK_URL := "https://discord.example/api/webhooks/1/main";
     DISCORD_STANDBY_WEBHOOK_URL :=
       "https://discord.example/api/webhooks/2/standby" |}.

Definition created (id : string) : Response :=
  {| ok := true;
     body := Json {| data_id := Some id;
                     data_message_id := None;
                     data_message := None |} |}.

Definition refusal : Response := {| ok := false; body := Blank |}.

(** Outsides whose clock starts at [t0] and moves by a millisecond at each
    reading or call: one that accepts every call, one that refuses every
    call, and one that refuses the red embeds (new and updated-open) and
    accepts the grey ones (closed and expired). *)
Definition accepting (t0 : Z) : World :=
  {| now := fun n => t0 + Z.of_nat n;
     fetch := fun _ _ => Some (created "9001") |}.

(** An outside that accepts every call with an empty text. *)
Definition answering_blank (t0 : Z) : World :=
  {| now := fun n => t0 + Z.of_nat n;
     fetch := fun _ _ => Some {| ok := true; body := Blank |} |}.

Definition refusing (t0 : Z) : World :=
  {| now := fun n => t0 + Z.of_nat n;
     fetch := fun _ _ => Some refusal |}.

Definition refusing_updates (t0 : Z) : World :=
  {| now := fun n => t0 + Z.of_nat n;
     fetch := fun _ request =>
                if color (embeds request) =? red
                then Some refusal
                else Some (created "9002") |}.

(** The first of May 2024 at noon, a minute later, and a day and an hour
    later. *)
Definition noon : Z := 1714564800000.
Definition soon : Z := noon + 60000.
Definition next_day : Z := noon + 25 * hour.

Definition incident_101 : Incident :=
  {| ID := "101";
     Closed := Some false;
     CallReceivedDateTime := Some "2024-05-01T11:58:00Z";
     PulsePointIncidentCallType := Some "ME";
     DisplayIncidentCallType := Some "Medical Emergency";
     FullDisplayAddress := Some "123 Main St, Vancouver, BC";
     Unit := Some [ {| UnitID := "A1";
                       PulsePointDispatchStatus := Some "ER";
                       DisplayDispatchStatus := Some "En Route" |};
                    {| UnitID := "A2";
                       PulsePointDispatchStatus := Some "OS";
                       DisplayDispatchStatus := Some "On Scene" |} ] |}.

Definition incident_102 : Incident :=
  {| ID := "102";
     Closed := Some true;
     CallReceivedDateTime := Some "2024-05-01T09:30:00Z";
     PulsePointIncidentCallType := Some "TC";
     DisplayIncidentCallType := Some "Traffic Collision";
     FullDisplayAddress := Some "4500 KINGSWAY, BURNABY, BC";
     Unit := Some [] |}.

(** An active incident of the call type [STBY]. *)
Definition incident_103 : Incident :=
  {| ID := "103";
     Closed := Some false;
     CallReceivedDateTime := Some "2024-05-01T11:00:00Z";
     PulsePointIncidentCallType := Some "STBY";
     DisplayIncidentCallType := Some "Standby";
     FullDisplayAddress := Some "800 ROBSON ST, VANCOUVER, BC";
     Unit := Some [] |}.

(** An incident of the recent list whose identifier is the name of a member
    that every object inherits. *)
Definition incident_constructor : Incident :=
  {| ID := "constructor";
     Closed := Some true;
     CallReceivedDateTime := Some "2024-05-01T09:30:00Z";
     PulsePointIncidentCallType := Some "TC";
     DisplayIncidentCallType := Some "Traffic Collision";
     FullDisplayAddress := Some "4500 KINGSWAY, BURNABY, BC";
     Unit := Some [] |}.

Definition record (id : string) (closed_ : bool) (messageId_ : option string)
    (lastUpdated_ : Z) : StoredIncident :=
  {| pulsepointId := id;
     closed := closed_;
     messageId := messageId_;
     lastUpdated := lastUpdated_;
     callReceived := Some "2024-05-01T09:30:00Z";
     displayIncidentCallType := Some "Medical Emergency" |}.

Definition open_101 : StoredIncident := record "101" false (Some "555") noon.
Definition closed_101 : StoredIncident := record "101" true (Some "555") noon.
Definition silent_101 : StoredIncident := record "101" false None noon.
Definition fallback_101 : StoredIncident :=
  record "101" false (Some "incident-101-1714564800000") noon.
Definition open_102 : StoredIncident := record "102" false (Some "556") noon.
Definition silent_102 : StoredIncident := record "102" false None noon.
Definition fallback_102 : StoredIncident :=
  record "102" false (Some "incident-102-1714564800000") noon.

Definition store_of (records : list StoredIncident) : gmap string StoredIncident :=
  list_to_map (map (fun data => (incident_key (pulsepointId data), data)) records).

(** [trackedIncidents] with the records under their identifiers. *)
Definition tracked_of (records : list StoredIncident) : gmap string StoredIncident :=
  list_to_map (map (fun data => (pulsepointId data, data)) records).

(** A payload text with two double quotes of its own, and what may come
    after the quote that closes the wrapping. *)
Definition payload_text : string :=
  "{" ++ String Decryptor.quote ("a" ++ String Decryptor.quote ":1}").

Definition junk : string := "zz".

(** A store with a record under a key that is none of the engine. *)
Definition store_with_a_backup : gmap string StoredIncident :=
  <["backup:101" := open_101]> (store_of [open_101]).

(** Four days after noon. *)
Definition days_later : Z := noon + 4 * day.

(** The entry point: a binding without instances that cannot create one,
    a request to reset the latest identifier and one to read it. *)
Definition no_workflow : Index.Workflow :=
  {| Index.get := fun _ => None; Index.create := None |}.

Definition reset_to (id : option string) : Index.Request :=
  {| Index.pathname := "/reset-id"; Index.instanceId := None;
     Index.method := "POST"; Index.json := Index.Value id |}.

Definition read_latest : Index.Request :=
  {| Index.pathname := "/latest-id"; Index.instanceId := None;
     Index.method := "GET"; Index.json := Index.Unparsable |}.

End Examples.

(** * Facts *)

(** ** The steps of the engine, one pass of a loop at a time *)

Module StepFacts.

Import Engine.

Lemma incident_key_inj id id' : incident_key id = incident_key id' -> id = id'.
Proof. unfold incident_key. intros H. by simplify_eq/=. Qed.

Lemma same_refl s : same s s.
Proof. by repeat split. Qed.

Lemma same_trans s1 s2 s3 : same s1 s2 -> same s2 s3 -> same s1 s3.
Proof. intros (?&?&?) (?&?&?). repeat split; congruence. Qed.

Lemma same_sym s1 s2 : same s1 s2 -> same s2 s1.
Proof. intros (?&?&?). by repeat split. Qed.

Section Steps.

Variable env : Env.
Variable world : World.
Variable incidents : list Incident.

Lemma new_messageId_truthy fallback b id :
  Js.truthy (Some fallback) = true ->
  new_messageId fallback b = Some id -> Js.truthy (Some id) = true.
Proof.
  intros Hf. destruct b as [| | |d]; cbn [new_messageId];
    [done | by intros [= <-] | by intros [= <-] |].
  destruct (Js.truthy (data_id d)) eqn:E1.
  { intros <-. done. }
  destruct (Js.truthy (data_message_id d)) eqn:E2.
  { intros <-. done. }
  destruct (Js.truthy (data_message d)) eqn:E3.
  { intros <-. done. }
  congruence.
Qed.

Lemma truthy_is_Some o : Js.truthy o = true -> exists x, o = Some x.
Proof. destruct o; [eauto | done]. Qed.

Lemma new_messageId_None fallback b :
  new_messageId fallback b = None -> b = Unreadable.
Proof.
  destruct b as [| | |d]; cbn [new_messageId]; try done.
  destruct (Js.truthy (data_id d)) eqn:E1.
  { apply truthy_is_Some in E1 as [? ->]. done. }
  destruct (Js.truthy (data_message_id d)) eqn:E2.
  { apply truthy_is_Some in E2 as [? ->]. done. }
  destruct (Js.truthy (data_message d)) eqn:E3.
  { apply truthy_is_Some in E3 as [? ->]. done. }
  done.
Qed.

Lemma returned_id_truthy response id :
  returned_id response = Some id ->
  ok response = true /\ Js.truthy (Some id) = true.
Proof.
  unfold returned_id. destruct (ok response); [|done].
  destruct (body response) as [| | |d]; try done.
  destruct (Js.truthy (data_id d)) eqn:E; [|done].
  intros <-. done.
Qed.

(** Step 4: one pass for an incident. *)
Lemma process_new_attempt incident s :
  exists evs,
    attempt world New (ID incident) s (process_new env world incident s).2 evs.
Proof.
  unfold process_new. simpl.
  match goal with
  | |- context [fetch world ?n ?r] => set (n0 := n); set (req := r)
  end.
  destruct (fetch world n0 req) as [response|] eqn:Hf.
  - destruct (ok response) eqn:Hok; simpl.
    + destruct (new_messageId _ (body response)) as [id|] eqn:Hid.
      * eexists. rewrite <- Hf.
        apply attempt_stored; simpl.
        3: reflexivity.
        -- exists response. repeat split; try done.
           intros _ Hb. rewrite Hb in Hid. done.
        -- repeat split; try done.
           eapply new_messageId_truthy; [|exact Hid]. done.
        -- by rewrite Hf, <- app_assoc.
      * eexists. rewrite <- Hf.
        apply attempt_failed; simpl; [|done|done|done|by rewrite ?Hf].
        intros (r & Hr & _ & Hb). rewrite Hf in Hr. simplify_eq.
        apply new_messageId_None in Hid. by apply Hb.
    + eexists. rewrite <- Hf.
      apply attempt_failed; simpl; [|done|done|done|by rewrite ?Hf].
      intros (r & Hr & Hk & _). rewrite Hf in Hr. simplify_eq. congruence.
  - eexists. rewrite <- Hf.
    apply attempt_failed; simpl; [|done|done|done|by rewrite ?Hf].
    intros (r & Hr & _). rewrite Hf in Hr. done.
Qed.

Lemma js_get_Own {A} (m : gmap string A) k a :
  Js.js_get m k = Js.Own a <-> m !! k = Some a.
Proof.
  unfold Js.js_get. destruct (m !! k); [|case_bool_decide];
    split; congruence.
Qed.

Lemma js_get_Undefined {A} (m : gmap string A) k :
  Js.js_get m k = Js.Undefined <-> m !! k = None /\ k ∉ Js.inherited_names.
Proof.
  unfold Js.js_get. destruct (m !! k); [|case_bool_decide].
  - split; [done | by intros [? _]].
  - split; [done | by intros [_ ?]].
  - done.
Qed.

Lemma alter_Some_insert (f : StoredIncident -> StoredIncident)
    (m : gmap string StoredIncident) k a :
  m !! k = Some a -> alter f k m = <[k := f a]> m.
Proof.
  intros H. apply map_eq. intros j. destruct (decide (k = j)) as [->|Hne].
  - by rewrite lookup_alter_eq, lookup_insert_eq, H.
  - by rewrite lookup_alter_ne, lookup_insert_ne.
Qed.

Ltac name_call :=
  match goal with
  | |- context [fetch world ?n ?r] =>
      let n0 := fresh "n0" in let req := fresh "req" in
      set (n0 := n); set (req := r)
  end.

Lemma adopted_id_truthy id response id' :
  adopted_id id response = Some id' ->
  ok response = true /\ Js.truthy (Some id') = true.
Proof.
  unfold adopted_id. destruct (isRealMessageId id).
  - destruct (negb (ok response)); [|done]. apply returned_id_truthy.
  - apply returned_id_truthy.
Qed.

Lemma adopt_spec key adopted tracked s :
  trackedIncidents s !! key = Some tracked ->
  Js.truthy (messageId tracked) = true ->
  (forall id, adopted = Some id -> Js.truthy (Some id) = true) ->
  let r := adopt key adopted tracked s in
  reidentified tracked r.1
  /\ kv r.2 = kv s
  /\ trackedIncidents r.2 = <[key := r.1]> (trackedIncidents s)
  /\ trace r.2 = trace s /\ tick r.2 = tick s.
Proof.
  intros Hk Hm Had. destruct adopted as [id|]; simpl.
  - repeat split; [|by apply alter_Some_insert]. right. eauto.
  - repeat split; [by left|]. by rewrite insert_id.
Qed.

(** Step 5: one pass for an incident. *)
Lemma process_open_attempt incident s :
  exists evs,
    attempt world UpdatedOpen (ID incident) s
      (process_open env world incident s).2 evs.
Proof.
  unfold process_open.
  destruct (Js.js_get (trackedIncidents s) (ID incident)) as [tracked| |] eqn:Hg.
  2,3: exists []; apply attempt_skipped; [done| |apply same_refl];
       intros tr Htr; apply js_get_Own in Htr; congruence.
  apply js_get_Own in Hg.
  destruct (Js.truthy (messageId tracked)) eqn:Hm; simpl.
  2: { exists []. apply attempt_skipped; [done| |apply same_refl].
       intros tr Htr. congruence. }
  name_call.
  destruct (fetch world n0 req) as [response|] eqn:Hf.
  2: { eexists. rewrite <- Hf.
       apply attempt_failed; simpl; [|by eexists|done|done|by rewrite ?Hf].
       intros (r & Hr & _). rewrite Hf in Hr. done. }
  destruct (ok response) eqn:Hok.
  - (* accepted *)
    match goal with |- context [adopt ?k ?a ?t ?s0] =>
      pose proof (adopt_spec k a t s0 Hg Hm) as Had;
      destruct (adopt k a t s0) as [tracked' s1]
    end.
    destruct Had as (Hre & Hkv & Htr & Htc & _).
    { intros id' Hid'. by apply adopted_id_truthy in Hid' as [_ ?]. }
    simpl in *. rewrite <- Hf in Htc. eexists.
    apply attempt_stored; simpl.
    4: by rewrite Htc, <- app_assoc.
    3: by rewrite Hkv.
    + exists response. by rewrite Hf.
    + exists tracked, tracked', (now world (tick s1)). by repeat split.
  - (* refused *)
    replace (adopted_id (Js.template (messageId tracked)) response)
      with (@None string).
    2: { destruct (adopted_id _ response) eqn:E; [|done].
         apply adopted_id_truthy in E as [? _]. congruence. }
    simpl. eexists. rewrite <- Hf.
    apply attempt_failed; simpl; [|by eexists|done|done|by rewrite ?Hf].
    intros (r & Hr & Hk & _). rewrite Hf in Hr. simplify_eq. congruence.
Qed.

(** Steps 6 and 7: one pass for an identifier. *)
Lemma process_closed_attempt incident s :
  exists evs,
    attempt world NewlyClosed (ID incident) s
      (process_closed env world incident s).2 evs.
Proof.
  unfold process_closed.
  destruct (Js.js_get (trackedIncidents s) (ID incident)) as [tracked| |] eqn:Hg.
  2,3: exists []; apply attempt_skipped; [done| |apply same_refl];
       intros tr Htr; apply js_get_Own in Htr; congruence.
  apply js_get_Own in Hg.
  destruct (Js.truthy (messageId tracked)) eqn:Hm; simpl.
  2: { exists []. apply attempt_skipped; [done| |apply same_refl].
       intros tr Htr. congruence. }
  name_call.
  destruct (fetch world n0 req) as [response|] eqn:Hf.
  2: { eexists. rewrite <- Hf.
       apply attempt_failed; simpl; [|by eexists|done|done|by rewrite ?Hf].
       intros (r & Hr & _). rewrite Hf in Hr. done. }
  destruct (ok response) eqn:Hok; simpl; eexists; rewrite <- Hf.
  - apply attempt_stored; simpl.
    4: by rewrite <- app_assoc.
    3: reflexivity.
    + exists response. by rewrite Hf.
    + exists tracked, (now world (S n0)). by repeat split.
  - apply attempt_failed; simpl; [|by eexists|done|done|by rewrite ?Hf].
    intros (r & Hr & Hk & _). rewrite Hf in Hr. simplify_eq. congruence.
Qed.

Lemma process_expired_attempt id s :
  exists evs,
    attempt world Expired id s (process_expired env world incidents id s).2 evs.
Proof.
  unfold process_expired.
  destruct (Js.js_get (trackedIncidents s) id) as [tracked| |] eqn:Hg.
  2,3: exists []; apply attempt_skipped; [done| |apply same_refl];
       intros tr Htr; apply js_get_Own in Htr; congruence.
  apply js_get_Own in Hg.
  destruct (Js.truthy (messageId tracked)) eqn:Hm; simpl.
  2: { exists []. apply attempt_skipped; [done| |apply same_refl].
       intros tr Htr. congruence. }
  name_call.
  destruct (fetch world n0 req) as [response|] eqn:Hf.
  2: { eexists. rewrite <- Hf.
       apply attempt_failed; simpl; [|by eexists|done|done|by rewrite ?Hf].
       intros (r & Hr & _). rewrite Hf in Hr. done. }
  destruct (ok response) eqn:Hok; simpl; eexists; rewrite <- Hf.
  - apply attempt_stored; simpl.
    4: by rewrite <- app_assoc.
    3: reflexivity.
    + exists response. by rewrite Hf.
    + exists tracked, (now world (S n0)). by repeat split.
  - apply attempt_failed; simpl; [|by eexists|done|done|by rewrite ?Hf].
    intros (r & Hr & Hk & _). rewrite Hf in Hr. simplify_eq. congruence.
Qed.

(** A pass of [attempt] does not look at [tick]. *)
Lemma attempt_same_l t id s0 s s' evs :
  same s s0 -> attempt world t id s s' evs -> attempt world t id s0 s' evs.
Proof.
  intros (Hk & Ht & Hc) Ha.
  destruct Ha as [Hn Hs Hsame | n req Hna Hu Hk' Ht' Hc'
                 | n req data Hacc Hst Hk' Hc'].
  - apply attempt_skipped; [done | by rewrite Ht |].
    destruct Hsame as (?&?&?). repeat split; congruence.
  - apply attempt_failed; try congruence.
    destruct t; simpl in *; [done|..]; by rewrite Ht.
  - apply attempt_stored; try congruence.
    destruct t; simpl in *; by rewrite Ht.
Qed.

Lemma sweep_same_l t ids s0 s s' evs :
  same s s0 -> sweep world t ids s s' evs -> sweep world t ids s0 s' evs.
Proof.
  intros Hs Hw. destruct Hw as [s s' Hsame | id ids s s1 s2 evs1 evs2 Ha Hw].
  - apply sweep_nil. eapply same_trans; [apply same_sym|]; done.
  - eapply sweep_cons; [|done]. by eapply attempt_same_l.
Qed.

(** A loop whose passes are attempts is a sweep. *)
Lemma for_each_sweep {A} t (idf : A -> string) (body : A -> State -> bool * State) :
  (forall x s, exists evs, attempt world t (idf x) s (body x s).2 evs) ->
  forall xs s, exists evs,
    sweep world t (map idf xs) s (for_each body xs s).2 evs.
Proof.
  intros Hbody xs. induction xs as [|x xs IH]; intros s; simpl.
  - exists []. apply sweep_nil, same_refl.
  - destruct (Hbody x s) as [evs1 Ha].
    destruct (body x s) as [counted s1]. simpl in Ha.
    destruct (IH s1) as [evs2 Hw].
    destruct (for_each body xs s1) as [count s2]. simpl in *.
    exists (evs1 ++ evs2)%list. by eapply sweep_cons.
Qed.

Lemma for_each_prune ids s :
  let r := for_each process_prune ids s in
  trackedIncidents r.2 = trackedIncidents s
  /\ kv r.2 = foldl (fun m id => delete (incident_key id) m) (kv s) ids
  /\ trace r.2 = (trace s ++ map (fun id => Deleted (incident_key id)) ids)%list
  /\ r.1 = length ids.
Proof.
  revert s. induction ids as [|id ids IH]; intros s; simpl.
  - by rewrite app_nil_r.
  - specialize (IH (KV_delete (incident_key id) s)).
    destruct (for_each _ ids _) as [count s']. simpl in *.
    destruct IH as (-> & -> & -> & ->). by rewrite <- app_assoc.
Qed.

(** A pass that leaves early is followed by the passes for the rest of the
    list. *)
Lemma for_each_goes_on {A} (body : A -> State -> bool * State) x xs s :
  (for_each body (x :: xs) s).2 = (for_each body xs (body x s).2).2.
Proof.
  simpl. destruct (body x s) as [counted s1]. simpl.
  by destruct (for_each body xs s1).
Qed.

Lemma for_each_count {A} (body : A -> State -> bool * State) xs s :
  ((for_each body xs s).1 <= length xs)%nat.
Proof.
  revert s. induction xs as [|x xs IH]; intros s; simpl; [done|].
  destruct (body x s) as [counted s1]. specialize (IH s1).
  destruct (for_each body xs s1) as [count s2]. simpl in *.
  destruct counted; lia.
Qed.

(** The run as five phases: four sweeps and the pruning. *)
Lemma run_phases store :
  exists s4 s5 s6 s7 e4 e5 e6 e7 now7 now8,
    sweep world New (map ID (newOnes (load_tracked store) incidents))
      (start store) s4 e4
    /\ sweep world UpdatedOpen
         (map ID (openIncidents (trackedIncidents s4) incidents)) s4 s5 e5
    /\ sweep world NewlyClosed
         (map ID (newlyClosed (trackedIncidents s5) incidents)) s5 s6 e6
    /\ sweep world Expired (expiredIds (trackedIncidents s6) now7) s6 s7 e7
    /\ trackedIncidents (run env world incidents store).2 = trackedIncidents s7
    /\ kv (run env world incidents store).2
       = foldl (fun m id => delete (incident_key id) m) (kv s7)
           (pruneIds (trackedIncidents s7) now8)
    /\ trace (run env world incidents store).2
       = (trace s7
          ++ map (fun id => Deleted (incident_key id))
               (pruneIds (trackedIncidents s7) now8))%list
    /\ newIncidents (run env world incidents store).1
       = length (newOnes (load_tracked store) incidents)
    /\ (updatedOpenIncidents (run env world incidents store).1
        <= length (openIncidents (trackedIncidents s4) incidents))%nat
    /\ (closedIncidents (run env world incidents store).1
        <= length (newlyClosed (trackedIncidents s5) incidents))%nat.
Proof.
  unfold run, step4, step5, step6, step7, step8.
  set (s0 := start store).
  destruct (for_each_sweep New ID (process_new env world)
              (process_new_attempt) (newOnes (trackedIncidents s0) incidents) s0)
    as [e4 H4].
  destruct (for_each (process_new env world) _ s0) as [n4 s4]. simpl in H4.
  pose proof (for_each_count (process_open env world)
                (openIncidents (trackedIncidents s4) incidents) s4) as C5.
  destruct (for_each_sweep UpdatedOpen ID (process_open env world)
              (process_open_attempt)
              (openIncidents (trackedIncidents s4) incidents) s4)
    as [e5 H5].
  destruct (for_each (process_open env world) _ s4) as [n5 s5]. simpl in H5.
  pose proof (for_each_count (process_closed env world)
                (newlyClosed (trackedIncidents s5) incidents) s5) as C6.
  destruct (for_each_sweep NewlyClosed ID (process_closed env world)
              (process_closed_attempt)
              (newlyClosed (trackedIncidents s5) incidents) s5)
    as [e6 H6].
  destruct (for_each (process_closed env world) _ s5) as [n6 s6]. simpl in H6.
  simpl.
  set (s6' := {| kv := kv s6; trackedIncidents := trackedIncidents s6;
                 trace := trace s6; tick := S (tick s6) |}).
  destruct (for_each_sweep Expired (fun id => id)
              (process_expired env world incidents)
              (process_expired_attempt)
              (expiredIds (trackedIncidents s6) (now world (tick s6))) s6')
    as [e7 H7].
  rewrite map_id in H7.
  destruct (for_each (process_expired env world incidents) _ s6') as [n7 s7].
  simpl in H7. simpl.
  set (s7' := {| kv := kv s7; trackedIncidents := trackedIncidents s7;
                 trace := trace s7; tick := S (tick s7) |}).
  pose proof (for_each_prune
                (pruneIds (trackedIncidents s7) (now world (tick s7))) s7')
    as H8.
  simpl in H8.
  destruct (for_each process_prune _ s7') as [n8 s8].
  simpl in H8. destruct H8 as (Ht8 & Hk8 & Hc8 & _). simpl.
  exists s4, s5, s6, s7, e4, e5, e6, e7,
    (now world (tick s6)), (now world (tick s7)).
  repeat split; try done.
  eapply sweep_same_l; [|exact H7]. by repeat split.
Qed.

End Steps.

End StepFacts.

(** ** Sweeps: what a loop of the engine does to the store, to
       [trackedIncidents] and to the trace *)

Module SweepFacts.

Import Engine StepFacts.

Lemma reidentified_refl r : reidentified r r.
Proof. by left. Qed.

Lemma reidentified_trans r1 r2 r3 :
  reidentified r1 r2 -> reidentified r2 r3 -> reidentified r1 r3.
Proof.
  intros [->|(Hm1 & id1 & Hid1 & ->)] [->|(Hm2 & id2 & Hid2 & ->)].
  - by left.
  - right. eauto.
  - right. eauto.
  - right. split; [done|]. exists id2. by split.
Qed.

Lemma reidentified_fields r r' :
  reidentified r r' ->
  pulsepointId r' = pulsepointId r /\ closed r' = closed r
  /\ lastUpdated r' = lastUpdated r
  /\ Js.truthy (messageId r') = Js.truthy (messageId r).
Proof.
  intros [->|(Hm & id & Hid & ->)]; [done|].
  cbn [with_messageId pulsepointId closed lastUpdated messageId].
  repeat split. congruence.
Qed.

Lemma evolved_refl m : evolved m m.
Proof. intros id. destruct (m !! id); [apply reidentified_refl | done]. Qed.

Lemma evolved_trans m1 m2 m3 : evolved m1 m2 -> evolved m2 m3 -> evolved m1 m3.
Proof.
  intros H1 H2 id. specialize (H1 id). specialize (H2 id).
  destruct (m1 !! id), (m2 !! id), (m3 !! id); try done.
  by eapply reidentified_trans.
Qed.

Lemma evolved_Some m m' id r :
  evolved m m' -> m !! id = Some r ->
  exists r', m' !! id = Some r' /\ reidentified r r'.
Proof.
  intros H Hr. specialize (H id). rewrite Hr in H.
  destruct (m' !! id); [eauto | done].
Qed.

Lemma evolved_Some_inv m m' id r' :
  evolved m m' -> m' !! id = Some r' ->
  exists r, m !! id = Some r /\ reidentified r r'.
Proof.
  intros H Hr. specialize (H id). rewrite Hr in H.
  destruct (m !! id); [eauto | done].
Qed.

Lemma evolved_insert m id r r' :
  m !! id = Some r -> reidentified r r' -> evolved m (<[id := r']> m).
Proof.
  intros Hr Hre j. destruct (decide (id = j)) as [<-|Hne].
  - by rewrite Hr, lookup_insert_eq.
  - rewrite lookup_insert_ne by done.
    destruct (m !! j); [apply reidentified_refl|done].
Qed.

Section Sweeps.

Variable world : World.

(** One pass. *)
Lemma attempt_trace t id s s' evs :
  attempt world t id s s' evs -> trace s' = (trace s ++ evs)%list.
Proof.
  intros [Hn Hs (_ & _ & Hc) | n req Hna Hu Hk Ht Hc | n req data Hacc Hst Hk Hc];
    [by rewrite app_nil_r | done | done].
Qed.

Lemma attempt_kv t id s s' evs :
  attempt world t id s s' evs -> kv s' = replay evs (kv s).
Proof.
  intros [Hn Hs (Hk & _ & _) | n req Hna Hu Hk Ht Hc | n req data Hacc Hst Hk Hc];
    done.
Qed.

Lemma attempt_evolved t id s s' evs :
  attempt world t id s s' evs ->
  evolved (trackedIncidents s) (trackedIncidents s').
Proof.
  intros [Hn Hs (_ & Ht & _) | n req Hna Hu Hk Ht Hc | n req data Hacc Hst Hk Hc].
  - rewrite Ht. apply evolved_refl.
  - rewrite Ht. apply evolved_refl.
  - destruct t; simpl in Hst.
    + destruct Hst as (-> & _). apply evolved_refl.
    + destruct Hst as (tr & tr' & at_ & Htr & Hm & Hre & -> & _).
      by eapply evolved_insert.
    + destruct Hst as (tr & at_ & _ & _ & -> & _). apply evolved_refl.
    + destruct Hst as (tr & at_ & _ & _ & -> & _). apply evolved_refl.
Qed.

Lemma attempt_tracked_fixed t id s s' evs :
  t <> UpdatedOpen ->
  attempt world t id s s' evs -> trackedIncidents s' = trackedIncidents s.
Proof.
  intros Ht [Hn Hs (_ & Htr & _) | n req Hna Hu Hk Htr Hc
            | n req data Hacc Hst Hk Hc];
    try done.
  destruct t; simpl in Hst; try done.
  - by destruct Hst as (-> & _).
  - by destruct Hst as (tr & at_ & _ & _ & -> & _).
  - by destruct Hst as (tr & at_ & _ & _ & -> & _).
Qed.

(** A pass for another identifier leaves this one alone. *)
Lemma attempt_frame t id' s s' evs id :
  attempt world t id' s s' evs -> id' <> id ->
  kv s' !! incident_key id = kv s !! incident_key id
  /\ trackedIncidents s' !! id = trackedIncidents s !! id
  /\ Forall (fun e => ~ about id e) evs.
Proof.
  intros [Hn Hs (Hk & Ht & _) | n req Hna Hu Hk Ht Hc
         | n req data Hacc Hst Hk Hc] Hne.
  - rewrite Hk, Ht. by repeat split.
  - rewrite Hk, Ht. repeat split. by repeat constructor.
  - assert (incident_key id' <> incident_key id) as Hkey
      by (intros ?%incident_key_inj; done).
    rewrite Hk, lookup_insert_ne by done. repeat split.
    + destruct t; simpl in Hst.
      * by destruct Hst as (-> & _).
      * destruct Hst as (tr & tr' & at_ & _ & _ & _ & -> & _).
        by rewrite lookup_insert_ne.
      * by destruct Hst as (tr & at_ & _ & _ & -> & _).
      * by destruct Hst as (tr & at_ & _ & _ & -> & _).
    + by repeat constructor.
Qed.

(** A pass all of whose calls for the identifier failed leaves its record
    and its entry of [trackedIncidents] alone. *)
Lemma attempt_quiet t id' s s' evs id :
  attempt world t id' s s' evs ->
  Forall (quiet id) evs ->
  kv s' !! incident_key id = kv s !! incident_key id
  /\ trackedIncidents s' !! id = trackedIncidents s !! id
  /\ Forall (fun e => ~ writes id e) evs.
Proof.
  intros Ha Hq. destruct (decide (id' = id)) as [->|Hne].
  2: { destruct (attempt_frame _ _ _ _ _ id Ha Hne) as (? & ? & HF).
       repeat split; try done. eapply Forall_impl; [exact HF|].
       intros [] Hab Hw; simpl in *; by apply Hab. }
  destruct Ha as [Hn Hs (Hk & Ht & _) | n req Hna Hu Hk Ht Hc
                 | n req data Hacc Hst Hk Hc].
  - rewrite Hk, Ht. by repeat split.
  - rewrite Hk, Ht. repeat split. repeat constructor. by intros [].
  - apply Forall_cons in Hq as [Hq _]. simpl in Hq.
    destruct Hacc as (r & Hr & Hok & _).
    specialize (Hq eq_refl r Hr). congruence.
Qed.

(** Whole loops. *)
Lemma replay_app evs1 evs2 store :
  replay (evs1 ++ evs2) store = replay evs2 (replay evs1 store).
Proof. unfold replay. by rewrite foldl_app. Qed.

Lemma sweep_trace t ids s s' evs :
  sweep world t ids s s' evs -> trace s' = (trace s ++ evs)%list.
Proof.
  induction 1 as [s s' (_ & _ & Hc) | id ids s s1 s2 evs1 evs2 Ha Hw IH].
  - by rewrite app_nil_r.
  - apply attempt_trace in Ha. by rewrite IH, Ha, app_assoc.
Qed.

Lemma sweep_kv t ids s s' evs :
  sweep world t ids s s' evs -> kv s' = replay evs (kv s).
Proof.
  induction 1 as [s s' (Hk & _ & _) | id ids s s1 s2 evs1 evs2 Ha Hw IH].
  - done.
  - apply attempt_kv in Ha. by rewrite IH, Ha, replay_app.
Qed.

Lemma sweep_evolved t ids s s' evs :
  sweep world t ids s s' evs ->
  evolved (trackedIncidents s) (trackedIncidents s').
Proof.
  induction 1 as [s s' (_ & Ht & _) | id ids s s1 s2 evs1 evs2 Ha Hw IH].
  - rewrite Ht. apply evolved_refl.
  - eapply evolved_trans; [by eapply attempt_evolved | done].
Qed.

Lemma sweep_tracked_fixed t ids s s' evs :
  t <> UpdatedOpen ->
  sweep world t ids s s' evs -> trackedIncidents s' = trackedIncidents s.
Proof.
  intros Ht. induction 1 as [s s' (_ & Htr & _) | id ids s s1 s2 evs1 evs2 Ha Hw IH].
  - done.
  - rewrite IH. by eapply attempt_tracked_fixed.
Qed.

Lemma sweep_quiet t ids s s' evs id :
  sweep world t ids s s' evs ->
  Forall (quiet id) evs ->
  kv s' !! incident_key id = kv s !! incident_key id
  /\ trackedIncidents s' !! id = trackedIncidents s !! id
  /\ Forall (fun e => ~ writes id e) evs.
Proof.
  induction 1 as [s s' (Hk & Ht & _) | id' ids s s1 s2 evs1 evs2 Ha Hw IH];
    intros Hq.
  - rewrite Hk, Ht. by repeat split.
  - apply Forall_app in Hq as [Hq1 Hq2].
    destruct (attempt_quiet _ _ _ _ _ id Ha Hq1) as (Hk1 & Ht1 & HF1).
    destruct (IH Hq2) as (Hk2 & Ht2 & HF2).
    rewrite Hk2, Ht2, Hk1, Ht1. repeat split. by apply Forall_app.
Qed.

(** The events of a sweep, described from the records it starts with. *)
Lemma event_in_weaken t ids ids' m m' e :
  ids ⊆ ids' -> evolved m' m ->
  event_in t ids m e -> event_in t ids' m' e.
Proof.
  intros Hsub Hev. destruct e as [t' id req resp | key data | key]; simpl; [| |done].
  - intros (-> & Hin & Hu). repeat split; [by apply Hsub|].
    intros Hn. destruct (Hu Hn) as (tr & Htr & Hm).
    destruct (evolved_Some_inv _ _ _ _ Hev Htr) as (tr0 & Htr0 & Hre).
    exists tr0. split; [done|].
    apply reidentified_fields in Hre as (_ & _ & _ & <-). done.
  - intros (id & -> & Hin & Hd). exists id. repeat split; [by apply Hsub|].
    destruct t; [done| | |].
    all: destruct Hd as (tr & tr' & at_ & Htr & Hm & Hre & ->);
      destruct (evolved_Some_inv _ _ _ _ Hev Htr) as (tr0 & Htr0 & Hre0);
      exists tr0, tr', at_; repeat split; try done;
      [ apply reidentified_fields in Hre0 as (_ & _ & _ & <-); done
      | by eapply reidentified_trans ].
Qed.

Lemma attempt_events t id s s' evs :
  attempt world t id s s' evs ->
  Forall (event_in t [id] (trackedIncidents s)) evs.
Proof.
  intros [Hn Hs Hsame | n req Hna Hu Hk Ht Hc | n req data Hacc Hst Hk Hc].
  - constructor.
  - repeat constructor. intros Hn. by destruct t.
  - assert (t <> New ->
            exists tracked, trackedIncidents s !! id = Some tracked
                            /\ Js.truthy (messageId tracked) = true) as Hu.
    { intros Hn. destruct t; try done; simpl in Hst.
      - destruct Hst as (tr & tr' & at_ & ? & ? & _). eauto.
      - destruct Hst as (tr & at_ & ? & ? & _). eauto.
      - destruct Hst as (tr & at_ & ? & ? & _). eauto. }
    repeat constructor; simpl; [done|].
    exists id. repeat split; [by constructor|].
    destruct t; simpl in Hst.
    + by destruct Hst as (_ & ? & ? & ?).
    + destruct Hst as (tr & tr' & at_ & ? & ? & ? & _ & ->). eauto 10.
    + destruct Hst as (tr & at_ & ? & ? & _ & ->).
      exists tr, tr, at_. repeat split; try done. apply reidentified_refl.
    + destruct Hst as (tr & at_ & ? & ? & _ & ->).
      exists tr, tr, at_. repeat split; try done. apply reidentified_refl.
Qed.

Lemma sweep_events t ids s s' evs :
  sweep world t ids s s' evs ->
  Forall (event_in t ids (trackedIncidents s)) evs.
Proof.
  induction 1 as [s s' Hsame | id ids s s1 s2 evs1 evs2 Ha Hw IH].
  - constructor.
  - apply Forall_app. split.
    + eapply Forall_impl; [by eapply attempt_events|].
      intros e. apply event_in_weaken; [|apply evolved_refl].
      intros x ->%list_elem_of_singleton. by left.
    + eapply Forall_impl; [exact IH|].
      intros e. apply event_in_weaken; [by right|].
      by eapply attempt_evolved.
Qed.

(** When every call is accepted: a pass that has a record to work on
    stores one. *)
Lemma attempt_keeps t id' s s' evs id data :
  attempt world t id' s s' evs ->
  kv s !! incident_key id = Some data ->
  exists data',
    kv s' !! incident_key id = Some data'
    /\ (closing t -> closed data = true -> closed data' = true).
Proof.
  intros [Hn Hs (Hk & _ & _) | n req Hna Hu Hk Ht Hc | n req d Hacc Hst Hk Hc] Hd.
  - rewrite Hk. eauto.
  - rewrite Hk. eauto.
  - rewrite Hk. destruct (decide (id' = id)) as [->|Hne].
    + rewrite lookup_insert_eq. eexists. split; [done|].
      intros [->| ->] _; simpl in Hst;
        by destruct Hst as (tr & at_ & _ & _ & _ & ->).
    + rewrite lookup_insert_ne; [eauto|]. by intros ?%incident_key_inj.
Qed.

Lemma sweep_keeps t ids s s' evs id data :
  sweep world t ids s s' evs ->
  kv s !! incident_key id = Some data ->
  exists data',
    kv s' !! incident_key id = Some data'
    /\ (closing t -> closed data = true -> closed data' = true).
Proof.
  intros Hw. revert data.
  induction Hw as [s s' (Hk & _ & _) | id' ids s s1 s2 evs1 evs2 Ha Hw IH];
    intros data Hd.
  - rewrite Hk. eauto.
  - destruct (attempt_keeps _ _ _ _ _ id data Ha Hd) as (d1 & Hd1 & Hc1).
    destruct (IH d1 Hd1) as (d2 & Hd2 & Hc2).
    exists d2. split; [done|]. auto.
Qed.

(** In a closing sweep, a record stored for an identifier is closed at
    the end of the sweep. *)
Lemma sweep_closing_put t ids s s' evs id d :
  closing t ->
  sweep world t ids s s' evs ->
  In (Put (incident_key id) d) evs ->
  exists data, kv s' !! incident_key id = Some data /\ closed data = true.
Proof.
  intros Hcl.
  induction 1 as [s s' _ | id' ids s s1 s2 evs1 evs2 Ha Hw IH]; [done|].
  intros [Hin|Hin]%in_app_or; [|by apply IH].
  assert (exists d1, kv s1 !! incident_key id = Some d1 /\ closed d1 = true)
    as (d1 & Hd1 & Hc1).
  { destruct Ha as [Hn Hs _ | n req Hna _ _ _ _ | n req d' _ Hst Hk _].
    - done.
    - by destruct Hin as [|[]].
    - destruct Hin as [|[Heq|[]]]; [done|].
      assert (incident_key id' = incident_key id) as ->%incident_key_inj
        by congruence.
      assert (d' = d) as -> by congruence.
      exists d. rewrite Hk, lookup_insert_eq. split; [done|].
      destruct Hcl as [-> | ->]; simpl in Hst;
        by destruct Hst as (tr & at_ & _ & _ & _ & ->). }
  destruct (sweep_keeps _ _ _ _ _ id d1 Hw Hd1) as (d2 & Hd2 & Hc2).
  exists d2. split; [done|]. by apply Hc2.
Qed.

Lemma sweep_stores t ids s s' evs id :
  (forall n request, accepted New (fetch world n request)) ->
  sweep world t ids s s' evs ->
  id ∈ ids -> usable t id s ->
  exists data,
    kv s' !! incident_key id = Some data /\ (closing t -> closed data = true).
Proof.
  intros Hacc.
  induction 1 as [s s' _ | id' ids s s1 s2 evs1 evs2 Ha Hw IH]; intros Hin Hu.
  - by apply elem_of_nil in Hin.
  - destruct (decide (id' = id)) as [->|Hne].
    + assert (exists data, kv s1 !! incident_key id = Some data
                           /\ (closing t -> closed data = true))
        as (d1 & Hd1 & Hc1).
      { destruct Ha as [Hn Hs _ | n req Hna _ _ _ _ | n req d _ Hst Hk _].
        - destruct t; [done|..]; destruct Hu as (tr & Htr & Hm);
            specialize (Hs tr Htr); congruence.
        - destruct Hna. destruct (Hacc n req) as (r & ? & ? & ?).
          exists r. repeat split; try done. auto.
        - exists d. rewrite Hk, lookup_insert_eq. split; [done|].
          intros [->| ->]; simpl in Hst;
            by destruct Hst as (tr & at_ & _ & _ & _ & ->). }
      destruct (sweep_keeps _ _ _ _ _ id d1 Hw Hd1) as (d2 & Hd2 & Hc2).
      exists d2. split; [done|]. auto.
    + apply elem_of_cons in Hin as [->|Hin]; [done|].
      apply IH; [done|].
      destruct (attempt_frame _ _ _ _ _ id Ha Hne) as (_ & Ht & _).
      destruct t; simpl in *; [done|..]; by rewrite Ht.
Qed.

End Sweeps.

End SweepFacts.

(** ** The five selections and the loading of [trackedIncidents] *)

Module SelectionFacts.

Import Engine StepFacts SweepFacts.

Lemma isNew_spec m id :
  isNew m id = true <-> m !! id = None /\ id ∉ Js.inherited_names.
Proof.
  unfold isNew. rewrite <- js_get_Undefined.
  destruct (Js.js_get m id); split; congruence.
Qed.

Lemma isTrackedAndOpen_Some m id data :
  m !! id = Some data -> isTrackedAndOpen m id = negb (closed data).
Proof. intros H. unfold isTrackedAndOpen. apply js_get_Own in H. by rewrite H. Qed.

Lemma isTrackedAndOpen_None m id :
  m !! id = None ->
  isTrackedAndOpen m id = bool_decide (id ∈ Js.inherited_names).
Proof.
  intros H. unfold isTrackedAndOpen, Js.js_get. rewrite H.
  by case_bool_decide.
Qed.

Lemma newOnes_In m incidents incident :
  In incident (newOnes m incidents) <->
  In incident incidents /\ isNew m (ID incident) = true
  /\ is_closed incident = false /\ isMatch incident = true.
Proof.
  unfold newOnes. rewrite filter_In, !andb_true_iff, negb_true_iff. tauto.
Qed.

Lemma openIncidents_In m incidents incident :
  In incident (openIncidents m incidents) <->
  In incident incidents /\ isTrackedAndOpen m (ID incident) = true
  /\ is_closed incident = false.
Proof.
  unfold openIncidents. rewrite filter_In, !andb_true_iff, negb_true_iff. tauto.
Qed.

Lemma newlyClosed_In m incidents incident :
  In incident (newlyClosed m incidents) <->
  In incident incidents /\ isTrackedAndOpen m (ID incident) = true
  /\ is_closed incident = true.
Proof.
  unfold newlyClosed. rewrite filter_In, !andb_true_iff. tauto.
Qed.

Lemma elem_of_map_ID (id : string) (l : list Incident) :
  id ∈ map ID l <-> exists incident, In incident l /\ ID incident = id.
Proof.
  rewrite list_elem_of_In, in_map_iff. split; intros (x & ? & ?); eauto.
Qed.

Lemma expiredIds_spec m now_ id :
  id ∈ expiredIds m now_ <->
  exists data, m !! id = Some data /\ closed data = false
               /\ elapsed_more_than 24 hour now_ (lastUpdated data) = true.
Proof.
  unfold expiredIds. rewrite list_elem_of_In, in_map_iff. split.
  - intros ([id' data] & <- & Hin). apply filter_In in Hin as [Hin Hf].
    apply list_elem_of_In, elem_of_map_to_list in Hin.
    apply andb_true_iff in Hf as [Hc He]. apply negb_true_iff in Hc. eauto.
  - intros (data & Hd & Hc & He). exists (id, data). split; [done|].
    apply filter_In. split.
    + by apply list_elem_of_In, elem_of_map_to_list.
    + simpl. by rewrite Hc, He.
Qed.

Lemma pruneIds_spec m now_ id :
  id ∈ pruneIds m now_ <->
  exists data, m !! id = Some data /\ closed data = true
               /\ elapsed_more_than cutoffDays day now_ (lastUpdated data) = true.
Proof.
  unfold pruneIds. rewrite list_elem_of_In, in_map_iff. split.
  - intros ([id' data] & <- & Hin). apply filter_In in Hin as [Hin Hf].
    apply list_elem_of_In, elem_of_map_to_list in Hin.
    apply andb_true_iff in Hf as [Hc He]. eauto.
  - intros (data & Hd & Hc & He). exists (id, data). split; [done|].
    apply filter_In. split.
    + by apply list_elem_of_In, elem_of_map_to_list.
    + simpl. by rewrite Hc, He.
Qed.

(** The selections do not see the reidentifications of step 5. *)
Lemma evolved_js_get_closed m m' id :
  evolved m m' ->
  isNew m' id = isNew m id /\ isTrackedAndOpen m' id = isTrackedAndOpen m id.
Proof.
  intros H. specialize (H id). unfold isNew, isTrackedAndOpen, Js.js_get.
  destruct (m !! id) as [r|], (m' !! id) as [r'|]; try done.
  apply reidentified_fields in H as (_ & -> & _). done.
Qed.

Lemma evolved_newlyClosed m m' incidents :
  evolved m m' -> newlyClosed m' incidents = newlyClosed m incidents.
Proof.
  intros H. unfold newlyClosed. apply filter_ext. intros incident.
  by destruct (evolved_js_get_closed m m' (ID incident) H) as [_ ->].
Qed.

Lemma evolved_expiredIds m m' now_ id :
  evolved m m' -> id ∈ expiredIds m' now_ <-> id ∈ expiredIds m now_.
Proof.
  intros H. rewrite !expiredIds_spec. split.
  - intros (r' & Hr' & Hc & He).
    destruct (evolved_Some_inv _ _ _ _ H Hr') as (r & Hr & Hre).
    apply reidentified_fields in Hre as (_ & Hc' & Hl & _).
    exists r. rewrite <- Hc', <- Hl. done.
  - intros (r & Hr & Hc & He).
    destruct (evolved_Some _ _ _ _ H Hr) as (r' & Hr' & Hre).
    apply reidentified_fields in Hre as (_ & Hc' & Hl & _).
    exists r'. rewrite Hc', Hl. done.
Qed.

Lemma evolved_pruneIds m m' now_ id :
  evolved m m' -> id ∈ pruneIds m' now_ <-> id ∈ pruneIds m now_.
Proof.
  intros H. rewrite !pruneIds_spec. split.
  - intros (r' & Hr' & Hc & He).
    destruct (evolved_Some_inv _ _ _ _ H Hr') as (r & Hr & Hre).
    apply reidentified_fields in Hre as (_ & Hc' & Hl & _).
    exists r. rewrite <- Hc', <- Hl. done.
  - intros (r & Hr & Hc & He).
    destruct (evolved_Some _ _ _ _ H Hr) as (r' & Hr' & Hre).
    apply reidentified_fields in Hre as (_ & Hc' & Hl & _).
    exists r'. rewrite Hc', Hl. done.
Qed.

Lemma filter_nil_intro {A} (f : A -> bool) (l : list A) :
  (forall x, In x l -> f x = false) -> List.filter f l = [].
Proof.
  induction l as [|x l IH]; intros H; simpl; [done|].
  rewrite (H x) by (by left). apply IH. intros y Hy. apply H. by right.
Qed.

Lemma NoDup_map_In_inj {A B} (f : A -> B) (l : list A) a b :
  NoDup (map f l) -> In a l -> In b l -> f a = f b -> a = b.
Proof.
  induction l as [|x l IH]; simpl; [done|].
  intros [Hx Hl]%NoDup_cons [->|Ha] [->|Hb] Hf; try done.
  - destruct Hx. rewrite Hf. by apply list_elem_of_In, in_map.
  - destruct Hx. rewrite <- Hf. by apply list_elem_of_In, in_map.
  - by apply IH.
Qed.

(** Step 3 on a store of the engine: the record of an identifier is the one
    under its key. *)
Lemma prefix_incident_key id : String.prefix "incident:" (incident_key id) = true.
Proof. by destruct id. Qed.

Lemma KV_list_spec store key data :
  (key, data) ∈ KV_list "incident:" store <->
  store !! key = Some data /\ String.prefix "incident:" key = true.
Proof.
  unfold KV_list. rewrite merge_sort_Permutation.
  rewrite list_elem_of_In, filter_In, <- list_elem_of_In, elem_of_map_to_list.
  done.
Qed.

Lemma KV_list_NoDup store : NoDup (KV_list "incident:" store).*1.
Proof.
  unfold KV_list. rewrite merge_sort_Permutation.
  assert (forall l : list (string * StoredIncident),
             NoDup l.*1 ->
             NoDup (List.filter
                      (fun entry => String.prefix "incident:" entry.1) l).*1) as H.
  { induction l as [|[k d] l IH]; [done|]. rewrite fmap_cons.
    intros [Hk Hl]%NoDup_cons. simpl.
    destruct (String.prefix _ k); simpl; [|by apply IH].
    apply NoDup_cons. split; [|by apply IH].
    intros Hin. apply Hk. apply list_elem_of_fmap in Hin as ([k' d'] & -> & Hin).
    apply list_elem_of_fmap. exists (k', d'). split; [done|].
    apply list_elem_of_In. apply list_elem_of_In, filter_In in Hin. tauto. }
  apply H, NoDup_fst_map_to_list.
Qed.

Lemma foldl_tracked_other (l : list (string * StoredIncident))
    (acc : gmap string StoredIncident) id :
  (forall entry, entry ∈ l -> pulsepointId entry.2 <> id) ->
  foldl (fun incidents entry => <[pulsepointId entry.2 := entry.2]> incidents) acc l
    !! id = acc !! id.
Proof.
  revert acc. induction l as [|e l IH]; intros acc H; simpl; [done|].
  rewrite IH.
  - apply lookup_insert_ne, H. by left.
  - intros entry Hin. apply H. by right.
Qed.

Lemma load_keyed store id :
  store_keyed store -> load_tracked store !! id = store !! incident_key id.
Proof.
  intros Hwf. unfold load_tracked.
  pose proof (KV_list_spec store) as Hspec.
  pose proof (KV_list_NoDup store) as Hnd.
  assert (forall key data, (key, data) ∈ KV_list "incident:" store ->
                           key = incident_key (pulsepointId data)) as Hkey.
  { intros key data [Hs _]%Hspec. by destruct (Hwf key data Hs). }
  assert (forall (l : list (string * StoredIncident))
            (acc : gmap string StoredIncident),
    NoDup l.*1 ->
    (forall key data, (key, data) ∈ l -> key = incident_key (pulsepointId data)) ->
    foldl (fun incidents entry => <[pulsepointId entry.2 := entry.2]> incidents) acc l
      !! id
    = match list_find (fun entry => entry.1 = incident_key id) l with
      | Some (_, entry) => Some entry.2
      | None => acc !! id
      end) as Hfold.
  { induction l as [|[k d] l IH]; intros acc Hnd' Hkeys; [done|].
    rewrite fmap_cons in Hnd'. apply NoDup_cons in Hnd' as [Hk Hl]. simpl.
    case_decide as Hd; simpl in *.
    - subst k. rewrite foldl_tracked_other.
      + assert (pulsepointId d = id) as <-.
        { apply incident_key_inj. symmetry. apply Hkeys. by left. }
        by rewrite lookup_insert_eq.
      + intros [k' d'] Hin Hid. simpl in *. apply Hk.
        apply list_elem_of_fmap. exists (k', d'). split; [|done]. simpl.
        rewrite (Hkeys k' d') by (by right). by rewrite Hid.
    - rewrite IH; [|done|intros ???; apply Hkeys; by right].
      destruct (list_find _ l) as [[i e]|]; simpl; [done|].
      apply lookup_insert_ne. intros Hid. apply Hd.
      rewrite <- Hid. apply Hkeys. by left. }
  rewrite Hfold by done. rewrite lookup_empty.
  destruct (list_find _ _) as [[i [k d]]|] eqn:Hfind; simpl.
  - apply list_find_Some in Hfind as (Hi & Hk & _). simpl in Hk. subst k.
    apply list_elem_of_lookup_2, Hspec in Hi as [Hs _]. done.
  - destruct (store !! incident_key id) as [d|] eqn:Hs; [|done].
    apply list_find_None in Hfind.
    assert ((incident_key id, d) ∈ KV_list "incident:" store) as Hin.
    { apply Hspec. split; [done | apply prefix_incident_key]. }
    rewrite Forall_forall in Hfind. by destruct (Hfind _ Hin).
Qed.

End SelectionFacts.

(** ** A whole run *)

Module RunFacts.

Import Engine StepFacts SweepFacts SelectionFacts.

Lemma load_tracked_pulsepointId store id data :
  load_tracked store !! id = Some data -> pulsepointId data = id.
Proof.
  unfold load_tracked.
  assert (forall (l : list (string * StoredIncident))
            (acc : gmap string StoredIncident),
    (forall i d, acc !! i = Some d -> pulsepointId d = i) ->
    forall i d,
      foldl (fun incidents entry => <[pulsepointId entry.2 := entry.2]> incidents)
        acc l !! i = Some d -> pulsepointId d = i) as H.
  { induction l as [|e l IH]; intros acc Hacc i d; simpl; [apply Hacc|].
    apply IH. intros j d'. destruct (decide (pulsepointId e.2 = j)) as [<-|Hne].
    - rewrite lookup_insert_eq. by intros [= <-].
    - rewrite lookup_insert_ne by done. apply Hacc. }
  apply H. intros i d. by rewrite lookup_empty.
Qed.

Lemma replay_deletes (ids : list string) store :
  foldl (fun m id => delete (incident_key id) m) store ids
  = replay (map (fun id => Deleted (incident_key id)) ids) store.
Proof.
  revert store. induction ids as [|id ids IH]; intros store; simpl; [done|].
  by rewrite IH.
Qed.

Lemma replay_cons e evs store :
  replay (e :: evs) store = replay evs (apply_event store e).
Proof. done. Qed.

Lemma replay_untouched evs store id :
  Forall (fun e => ~ writes id e) evs ->
  replay evs store !! incident_key id = store !! incident_key id.
Proof.
  revert store. induction evs as [|e evs IH]; intros store; [done|].
  intros [He Hevs]%Forall_cons. rewrite replay_cons.
  rewrite IH by done.
  destruct e as [| key data | key]; simpl in *; [done| |].
  - apply lookup_insert_ne. congruence.
  - apply lookup_delete_ne. congruence.
Qed.

Lemma replay_not_put evs store id data :
  Forall (fun e => forall d, e <> Put (incident_key id) d) evs ->
  store !! incident_key id = Some data \/ store !! incident_key id = None ->
  replay evs store !! incident_key id = Some data
  \/ replay evs store !! incident_key id = None.
Proof.
  revert store. induction evs as [|e evs IH]; intros store; [done|].
  intros [He Hevs]%Forall_cons Hs. rewrite replay_cons.
  apply IH; [done|].
  destruct e as [| key d | key]; simpl; [done| |].
  - rewrite lookup_insert_ne; [done|]. intros ->. by eapply He.
  - destruct (decide (key = incident_key id)) as [->|Hne].
    + right. apply lookup_delete_eq.
    + by rewrite lookup_delete_ne.
Qed.

Section Run.

Variable env : Env.
Variable world : World.
Variable incidents : list Incident.
Variable store : gmap string StoredIncident.

(** The phases of the run, each described from what step 3 loaded. *)
Lemma run_phases_loaded :
  exists s4 s5 s6 s7 e4 e5 e6 e7 expired pruned,
    sweep world New (map ID (newOnes (load_tracked store) incidents))
      (start store) s4 e4
    /\ sweep world UpdatedOpen
         (map ID (openIncidents (load_tracked store) incidents)) s4 s5 e5
    /\ sweep world NewlyClosed
         (map ID (newlyClosed (load_tracked store) incidents)) s5 s6 e6
    /\ sweep world Expired expired s6 s7 e7
    /\ (exists now7,
          forall id, id ∈ expired <-> id ∈ expiredIds (load_tracked store) now7)
    /\ (exists now8,
          forall id, id ∈ pruned <-> id ∈ pruneIds (load_tracked store) now8)
    /\ trackedIncidents s4 = load_tracked store
    /\ evolved (load_tracked store) (trackedIncidents s5)
    /\ trackedIncidents s6 = trackedIncidents s5
    /\ trackedIncidents s7 = trackedIncidents s5
    /\ kv (run env world incidents store).2
       = replay (map (fun id => Deleted (incident_key id)) pruned) (kv s7)
    /\ trace (run env world incidents store).2
       = (e4 ++ e5 ++ e6 ++ e7
          ++ map (fun id => Deleted (incident_key id)) pruned)%list.
Proof.
  destruct (run_phases env world incidents store)
    as (s4 & s5 & s6 & s7 & e4 & e5 & e6 & e7 & now7 & now8
        & H4 & H5 & H6 & H7 & Ht & Hk & Hc & _).
  pose proof (sweep_tracked_fixed _ New _ _ _ _ ltac:(done) H4) as Ht4.
  pose proof (sweep_evolved _ _ _ _ _ _ H5) as Hev5.
  pose proof (sweep_tracked_fixed _ NewlyClosed _ _ _ _ ltac:(done) H6) as Ht6.
  pose proof (sweep_tracked_fixed _ Expired _ _ _ _ ltac:(done) H7) as Ht7.
  simpl in Ht4. rewrite Ht4 in H5, Hev5.
  rewrite (evolved_newlyClosed _ _ _ Hev5) in H6.
  rewrite Ht6 in Ht7, H7.
  exists s4, s5, s6, s7, e4, e5, e6, e7,
    (expiredIds (trackedIncidents s5) now7),
    (pruneIds (trackedIncidents s7) now8).
  repeat split; try done.
  - exists now7. intros id. by apply evolved_expiredIds.
  - exists now8. intros id. rewrite Ht7. by apply evolved_pruneIds.
  - by rewrite Hk, replay_deletes.
  - rewrite Hc.
    rewrite (sweep_trace _ _ _ _ _ _ H7), (sweep_trace _ _ _ _ _ _ H6),
      (sweep_trace _ _ _ _ _ _ H5), (sweep_trace _ _ _ _ _ _ H4).
    simpl. by rewrite <- !app_assoc.
Qed.

(** The counts of the summary against what step 3 loaded. *)
Lemma run_counts :
  let summary := (run env world incidents store).1 in
  newIncidents summary = length (newOnes (load_tracked store) incidents)
  /\ (updatedOpenIncidents summary
      <= length (openIncidents (load_tracked store) incidents))%nat
  /\ (closedIncidents summary
      <= length (newlyClosed (load_tracked store) incidents))%nat.
Proof.
  destruct (run_phases env world incidents store)
    as (s4 & s5 & s6 & s7 & e4 & e5 & e6 & e7 & now7 & now8
        & H4 & H5 & H6 & H7 & Ht & Hk & Hc & C4 & C5 & C6).
  pose proof (sweep_tracked_fixed _ New _ _ _ _ ltac:(done) H4) as Ht4.
  pose proof (sweep_evolved _ _ _ _ _ _ H5) as Hev5.
  simpl in Ht4. rewrite Ht4 in C5, Hev5.
  rewrite (evolved_newlyClosed _ _ _ Hev5) in C6. done.
Qed.

(** The store after the run is the store before it, with the events of
    the run applied in order. *)
Lemma run_replay :
  kv (run env world incidents store).2
  = replay (trace (run env world incidents store).2) store.
Proof.
  destruct run_phases_loaded
    as (s4 & s5 & s6 & s7 & e4 & e5 & e6 & e7 & expired & pruned
        & H4 & H5 & H6 & H7 & _ & _ & _ & _ & _ & _ & Hk & Hc).
  rewrite Hk, Hc, !replay_app.
  rewrite (sweep_kv _ _ _ _ _ _ H7), (sweep_kv _ _ _ _ _ _ H6),
    (sweep_kv _ _ _ _ _ _ H5), (sweep_kv _ _ _ _ _ _ H4).
  done.
Qed.

(** Identifiers a step selects, and the record they were loaded with. *)
Lemma selected_open id tracked :
  id ∈ map ID (openIncidents (load_tracked store) incidents)
  \/ id ∈ map ID (newlyClosed (load_tracked store) incidents)
  \/ (exists now_, id ∈ expiredIds (load_tracked store) now_) ->
  load_tracked store !! id = Some tracked -> closed tracked = false.
Proof.
  intros [Hin|[Hin|[now_ Hin]]] Hm.
  - apply elem_of_map_ID in Hin as (inc & Hin & <-).
    apply openIncidents_In in Hin as (_ & Ho & _).
    rewrite (isTrackedAndOpen_Some _ _ _ Hm) in Ho. by apply negb_true_iff.
  - apply elem_of_map_ID in Hin as (inc & Hin & <-).
    apply newlyClosed_In in Hin as (_ & Ho & _).
    rewrite (isTrackedAndOpen_Some _ _ _ Hm) in Ho. by apply negb_true_iff.
  - apply expiredIds_spec in Hin as (data & Hd & Hc & _). congruence.
Qed.

Lemma event_in_lawful t ids e :
  event_in t ids (load_tracked store) e ->
  (forall id, id ∈ ids ->
     match t with
     | New => id ∈ map ID (newOnes (load_tracked store) incidents)
     | UpdatedOpen => id ∈ map ID (openIncidents (load_tracked store) incidents)
     | NewlyClosed => id ∈ map ID (newlyClosed (load_tracked store) incidents)
     | Expired => exists now_, id ∈ expiredIds (load_tracked store) now_
     end) ->
  lawful (load_tracked store) incidents e.
Proof.
  intros He Hsel.
  destruct e as [t' id req resp | key data | key]; simpl in He; [| |done].
  - destruct He as (-> & Hin & Hu). specialize (Hsel id Hin).
    destruct t; simpl; [done|..].
    all: destruct Hu as (tr & Htr & Hm); [done|].
    all: split; [|done]; exists tr; repeat split; try done.
    all: eapply selected_open; [|exact Htr]; eauto.
  - destruct He as (id & -> & Hin & Hd). specialize (Hsel id Hin).
    exists id. split; [done|].
    destruct t.
    + destruct Hd as (? & ? & ?). split; [done|]. by left.
    + destruct Hd as (tr & tr' & at_ & Htr & Hm & Hre & ->).
      apply reidentified_fields in Hre as (Hp & _ & _ & Hm').
      cbn [with_lastUpdated messageId pulsepointId].
      split; [congruence|]. right. exists tr. repeat split; try done.
      eapply selected_open; [|exact Htr]; eauto.
    + destruct Hd as (tr & tr' & at_ & Htr & Hm & Hre & ->).
      apply reidentified_fields in Hre as (Hp & _ & _ & Hm').
      cbn [with_closed messageId pulsepointId].
      split; [congruence|]. right. exists tr. repeat split; try done.
      eapply selected_open; [|exact Htr]; eauto.
    + destruct Hd as (tr & tr' & at_ & Htr & Hm & Hre & ->).
      apply reidentified_fields in Hre as (Hp & _ & _ & Hm').
      cbn [with_closed messageId pulsepointId].
      split; [congruence|]. right. exists tr. repeat split; try done.
      eapply selected_open; [|exact Htr]; eauto.
Qed.

(** Every event of a run is lawful. *)
Lemma run_lawful :
  Forall (lawful (load_tracked store) incidents)
    (trace (run env world incidents store).2).
Proof.
  destruct run_phases_loaded
    as (s4 & s5 & s6 & s7 & e4 & e5 & e6 & e7 & expired & pruned
        & H4 & H5 & H6 & H7 & (now7 & Hexp) & (now8 & Hpr)
        & Ht4 & Hev5 & Ht6 & Ht7 & Hk & ->).
  pose proof (sweep_events _ _ _ _ _ _ H4) as E4.
  pose proof (sweep_events _ _ _ _ _ _ H5) as E5.
  pose proof (sweep_events _ _ _ _ _ _ H6) as E6.
  pose proof (sweep_events _ _ _ _ _ _ H7) as E7.
  simpl in E4. rewrite Ht4 in E5. rewrite Ht6 in E7.
  repeat (apply Forall_app; split).
  - eapply Forall_impl; [exact E4|]. intros e He.
    by eapply event_in_lawful.
  - eapply Forall_impl; [exact E5|]. intros e He.
    by eapply event_in_lawful.
  - eapply Forall_impl; [exact E6|]. intros e He.
    apply (event_in_lawful NewlyClosed
             (map ID (newlyClosed (load_tracked store) incidents)));
      [|done].
    eapply event_in_weaken; [done|exact Hev5|exact He].
  - eapply Forall_impl; [exact E7|]. intros e He.
    apply (event_in_lawful Expired expired).
    + eapply event_in_weaken; [done|exact Hev5|exact He].
    + intros id Hin. exists now7. by apply Hexp.
  - apply Forall_forall. intros e Hin.
    apply list_elem_of_fmap in Hin as (id & -> & Hin).
    apply Hpr, pruneIds_spec in Hin as (data & Hd & Hc & _).
    exists id, data. done.
Qed.

(** The run keeps the store in the shape it expects. *)
Lemma lawful_keyed e :
  store_keyed store -> lawful (load_tracked store) incidents e ->
  forall key data, e = Put key data ->
    key = incident_key (pulsepointId data)
    /\ (pulsepointId data ∉ Js.inherited_names)
    /\ Js.truthy (messageId data) = true.
Proof.
  intros Hwf He key data ->. simpl in He.
  destruct He as (id & -> & Hm & [(Hin & Hp & _)|(tr & Htr & _ & _ & Hp)]).
  - apply elem_of_map_ID in Hin as (inc & Hin & <-).
    apply newOnes_In in Hin as (_ & Hn & _). apply isNew_spec in Hn as [_ Hn].
    by rewrite Hp.
  - pose proof (load_tracked_pulsepointId _ _ _ Htr) as Hid.
    rewrite load_keyed in Htr by done.
    destruct (Hwf _ _ Htr) as [_ Hni]. rewrite Hp. by rewrite Hid in *.
Qed.

Lemma replay_map_Forall (P : string -> StoredIncident -> Prop) evs st :
  map_Forall P st ->
  Forall (fun e => forall key data, e = Put key data -> P key data) evs ->
  map_Forall P (replay evs st).
Proof.
  revert st. induction evs as [|e evs IH]; intros st Hst; [done|].
  intros [He Hevs]%Forall_cons. rewrite replay_cons. apply IH; [|done].
  destruct e as [| key data | key]; simpl; [done| |].
  - apply map_Forall_insert_2; [by apply He | done].
  - by apply map_Forall_delete.
Qed.

Lemma run_keyed :
  store_keyed store -> store_keyed (kv (run env world incidents store).2).
Proof.
  intros Hwf. rewrite run_replay. apply replay_map_Forall; [done|].
  eapply Forall_impl; [apply run_lawful|].
  intros e He key data Hput.
  destruct (lawful_keyed e Hwf He key data Hput) as (? & ? & _). done.
Qed.

Lemma run_notified :
  store_keyed store -> store_notified store ->
  store_notified (kv (run env world incidents store).2).
Proof.
  intros Hwf Hn. rewrite run_replay. apply replay_map_Forall; [done|].
  eapply Forall_impl; [apply run_lawful|].
  intros e He key data Hput.
  destruct (lawful_keyed e Hwf He key data Hput) as (_ & _ & ?). done.
Qed.

(** A record loaded as closed: the run has no notification and no write
    for it, only, maybe, its deletion. *)
Lemma closed_record_run id data :
  store_keyed store ->
  store !! incident_key id = Some data -> closed data = true ->
  Forall (fun e => about id e -> e = Deleted (incident_key id))
    (trace (run env world incidents store).2)
  /\ (kv (run env world incidents store).2 !! incident_key id = Some data
      \/ kv (run env world incidents store).2 !! incident_key id = None).
Proof.
  intros Hwf Hs Hc.
  assert (load_tracked store !! id = Some data) as Hm by (by rewrite load_keyed).
  assert (Forall (fun e => about id e -> e = Deleted (incident_key id))
            (trace (run env world incidents store).2)) as HF.
  { eapply Forall_impl; [apply run_lawful|].
    intros [t id' req resp | key d | key] He Hab; simpl in *.
    - subst id'. destruct t.
      + apply elem_of_map_ID in He as (inc & Hin & <-).
        apply newOnes_In in Hin as (_ & Hn & _).
        apply isNew_spec in Hn as [Hn _]. congruence.
      + destruct He as ((tr & ? & ? & _) & _). congruence.
      + destruct He as ((tr & ? & ? & _) & _). congruence.
      + destruct He as ((tr & ? & ? & _) & _). congruence.
    - destruct He as (id' & -> & _ & [(Hin & _)|(tr & ? & ? & _)]).
      + apply incident_key_inj in Hab as ->.
        apply elem_of_map_ID in Hin as (inc & Hin & <-).
        apply newOnes_In in Hin as (_ & Hn & _).
        apply isNew_spec in Hn as [Hn _]. congruence.
      + apply incident_key_inj in Hab as ->. congruence.
    - by subst key. }
  split; [done|].
  rewrite run_replay. apply replay_not_put; [|by left].
  eapply Forall_impl; [exact HF|].
  intros e He d ->. by specialize (He eq_refl).
Qed.

(** The run in which a record is stored as closed ends with the record
    closed: what is stored after it for the same identifier is closed too,
    and the pruning leaves the record, which was loaded as open. *)
Lemma closing_put_is_kept id d :
  In (Put (incident_key id) d) (trace (run env world incidents store).2) ->
  closed d = true ->
  exists data,
    kv (run env world incidents store).2 !! incident_key id = Some data
    /\ closed data = true.
Proof.
  intros Hin Hc.
  assert (exists tracked,
             load_tracked store !! id = Some tracked /\ closed tracked = false)
    as (tr & Htr & Hopen).
  { pose proof run_lawful as Hlaw. rewrite Forall_forall in Hlaw.
    apply list_elem_of_In, Hlaw in Hin. simpl in Hin.
    destruct Hin as (id' & ->%incident_key_inj & _
                     & [(_ & _ & ?)|(tr & ? & ? & _)]); [congruence | eauto]. }
  destruct run_phases_loaded
    as (s4 & s5 & s6 & s7 & e4 & e5 & e6 & e7 & expired & pruned
        & H4 & H5 & H6 & H7 & _ & (now8 & Hpr) & _ & _ & _ & _ & Hk & Ht).
  rewrite Ht in Hin. rewrite Hk.
  assert (exists data, kv s7 !! incident_key id = Some data /\ closed data = true)
    as (d7 & Hd7 & Hc7).
  { apply in_app_or in Hin as [Hin|Hin].
    { pose proof (sweep_events _ _ _ _ _ _ H4) as E4.
      rewrite Forall_forall in E4. apply list_elem_of_In, E4 in Hin.
      destruct Hin as (? & _ & _ & _ & ? & _). congruence. }
    apply in_app_or in Hin as [Hin|Hin].
    { pose proof (sweep_events _ _ _ _ _ _ H5) as E5.
      rewrite Forall_forall in E5. apply list_elem_of_In, E5 in Hin.
      destruct Hin as (id' & ->%incident_key_inj & _
                       & tr0 & tr' & at_ & Htr0 & _ & Hre & ->).
      apply reidentified_fields in Hre as (_ & Hcl & _).
      pose proof (sweep_tracked_fixed _ New _ _ _ _ ltac:(done) H4) as Ht4.
      rewrite Ht4 in Htr0. simpl in *. congruence. }
    apply in_app_or in Hin as [Hin|Hin].
    { destruct (sweep_closing_put _ NewlyClosed _ _ _ _ id d ltac:(by left) H6 Hin)
        as (d6 & Hd6 & Hc6).
      destruct (sweep_keeps _ _ _ _ _ _ id d6 H7 Hd6) as (d7 & Hd7 & Hc7).
      exists d7. split; [done|]. apply Hc7; [by right | done]. }
    apply in_app_or in Hin as [Hin|Hin].
    { by apply (sweep_closing_put _ Expired _ _ _ _ id d ltac:(by right) H7 Hin). }
    apply in_map_iff in Hin as (? & ? & _). done. }
  exists d7. split; [|done]. rewrite replay_untouched; [done|].
  apply Forall_forall. intros e He.
  apply list_elem_of_fmap in He as (id' & -> & He). simpl.
  intros ->%incident_key_inj.
  apply Hpr, pruneIds_spec in He as (data & Hd & Hcl & _). congruence.
Qed.

End Run.

(** Once a record is closed, the runs that follow leave it as it is for as
    long as it is there: each of them has no event for its identifier but,
    maybe, the deletion of the record. *)
Lemma closed_record_runs env runs store id data :
  store_keyed store ->
  store !! incident_key id = Some data -> closed data = true ->
  survives env runs store id ->
  after env runs store !! incident_key id = Some data
  /\ store_keyed (after env runs store).
Proof.
  revert store. induction runs as [|[world incidents] runs IH];
    intros store Hwf Hs Hc Hsurv; simpl; [done|].
  destruct Hsurv as [Hsome Hsurv].
  destruct (closed_record_run env world incidents store id data Hwf Hs Hc)
    as (_ & [Hk|Hk]).
  - apply IH; try done. by apply run_keyed.
  - rewrite Hk in Hsome. by destruct Hsome.
Qed.

(** The stores the runs reach from the empty store have the shape the
    lemmas ask for. *)
Lemma reached_stores env runs :
  store_keyed (after env runs ∅) /\ store_notified (after env runs ∅).
Proof.
  assert (forall store,
             store_keyed store /\ store_notified store ->
             store_keyed (after env runs store)
             /\ store_notified (after env runs store)) as H.
  { induction runs as [|[world incidents] runs IH]; intros store [Hk Hn];
      simpl; [done|].
    apply IH. split; [by apply run_keyed | by apply run_notified]. }
  apply H. split; apply map_Forall_empty.
Qed.

End RunFacts.

(** ** The lifecycle of a tracking record *)

Module Lifecycle.

Import Engine StepFacts SweepFacts SelectionFacts RunFacts.

(** C4.  Once the stored record of an identifier is closed, every later run
    leaves it exactly as it is, closed, for as long as the record is there:
    after any number of runs that the record survived it is still the same
    record, and the next run has no notification and no write for the
    identifier, only, maybe, the deletion of the record by the pruning. *)
Theorem closed_is_monotonic env runs world incidents store id data :
  store_keyed store ->
  store !! incident_key id = Some data ->
  closed data = true ->
  survives env runs store id ->
  let before := after env runs store in
  let final := (run env world incidents before).2 in
  before !! incident_key id = Some data
  /\ Forall (fun e => forall d, e = Put (incident_key id) d -> closed d = true)
       (trace final)
  /\ Forall (fun e => about id e -> e = Deleted (incident_key id)) (trace final)
  /\ (kv final !! incident_key id = Some data
      \/ kv final !! incident_key id = None).
Proof.
  intros Hwf Hs Hc Hsurv before final.
  destruct (closed_record_runs env runs store id data Hwf Hs Hc Hsurv)
    as [Hb Hwf'].
  destruct (closed_record_run env world incidents before id data Hwf' Hb Hc)
    as [HF Hk].
  repeat split; try done.
  eapply Forall_impl; [exact HF|].
  intros e He d ->. by specialize (He eq_refl).
Qed.

(** C9.  A stored record whose [messageId] is absent is passed over by the
    run before any call and any write: the run has no notification and no
    [put] for its identifier, so the record stays as it is, not closed and
    with its [lastUpdated], unless it is closed already and is pruned. *)
Theorem absent_messageId_is_skipped env world incidents store id data :
  store_keyed store ->
  store !! incident_key id = Some data ->
  messageId data = None ->
  let final := (run env world incidents store).2 in
  Forall (fun e => about id e -> e = Deleted (incident_key id)) (trace final)
  /\ (kv final !! incident_key id = Some data
      \/ (closed data = true /\ kv final !! incident_key id = None)).
Proof.
  intros Hwf Hs Hm final.
  assert (load_tracked store !! id = Some data) as Hl by (by rewrite load_keyed).
  assert (Js.truthy (messageId data) = false) as Hf by (by rewrite Hm).
  pose proof (run_lawful env world incidents store) as Hlaw.
  assert (Forall (fun e => about id e ->
                           e = Deleted (incident_key id) /\ closed data = true)
            (trace final)) as HF.
  { eapply Forall_impl; [exact Hlaw|].
    intros [t id' req resp | key d | key] He Hab; simpl in *.
    - subst id'. destruct t.
      + apply elem_of_map_ID in He as (inc & Hin & <-).
        apply newOnes_In in Hin as (_ & Hn & _).
        apply isNew_spec in Hn as [Hn _]. congruence.
      + destruct He as ((tr & ? & _ & ?) & _). congruence.
      + destruct He as ((tr & ? & _ & ?) & _). congruence.
      + destruct He as ((tr & ? & _ & ?) & _). congruence.
    - destruct He as (id' & -> & _ & [(Hin & _)|(tr & ? & _ & ? & _)]).
      + apply incident_key_inj in Hab as ->.
        apply elem_of_map_ID in Hin as (inc & Hin & <-).
        apply newOnes_In in Hin as (_ & Hn & _).
        apply isNew_spec in Hn as [Hn _]. congruence.
      + apply incident_key_inj in Hab as ->. congruence.
    - destruct He as (id' & tr & -> & Htr & Hc).
      apply incident_key_inj in Hab as ->. split; [done|]. congruence. }
  split.
  { eapply Forall_impl; [exact HF|]. intros e He Hab. by destruct (He Hab). }
  unfold final. rewrite run_replay.
  destruct (closed data) eqn:Hc.
  - destruct (replay_not_put (trace final) store id data) as [?|?]; auto.
    eapply Forall_impl; [exact HF|].
    intros e He d ->. by destruct (He eq_refl).
  - left. rewrite replay_untouched; [done|].
    eapply Forall_impl; [exact HF|].
    intros [t id' req resp | key d | key] He Hw; simpl in *; [done|..];
      by destruct (He Hw).
Qed.

Lemma same_entry_same_selection (m m' : gmap string StoredIncident) id :
  m' !! id = m !! id ->
  isNew m' id = isNew m id /\ isTrackedAndOpen m' id = isTrackedAndOpen m id.
Proof. intros H. unfold isNew, isTrackedAndOpen, Js.js_get. by rewrite H. Qed.

(** C7, as the code has it.  When every call the run makes for an incident
    fails (a response that is not [ok], or none) and its record is not a
    closed one, the run has no [put] and no [delete] for the record and
    leaves it as it was; the run goes on (it is a total function, and its
    other events are those of [run_lawful]); and on the same feed the next
    run selects the incident for the same transitions: the same new,
    updated-open and newly-closed selections, and the expired one again once
    it was selected, as the clock does not go back. *)
Theorem failed_calls_leave_the_record env world incidents store id :
  store_keyed store ->
  (forall data, store !! incident_key id = Some data -> closed data = false) ->
  let final := (run env world incidents store).2 in
  Forall (quiet id) (trace final) ->
  Forall (fun e => ~ writes id e) (trace final)
  /\ kv final !! incident_key id = store !! incident_key id
  /\ (forall incident, ID incident = id ->
        (In incident (newOnes (load_tracked (kv final)) incidents)
         <-> In incident (newOnes (load_tracked store) incidents))
        /\ (In incident (openIncidents (load_tracked (kv final)) incidents)
            <-> In incident (openIncidents (load_tracked store) incidents))
        /\ (In incident (newlyClosed (load_tracked (kv final)) incidents)
            <-> In incident (newlyClosed (load_tracked store) incidents)))
  /\ (forall t t', t <= t' ->
        id ∈ expiredIds (load_tracked store) t ->
        id ∈ expiredIds (load_tracked (kv final)) t').
Proof.
  intros Hwf Hopen final Hq.
  assert (Forall (fun e => ~ writes id e) (trace final)
          /\ kv final !! incident_key id = store !! incident_key id)
    as [HF Hk].
  { unfold final in *.
    destruct (run_phases_loaded env world incidents store)
      as (s4 & s5 & s6 & s7 & e4 & e5 & e6 & e7 & expired & pruned
          & H4 & H5 & H6 & H7 & _ & (now8 & Hpr) & _ & _ & _ & _ & Hk & Hc).
    rewrite Hc in Hq |- *. rewrite Hk.
    apply Forall_app in Hq as [Hq4 Hq]. apply Forall_app in Hq as [Hq5 Hq].
    apply Forall_app in Hq as [Hq6 Hq]. apply Forall_app in Hq as [Hq7 _].
    destruct (sweep_quiet _ _ _ _ _ _ id H4 Hq4) as (K4 & _ & F4).
    destruct (sweep_quiet _ _ _ _ _ _ id H5 Hq5) as (K5 & _ & F5).
    destruct (sweep_quiet _ _ _ _ _ _ id H6 Hq6) as (K6 & _ & F6).
    destruct (sweep_quiet _ _ _ _ _ _ id H7 Hq7) as (K7 & _ & F7).
    assert (Forall (fun e => ~ writes id e)
              (map (fun id => Deleted (incident_key id)) pruned)) as F8.
    { apply Forall_forall. intros e Hin.
      apply list_elem_of_fmap in Hin as (id' & -> & Hin). simpl.
      intros ->%incident_key_inj.
      apply Hpr, pruneIds_spec in Hin as (data & Hd & Hcl & _).
      rewrite load_keyed in Hd by done. specialize (Hopen _ Hd). congruence. }
    split.
    - by repeat (apply Forall_app; split).
    - rewrite replay_untouched by done. by rewrite K7, K6, K5, K4. }
  assert (load_tracked (kv final) !! id = load_tracked store !! id) as Hl.
  { rewrite !load_keyed; [done | done | by apply run_keyed]. }
  split; [done|]. split; [done|]. split.
  - intros incident <-.
    rewrite !newOnes_In, !openIncidents_In, !newlyClosed_In.
    by destruct (same_entry_same_selection _ _ _ Hl) as [-> ->].
  - intros t t' Ht. rewrite !expiredIds_spec, Hl.
    intros (data & Hd & Hc & He). exists data. repeat split; try done.
    unfold elapsed_more_than in *. apply Z.ltb_lt in He. apply Z.ltb_lt. lia.
Qed.

(** C1, as the code has it.  On a store that holds every record under the
    key of its identifier and with a message identifier, and a feed whose
    identifiers are unique, where no identifier, of a record or of the feed,
    names a member that objects inherit: when
    every call of a run is accepted, and the feed lists no incident as
    active that the store holds as closed, then on the same feed the next
    run selects no new incident and no newly closed one: its summary counts
    none and its trace has no notification of either kind.  (The open
    incidents are selected again for an update on every run.) *)
Theorem second_run_has_no_new_and_no_newly_closed env world incidents store :
  store_keyed store ->
  store_notified store ->
  feed_wf incidents ->
  (forall n request, accepted New (fetch world n request)) ->
  (forall incident data,
      In incident incidents -> is_closed incident = false ->
      store !! incident_key (ID incident) = Some data -> closed data = false) ->
  let store' := kv (run env world incidents store).2 in
  newOnes (load_tracked store') incidents = []
  /\ newlyClosed (load_tracked store') incidents = []
  /\ forall env' world',
       let second := run env' world' incidents store' in
       newIncidents second.1 = O
       /\ closedIncidents second.1 = O
       /\ Forall (fun e => forall t id request response,
                     e = Notified t id request response ->
                     t <> New /\ t <> NewlyClosed)
            (trace second.2).
Proof.
  intros Hwf Hnot [Hnd Hni] Hacc Hreopen store'.
  pose proof (run_keyed env world incidents store Hwf) as Hwf'.
  fold store' in Hwf'.
  destruct (run_phases_loaded env world incidents store)
    as (s4 & s5 & s6 & s7 & e4 & e5 & e6 & e7 & expired & pruned
        & H4 & H5 & H6 & H7 & _ & (now8 & Hpr) & Ht4 & Hev5 & Ht6 & Ht7
        & Hk & Hc).
  fold store' in Hk.
  (* what survives the pruning *)
  assert (forall id,
             (forall data, store !! incident_key id = Some data ->
                           closed data = false) ->
             store' !! incident_key id = kv s7 !! incident_key id) as Hkeep.
  { intros id Hopen. rewrite Hk. apply replay_untouched.
    apply Forall_forall. intros e Hin.
    apply list_elem_of_fmap in Hin as (id' & -> & Hin). simpl.
    intros ->%incident_key_inj.
    apply Hpr, pruneIds_spec in Hin as (data & Hd & Hcl & _).
    rewrite load_keyed in Hd by done. specialize (Hopen _ Hd). congruence. }
  assert (newOnes (load_tracked store') incidents = []) as Hnew.
  { apply filter_nil_intro. intros inc Hin.
    destruct (is_closed inc) eqn:Hcl; [by rewrite andb_false_r|].
    destruct (isMatch inc) eqn:Hma; [|by rewrite andb_false_r].
    rewrite !andb_true_r.
    destruct (isNew (load_tracked store') (ID inc)) eqn:Hn; [|done].
    apply isNew_spec in Hn as [Hn _]. rewrite load_keyed in Hn by done.
    rewrite Hkeep in Hn by eauto.
    assert (exists d, kv s4 !! incident_key (ID inc) = Some d) as [d4 Hd4].
    { destruct (store !! incident_key (ID inc)) as [data|] eqn:Hs.
      - destruct (sweep_keeps _ _ _ _ _ _ (ID inc) data H4) as (d & ? & _);
          [done | eauto].
      - destruct (sweep_stores _ New _ _ _ _ (ID inc) Hacc H4) as (d & ? & _);
          [|done|eauto].
        apply elem_of_map_ID. exists inc. split; [|done].
        apply newOnes_In. repeat split; try done.
        apply isNew_spec. split; [by rewrite load_keyed|].
        rewrite Forall_forall in Hni. by apply Hni, list_elem_of_In. }
    destruct (sweep_keeps _ _ _ _ _ _ _ _ H5 Hd4) as (d5 & Hd5 & _).
    destruct (sweep_keeps _ _ _ _ _ _ _ _ H6 Hd5) as (d6 & Hd6 & _).
    destruct (sweep_keeps _ _ _ _ _ _ _ _ H7 Hd6) as (d7 & Hd7 & _).
    congruence. }
  assert (newlyClosed (load_tracked store') incidents = []) as Hclosed.
  { apply filter_nil_intro. intros inc Hin.
    destruct (is_closed inc) eqn:Hcl; [|by rewrite andb_false_r].
    rewrite andb_true_r.
    assert (ID inc ∉ Js.inherited_names) as Hinh.
    { rewrite Forall_forall in Hni. by apply Hni, list_elem_of_In. }
    destruct (store' !! incident_key (ID inc)) as [d|] eqn:Hs'.
    2: { rewrite isTrackedAndOpen_None by (by rewrite load_keyed).
         by apply bool_decide_eq_false. }
    rewrite (isTrackedAndOpen_Some _ _ d) by (by rewrite load_keyed).
    apply negb_false_iff.
    destruct (store !! incident_key (ID inc)) as [data|] eqn:Hs.
    - destruct (closed data) eqn:Hcd.
      + destruct (closed_record_run env world incidents store _ _ Hwf Hs Hcd)
          as (_ & [Hf|Hf]); fold store' in Hf; congruence.
      + assert (usable NewlyClosed (ID inc) s5) as Hu.
        { assert (load_tracked store !! ID inc = Some data) as Hl
            by (by rewrite load_keyed).
          destruct (evolved_Some _ _ _ _ Hev5 Hl) as (tr & Htr & Hre).
          exists tr. split; [done|].
          apply reidentified_fields in Hre as (_ & _ & _ & ->).
          by apply (Hnot _ _ Hs). }
        destruct (sweep_stores _ NewlyClosed _ _ _ _ (ID inc) Hacc H6)
          as (d6 & Hd6 & Hc6); [|done|].
        { apply elem_of_map_ID. exists inc. split; [|done].
          apply newlyClosed_In. repeat split; try done.
          rewrite (isTrackedAndOpen_Some _ _ data) by (by rewrite load_keyed).
          by rewrite Hcd. }
        destruct (sweep_keeps _ _ _ _ _ _ _ _ H7 Hd6) as (d7 & Hd7 & Hc7).
        rewrite Hkeep in Hs'.
        * assert (d = d7) as -> by congruence.
          apply Hc7; [by right | apply Hc6; by left].
        * intros data' Hd'. congruence.
    - (* nothing is stored for an incident the feed lists as closed *)
      assert (store' !! incident_key (ID inc) = None); [|congruence].
      unfold store'. rewrite run_replay, replay_untouched; [done|].
      eapply Forall_impl; [apply run_lawful|].
      assert (load_tracked store !! ID inc = None) as Hl
        by (by rewrite load_keyed).
      intros [t id' req resp | key dd | key] He Hw; simpl in *; [done| |].
      + destruct He as (id' & -> & _ & [(Hin' & _)|(tr & ? & _)]).
        * apply incident_key_inj in Hw as ->.
          apply elem_of_map_ID in Hin' as (inc' & Hin' & Hid).
          apply newOnes_In in Hin' as (Hin' & _ & Hcl' & _).
          assert (inc' = inc) as -> by (by eapply NoDup_map_In_inj).
          congruence.
        * apply incident_key_inj in Hw as ->. congruence.
      + destruct He as (id' & tr & -> & Htr & _).
        apply incident_key_inj in Hw as ->. congruence. }
  split; [done|]. split; [done|].
  intros env' world' second.
  destruct (run_counts env' world' incidents store') as (C4 & _ & C6).
  fold second in C4, C6. rewrite Hnew in C4. rewrite Hclosed in C6.
  split; [done|]. split; [simpl in C6; lia|].
  eapply Forall_impl; [apply run_lawful|].
  intros e He t id req resp ->. simpl in He.
  destruct t; try done.
  - rewrite Hnew in He. by apply elem_of_nil in He.
  - destruct He as [_ He]. rewrite Hclosed in He. by apply elem_of_nil in He.
Qed.

End Lifecycle.

(** ** The message a transition works on *)

Module Correlator.

Import Engine StepFacts.

Lemma update_request_shape base id embed :
  call_shape base id (update_request base id embed).
Proof. unfold call_shape, update_request. by destruct (isRealMessageId id). Qed.

Lemma failed_not_ok (response : Response) :
  failed (Some response) -> ok response = false.
Proof. intros H. by apply H. Qed.

(** C3, as the code has it.  In the passes of steps 5, 6 and 7 for a record
    that has a message identifier: a fallback identifier has a new message
    created, a real one has its message patched; a call that fails is
    followed by nothing (no other call, no [put], [trackedIncidents] as it
    was); and step 5 adopts the identifier an accepted creation returns, in
    the record it stores and in [trackedIncidents]. *)
Theorem fallback_creates_and_update_adopts env world incidents incident s tracked :
  trackedIncidents s !! ID incident = Some tracked ->
  Js.truthy (messageId tracked) = true ->
  pass_spec world UpdatedOpen (ID incident)
    (webhook env (DisplayIncidentCallType incident)) tracked s
    (process_open env world incident s)
  /\ pass_spec world NewlyClosed (ID incident)
       (webhook env (DisplayIncidentCallType incident)) tracked s
       (process_closed env world incident s)
  /\ pass_spec world Expired (ID incident)
       (webhook env (displayIncidentCallType tracked)) tracked s
       (process_expired env world incidents (ID incident) s).
Proof.
  intros Htr Hm. apply js_get_Own in Htr. split; [|split].
  - unfold pass_spec, process_open. rewrite Htr, Hm. simpl.
    match goal with |- context [fetch world _ ?r] => set (req := r) end.
    exists req.
    destruct (fetch world (S (tick s)) req) as [response|] eqn:Hf.
    2: { exists []. split; [apply update_request_shape|]. by split. }
    destruct (ok response) eqn:Hok.
    + destruct (adopted_id (Js.template (messageId tracked)) response)
        as [id'|] eqn:Had; simpl.
      * eexists. split; [apply update_request_shape|].
        split; [by rewrite <- app_assoc|]. split.
        -- intros Hfail%failed_not_ok. congruence.
        -- intros _ Hfb r d [= <-] _ Hb Hd.
           unfold adopted_id, returned_id in Had.
           rewrite Hfb, Hok, Hb, Hd in Had.
           destruct (data_id d) as [i|] eqn:Hi; [|done].
           injection Had as <-. simpl. split; [eauto|].
           apply js_get_Own in Htr. by rewrite lookup_alter_eq, Htr.
      * eexists. split; [apply update_request_shape|].
        split; [by rewrite <- app_assoc|]. split.
        -- intros Hfail%failed_not_ok. congruence.
        -- intros _ Hfb r d [= <-] _ Hb Hd.
           unfold adopted_id, returned_id in Had.
           rewrite Hfb, Hok, Hb, Hd in Had.
           by destruct (data_id d).
    + assert (adopted_id (Js.template (messageId tracked)) response = None)
        as ->.
      { destruct (adopted_id _ response) eqn:E; [|done].
        apply adopted_id_truthy in E as [? _]. congruence. }
      simpl. exists []. split; [apply update_request_shape|].
      split; [done|]. split; [done|]. intros _ _ r d [= <-]. congruence.
  - unfold pass_spec, process_closed. rewrite Htr, Hm. simpl.
    match goal with |- context [fetch world _ ?r] => set (req := r) end.
    exists req.
    destruct (fetch world (S (tick s)) req) as [response|] eqn:Hf.
    2: { exists []. split; [apply update_request_shape|]. by split. }
    destruct (ok response) eqn:Hok; simpl.
    + eexists. split; [apply update_request_shape|].
      split; [by rewrite <- app_assoc|]. split; [|done].
      intros Hfail%failed_not_ok. congruence.
    + exists []. split; [apply update_request_shape|]. by split.
  - unfold pass_spec, process_expired. rewrite Htr, Hm. simpl.
    match goal with |- context [fetch world _ ?r] => set (req := r) end.
    exists req.
    destruct (fetch world (S (tick s)) req) as [response|] eqn:Hf.
    2: { exists []. split; [apply update_request_shape|]. by split. }
    destruct (ok response) eqn:Hok; simpl.
    + eexists. split; [apply update_request_shape|].
      split; [by rewrite <- app_assoc|]. split; [|done].
      intros Hfail%failed_not_ok. congruence.
    + exists []. split; [apply update_request_shape|]. by split.
Qed.

End Correlator.

(** ** The five classes of a run *)

Module Classes.

Import Engine StepFacts SelectionFacts.

(** C2, as the code has it.  On one [trackedIncidents]: the new incidents
    share no identifier with any other class, and the pruned records share
    none with any other class, whatever the feed; the updated-open and the
    newly-closed incidents share none when the identifiers of the feed are
    unique; and an expired record whose incident is in the feed is also
    updated-open, when the feed lists the incident as active, or
    newly-closed, when it lists it as closed. *)
Theorem new_and_pruned_are_apart tracked incidents now7 now8 id :
  let new := map ID (newOnes tracked incidents) in
  let open := map ID (openIncidents tracked incidents) in
  let closed_ := map ID (newlyClosed tracked incidents) in
  let expired := expiredIds tracked now7 in
  let pruned := pruneIds tracked now8 in
  (~ (id ∈ new /\ id ∈ open) /\ ~ (id ∈ new /\ id ∈ closed_)
   /\ ~ (id ∈ new /\ id ∈ expired) /\ ~ (id ∈ new /\ id ∈ pruned)
   /\ ~ (id ∈ pruned /\ id ∈ open) /\ ~ (id ∈ pruned /\ id ∈ closed_)
   /\ ~ (id ∈ pruned /\ id ∈ expired))
  /\ (NoDup (map ID incidents) -> ~ (id ∈ open /\ id ∈ closed_))
  /\ (forall incident,
        In incident incidents -> ID incident = id -> id ∈ expired ->
        if is_closed incident then id ∈ closed_ else id ∈ open).
Proof.
  intros new open closed_ expired pruned.
  assert (id ∈ new -> isNew tracked id = true) as Hnew.
  { intros (inc & Hin & <-)%elem_of_map_ID.
    by apply newOnes_In in Hin as (_ & ? & _). }
  assert (id ∈ open -> isTrackedAndOpen tracked id = true) as Hopen.
  { intros (inc & Hin & <-)%elem_of_map_ID.
    by apply openIncidents_In in Hin as (_ & ? & _). }
  assert (id ∈ closed_ -> isTrackedAndOpen tracked id = true) as Hclosed.
  { intros (inc & Hin & <-)%elem_of_map_ID.
    by apply newlyClosed_In in Hin as (_ & ? & _). }
  assert (isNew tracked id = true -> isTrackedAndOpen tracked id = true -> False)
    as Hno.
  { unfold isNew, isTrackedAndOpen. by destruct (Js.js_get tracked id). }
  assert (id ∈ pruned -> isTrackedAndOpen tracked id = true -> False) as Hpo.
  { intros (data & Hd & Hc & _)%pruneIds_spec.
    rewrite (isTrackedAndOpen_Some _ _ _ Hd), Hc. done. }
  split; [|split].
  - repeat split.
    + intros [? ?]. auto.
    + intros [? ?]. auto.
    + intros [Hn (data & Hd & _)%expiredIds_spec].
      apply Hnew, isNew_spec in Hn as [Hn _]. congruence.
    + intros [Hn (data & Hd & _)%pruneIds_spec].
      apply Hnew, isNew_spec in Hn as [Hn _]. congruence.
    + intros [? ?]. auto.
    + intros [? ?]. auto.
    + intros [(data & Hd & Hc & _)%pruneIds_spec
              (data' & Hd' & Hc' & _)%expiredIds_spec].
      congruence.
  - intros Hnd
      [(inc & Hin & Hid)%elem_of_map_ID (inc' & Hin' & Hid')%elem_of_map_ID].
    apply openIncidents_In in Hin as (Hin & _ & Hc).
    apply newlyClosed_In in Hin' as (Hin' & _ & Hc').
    assert (inc = inc') as -> by (eapply NoDup_map_In_inj; [done..|congruence]).
    congruence.
  - intros incident Hin Hid (data & Hd & Hc & _)%expiredIds_spec.
    assert (isTrackedAndOpen tracked (ID incident) = true) as Hto.
    { rewrite Hid, (isTrackedAndOpen_Some _ _ _ Hd), Hc. done. }
    destruct (is_closed incident) eqn:Hcl; apply elem_of_map_ID;
      exists incident; (split; [|done]).
    + by apply newlyClosed_In.
    + by apply openIncidents_In.
Qed.

End Classes.

(** ** The decryptor *)

Module DecryptorFacts.

Import Decryptor.

Lemma MD5_digest_length data : length (MD5.digest data) = 16%nat.
Proof.
  unfold MD5.digest.
  destruct (foldl MD5.compress _ _) as [[[a b] c] d]. reflexivity.
Qed.

(** C6, as the code has it.  The passphrase the decryptor assembles is the
    constant [tombrady5rings], of 14 characters. *)
Theorem password_has_14_characters :
  password = "tombrady5rings" /\ String.length password = 14%nat.
Proof. split; reflexivity. Qed.

(** C6, as the claim has it, fails: the passphrase has not 16 characters. *)
Lemma password_has_not_16_characters : String.length password <> 16%nat.
Proof. vm_compute. discriminate. Qed.

Section KeyDerivation.

Variable digest : list byte -> list byte.
Hypothesis digest_128 : forall data, length (digest data) = 16%nat.

Lemma spec_buffer_length n salt :
  length (spec_buffer digest n salt) = (16 * n)%nat.
Proof.
  induction n as [|n IH]; [done|].
  cbn [spec_buffer]. rewrite length_app, IH. cbn [spec_block].
  rewrite digest_128. lia.
Qed.

(** C5.  With a digest of 128 bits the loop ends after two rounds, whatever
    the salt: the key is the buffer of the first two hash blocks, each the
    digest of the block before it (none for the first), the passphrase
    bytes and the salt; two blocks are the first to reach 32 bytes, and the
    key has exactly 32 bytes. *)
Theorem key_is_the_first_32_bytes_of_the_blocks salt fuel :
  (2 <= fuel)%nat ->
  exists n key,
    derive_key digest fuel salt = Some key
    /\ key = take 32 (spec_buffer digest n salt)
    /\ (32 <= length (spec_buffer digest n salt))%nat
    /\ (forall m, (m < n)%nat -> (length (spec_buffer digest m salt) < 32)%nat)
    /\ spec_block digest 1 salt = digest (encode password ++ salt)
    /\ length key = 32%nat.
Proof.
  intros Hfuel. exists 2%nat, (spec_buffer digest 2 salt).
  destruct fuel as [|[|fuel]]; [lia..|].
  assert (length (spec_buffer digest 2 salt) = 32%nat) as Hlen
    by (by rewrite spec_buffer_length).
  repeat split.
  - unfold derive_key. cbn [derive_loop].
    rewrite decide_True by (simpl; lia).
    cbn [concatenateArrays concat]. rewrite !app_nil_r, !app_nil_l.
    rewrite decide_True by (rewrite digest_128; lia).
    destruct fuel as [|fuel]; cbn [derive_loop].
    all: rewrite decide_False by (rewrite length_app, !digest_128; lia).
    all: rewrite decide_False by (rewrite length_app, !digest_128; lia).
    all: reflexivity.
  - rewrite take_ge; [done | lia].
  - lia.
  - intros m Hm. rewrite spec_buffer_length. lia.
  - done.
Qed.

End KeyDerivation.

(** The last double quote of a text. *)
Lemma lastIndexOf_from_spec c s i found :
  let r := Js.lastIndexOf_from c s i found in
  (r = found /\ forall j, String.get j s <> Some c)
  \/ (i <= r < i + Js.str_length s
      /\ String.get (Z.to_nat (r - i)) s = Some c
      /\ forall j, (Z.to_nat (r - i) < j)%nat -> String.get j s <> Some c).
Proof.
  revert i found. induction s as [|d s IH]; intros i found; simpl.
  - left. done.
  - destruct (IH (i + 1) (if Ascii.eqb d c then i else found))
      as [[Hr Hno]|(Hr & Hget & Hno)].
    + rewrite Hr. destruct (Ascii.eqb_spec d c) as [->|Hne].
      * right. unfold Js.str_length. simpl String.length.
        replace (Z.to_nat (i - i)) with O by lia. repeat split; [lia|lia|].
        intros [|j] Hj; [lia|]. apply Hno.
      * left. split; [done|]. intros [|j]; simpl; [congruence | apply Hno].
    + right. unfold Js.str_length in *. simpl String.length.
      set (r := Js.lastIndexOf_from c s (i + 1) _) in *.
      replace (Z.to_nat (r - i)) with (S (Z.to_nat (r - (i + 1)))) by lia.
      repeat split; [lia|lia|done|].
      intros [|j] Hj; [lia|]. apply Hno. lia.
Qed.

Lemma substring_all_from_1 s :
  String.substring 1 (String.length s - 1) s
  = match s with EmptyString => EmptyString | String _ r => r end.
Proof.
  destruct s as [|c r]; [done|]. simpl. rewrite Nat.sub_0_r.
  induction r as [|d r IH]; [done|]. simpl. by rewrite IH.
Qed.

Lemma substring_ordered s a b :
  (0 <= a <= b)%Z -> (b <= Js.str_length s)%Z ->
  Js.substring s a b = String.substring (Z.to_nat a) (Z.to_nat (b - a)) s.
Proof. intros Ha Hb. unfold Js.substring. f_equal; lia. Qed.

Lemma substring_swapped s a b :
  (0 <= b <= a)%Z -> (a <= Js.str_length s)%Z ->
  Js.substring s a b = String.substring (Z.to_nat b) (Z.to_nat (a - b)) s.
Proof. intros Ha Hb. unfold Js.substring. f_equal; lia. Qed.

(** What the strip of the wrapper computes, case by case.  A text without
    a double quote loses its first character and nothing else.  A text whose
    last double quote is not its first character keeps what is between the
    first character and that quote.  On the texts that are left, those whose
    only double quote is their first character, [substring] takes the bounds
    1 and 0 in the other order and the result is that one character. *)
Lemma strip_wrapper_cases out :
  ((forall j, String.get j out <> Some quote)
   /\ strip_wrapper out
      = match out with EmptyString => EmptyString | String _ r => r end)
  \/ (exists q,
        (1 <= q)%nat /\ String.get q out = Some quote
        /\ (forall j, (q < j)%nat -> String.get j out <> Some quote)
        /\ strip_wrapper out = String.substring 1 (q - 1) out)
  \/ (String.get 0 out = Some quote
      /\ (forall j, (0 < j)%nat -> String.get j out <> Some quote)
      /\ strip_wrapper out = String quote EmptyString).
Proof.
  unfold strip_wrapper, Js.lastIndexOf.
  destruct (lastIndexOf_from_spec quote out 0 (-1))
    as [[Hr Hno]|(Hr & Hget & Hno)]; cbv zeta in *.
  - left. split; [done|]. rewrite Hr.
    change (0 <=? -1)%Z with false. cbv iota.
    destruct out as [|c r]; [done|].
    rewrite substring_ordered.
    + etransitivity; [|apply (substring_all_from_1 (String c r))].
      unfold Js.str_length. f_equal. simpl String.length. lia.
    + unfold Js.str_length. simpl String.length. lia.
    + lia.
  - set (r := Js.lastIndexOf_from quote out 0 (-1)) in *.
    rewrite Z.sub_0_r in Hget, Hno.
    replace (0 <=? r)%Z with true by (symmetry; apply Z.leb_le; lia).
    destruct (decide (r = 0%Z)) as [Hz|Hnz].
    + right. right. rewrite Hz in *. simpl in Hget.
      split; [done|]. split; [exact Hno|].
      rewrite substring_swapped by lia.
      destruct out as [|c rest]; [done|]. simpl in Hget. injection Hget as ->.
      by destruct rest.
    + right. left. exists (Z.to_nat r). repeat split; [lia|done|done|].
      rewrite substring_ordered by lia. f_equal. lia.
Qed.

(** C10.  The code does not do what its comment, "Strip off extra bytes and
    wrapper quotes", and its start index 1 say: on a text whose only double
    quote is its first character, [substring(1, 0)] swaps its bounds, and the
    result is no part of the text that starts after the first character (it
    is the first character itself). *)
Theorem first_character_is_not_always_removed :
  ~ (forall out, exists n, strip_wrapper out = String.substring 1 n out).
Proof.
  intros H. destruct (H (String quote "abc")) as [n Hn].
  vm_compute in Hn. destruct n as [|[|[|[|n]]]]; discriminate.
Qed.

End DecryptorFacts.

(** ** The normalizer *)

Module NormalizerFacts.

Import Normalizer.

(** The two tables hold no empty display value. *)
Lemma tables_truthy :
  map_Forall (fun _ v => Js.truthy (Some v) = true) statusMap
  /\ map_Forall (fun _ v => Js.truthy (Some v) = true) typeMap.
Proof. split; apply (bool_decide_unpack _); by vm_compute. Qed.

(** A missing code is shown as unknown, a listed code as the table has it,
    and a code that is neither listed nor the name of an inherited member
    as unknown. *)
Lemma lookup_missing table : lookup_or_unknown table None = Shown "Unknown".
Proof. done. Qed.

Lemma lookup_listed table code v :
  map_Forall (fun _ v => Js.truthy (Some v) = true) table ->
  code <> EmptyString ->
  table !! code = Some v -> lookup_or_unknown table (Some code) = Shown v.
Proof.
  intros Ht Hc Hv. pose proof (Ht _ _ Hv) as Hvt. unfold lookup_or_unknown.
  destruct code as [|c code]; [done|]. cbn [Js.truthy negb Js.template].
  unfold Js.js_get. rewrite Hv. by destruct v.
Qed.

Lemma lookup_unlisted table code :
  table !! code = None -> code ∉ Js.inherited_names ->
  lookup_or_unknown table (Some code) = Shown "Unknown".
Proof.
  intros Hv Hn. unfold lookup_or_unknown.
  destruct code as [|c code]; [done|]. cbn [Js.truthy negb Js.template].
  unfold Js.js_get. rewrite Hv. by rewrite bool_decide_eq_false_2.
Qed.

Lemma lookup_inherited table code :
  table !! code = None -> code ∈ Js.inherited_names ->
  lookup_or_unknown table (Some code) = Member code.
Proof.
  intros Hv Hn. unfold lookup_or_unknown.
  destruct code as [|c code].
  { exfalso. revert Hn. apply (bool_decide_eq_false _). by vm_compute. }
  cbn [Js.truthy negb Js.template].
  unfold Js.js_get. rewrite Hv. by rewrite bool_decide_eq_true_2.
Qed.

(** The tags and the order: the active incidents first, open, then the
    recent ones, closed, each with its identifier. *)
Lemma normalize_tags
    (activeIncidents recentIncidents : list (PulsePointIncident string)) :
  let all :=
    normalize {| incidents := Some {| active := Some activeIncidents;
                                      recent := Some recentIncidents |} |} in
  map ID all = (map ID activeIncidents ++ map ID recentIncidents)%list
  /\ map Closed all
     = (map (fun _ => Some false) activeIncidents
        ++ map (fun _ => Some true) recentIncidents)%list.
Proof.
  unfold normalize. simpl. rewrite !map_app, !map_map. simpl. done.
Qed.

(** Off the names of inherited members, the display values are those of the
    tables, with unknown for what they do not list. *)
Lemma normalize_displays decrypted incident unit units :
  In incident (normalize decrypted) ->
  Unit incident = Some units -> In unit units ->
  (forall code, PulsePointIncidentCallType incident = Some code ->
                code ∉ Js.inherited_names) ->
  (forall code, PulsePointDispatchStatus unit = Some code ->
                code ∉ Js.inherited_names) ->
  DisplayIncidentCallType incident
  = Some (Shown (default "Unknown"
                   (PulsePointIncidentCallType incident ≫= (typeMap !!.))))
  /\ DisplayDispatchStatus unit
     = Some (Shown (default "Unknown"
                      (PulsePointDispatchStatus unit ≫= (statusMap !!.)))).
Proof.
  destruct tables_truthy as [Hs Ht].
  assert (forall table code,
             map_Forall (fun _ v => Js.truthy (Some v) = true) table ->
             table !! EmptyString = None ->
             (forall c, code = Some c -> c ∉ Js.inherited_names) ->
             lookup_or_unknown table code
             = Shown (default "Unknown" (code ≫= (table !!.)))) as Hlook.
  { intros table [code|] Htab He Hc; simpl; [|done].
    destruct (table !! code) as [v|] eqn:Hv; simpl.
    - apply lookup_listed; [done| |done]. intros ->. congruence.
    - apply lookup_unlisted; [done|]. by apply Hc. }
  unfold normalize. intros Hin Hu Hun Hct Hds.
  apply in_map_iff in Hin as (inc0 & <- & _). simpl in *. split.
  - f_equal. by apply Hlook.
  - destruct (Unit inc0) as [us|]; [|done]. simpl in Hu. injection Hu as <-.
    apply in_map_iff in Hun as (u0 & <- & _). simpl in *.
    f_equal. by apply Hlook.
Qed.

(** C8.  On a call type and a dispatch status that name members every
    object inherits ([constructor], [toString]) the normalizer does not
    produce the display value [Unknown]: the lookup in the table finds the
    inherited member, which is truthy, and the display value is that member,
    which is not even a string. *)
Theorem inherited_codes_are_not_unknown :
  mapIncidentCallType (Some "constructor") = Member "constructor"
  /\ mapDispatchStatus (Some "toString") = Member "toString"
  /\ typeMap !! "constructor" = None
  /\ statusMap !! "toString" = None
  /\ normalize Examples.odd_feed
     = [ {| ID := "300";
            Closed := Some false;
            CallReceivedDateTime := Some "2024-05-01T10:00:00Z";
            PulsePointIncidentCallType := Some "constructor";
            DisplayIncidentCallType := Some (Member "constructor");
            FullDisplayAddress := Some "1 MAIN ST, VANCOUVER, BC";
            Unit :=
              Some [ {| UnitID := "M1";
                        PulsePointDispatchStatus := Some "toString";
                        DisplayDispatchStatus := Some (Member "toString") |} ]
         |} ].
Proof. repeat split; by vm_compute. Qed.

(** The feed of the specification's scenario: [ER] and a missing status, a
    listed and an unlisted call type. *)
Example normalize_plain_feed :
  map (fun incident =>
         (ID incident, Closed incident, DisplayIncidentCallType incident,
          option_map (map DisplayDispatchStatus) (Unit incident)))
    (normalize Examples.plain_feed)
  = [ ("101", Some false, Some (Shown "Medical Emergency"),
       Some [Some (Shown "En Route")]);
      ("102", Some true, Some (Shown "Unknown"), Some [Some (Shown "Unknown")]) ].
Proof. by vm_compute. Qed.

End NormalizerFacts.

(** ** The theorems on concrete feeds, stores and outsides *)

Module Instances.

Import Engine Examples.

(** The digest on the test suite of RFC 1321, and the key of a salt. *)
Example MD5_of_the_empty_text :
  map Byte.to_N (MD5.digest [])
  = [212; 29; 140; 217; 143; 0; 178; 4; 233; 128; 9; 152; 236; 248; 66; 126]%N.
Proof. by vm_compute. Qed.

Example MD5_of_abc :
  map Byte.to_N (MD5.digest (Decryptor.encode "abc"))
  = [144; 1; 80; 152; 60; 210; 79; 176; 214; 150; 63; 125; 40; 225; 127; 114]%N.
Proof. by vm_compute. Qed.

Example key_of_the_salt :
  option_map (map Byte.to_N) (Decryptor.derive_key MD5.digest 2 salt)
  = Some [62; 79; 138; 166; 23; 244; 10; 160; 128; 77; 106; 113; 124; 251; 91;
          53; 133; 236; 75; 254; 239; 93; 235; 110; 247; 62; 70; 32; 16; 140;
          64; 78]%N.
Proof. by vm_compute. Qed.

(** The key derivation with the digest of RFC 1321, on the salt. *)
Lemma key_of_the_salt_is_two_blocks :
  exists n key,
    Decryptor.derive_key MD5.digest 2 salt = Some key
    /\ key = take 32 (Decryptor.spec_buffer MD5.digest n salt)
    /\ (32 <= length (Decryptor.spec_buffer MD5.digest n salt))%nat
    /\ (forall m, (m < n)%nat ->
                  (length (Decryptor.spec_buffer MD5.digest m salt) < 32)%nat)
    /\ Decryptor.spec_block MD5.digest 1 salt
       = MD5.digest (Decryptor.encode Decryptor.password ++ salt)
    /\ length key = 32%nat.
Proof.
  apply (DecryptorFacts.key_is_the_first_32_bytes_of_the_blocks
           MD5.digest DecryptorFacts.MD5_digest_length salt 2).
  lia.
Defined.

(** The unwrapping of a text as the feed wraps it. *)
Example unwrap_wrapped_text :
  Decryptor.unwrap wrapped_text
  = "{" ++ String Decryptor.quote ("a" ++ String Decryptor.quote ":1}").
Proof. by vm_compute. Qed.

Example unwrap_unclosed_text :
  Decryptor.unwrap unclosed_text = String Decryptor.quote EmptyString.
Proof. by vm_compute. Qed.

(** C1 fails as it is stated: after a first run that notified a new open
    incident, the second run on the same feed selects that incident as
    updated-open, and updates it. *)
Lemma second_run_updates_the_open_incident :
  let store' := kv (run env (accepting noon) [incident_101] ∅).2 in
  let second := run env (accepting soon) [incident_101] store' in
  ~ (newOnes (load_tracked store') [incident_101] = []
     /\ openIncidents (load_tracked store') [incident_101] = []
     /\ newlyClosed (load_tracked store') [incident_101] = [])
  /\ ~ (newIncidents second.1 = O /\ updatedOpenIncidents second.1 = O
        /\ closedIncidents second.1 = O).
Proof.
  split.
  - intros (_ & H & _). vm_compute in H. discriminate.
  - intros (_ & H & _). vm_compute in H. discriminate.
Qed.

(** Two runs on a feed of an active and a recent incident, from a store
    that holds the recent one as open, with every call accepted. *)
Lemma second_run_on_an_accepting_outside :
  let incidents := [incident_101; incident_102] in
  let store' := kv (run env (accepting soon) incidents (store_of [open_102])).2 in
  newOnes (load_tracked store') incidents = []
  /\ newlyClosed (load_tracked store') incidents = []
  /\ forall env' world',
       let second := run env' world' incidents store' in
       newIncidents second.1 = O
       /\ closedIncidents second.1 = O
       /\ Forall (fun e => forall t id request response,
                     e = Notified t id request response ->
                     t <> New /\ t <> NewlyClosed)
            (trace second.2).
Proof.
  apply (Lifecycle.second_run_has_no_new_and_no_newly_closed
           env (accepting soon) [incident_101; incident_102] (store_of [open_102])).
  - apply (bool_decide_unpack _). by vm_compute.
  - apply (bool_decide_unpack _). by vm_compute.
  - apply (bool_decide_unpack _). by vm_compute.
  - intros n request. exists (created "9001"). repeat split. discriminate.
  - intros incident data [<-|[<-|[]]] Hc Hs.
    + vm_compute in Hs. discriminate.
    + vm_compute in Hc. discriminate.
Defined.

(** Without a message identifier in the record, or with an identifier that
    names an inherited member, the second run selects the closed incident
    again. *)
Example second_run_selects_the_silent_record_again :
  let store' := kv (run env (accepting noon) [incident_102] (store_of [silent_102])).2 in
  newlyClosed (load_tracked store') [incident_102] = [incident_102].
Proof. by vm_compute. Qed.

Example second_run_selects_the_inherited_name_again :
  let store' := kv (run env (accepting noon) [incident_constructor] ∅).2 in
  newlyClosed (load_tracked store') [incident_constructor] = [incident_constructor].
Proof. by vm_compute. Qed.

(** C2 fails as it is stated: a record that is open and was last updated
    more than 24 hours ago, and whose incident is in the feed as active, is
    both updated-open and expired. *)
Lemma updated_open_and_expired :
  let tracked := tracked_of [open_101] in
  ~ (forall id,
        ~ (id ∈ map ID (openIncidents tracked [incident_101])
           /\ id ∈ expiredIds tracked next_day)).
Proof.
  intros tracked H. apply (H "101"). split.
  - apply (bool_decide_unpack _). by vm_compute.
  - apply (bool_decide_unpack _). by vm_compute.
Qed.

(** An open record last updated more than 24 hours ago whose incident the
    feed lists as closed is both newly-closed and expired. *)
Example newly_closed_and_expired :
  let tracked := tracked_of [open_102] in
  "102" ∈ map ID (newlyClosed tracked [incident_102])
  /\ "102" ∈ expiredIds tracked next_day.
Proof. split; apply (bool_decide_unpack _); by vm_compute. Qed.

(** The classes of a feed of two incidents, both tracked as open. *)
Lemma classes_of_a_feed_of_two :
  let tracked := tracked_of [open_101; open_102] in
  let incidents := [incident_101; incident_102] in
  ~ ("101" ∈ map ID (newOnes tracked incidents)
     /\ "101" ∈ map ID (openIncidents tracked incidents))
  /\ ~ ("101" ∈ map ID (openIncidents tracked incidents)
        /\ "101" ∈ map ID (newlyClosed tracked incidents)).
Proof.
  destruct (Classes.new_and_pruned_are_apart
              (tracked_of [open_101; open_102]) [incident_101; incident_102]
              next_day next_day "101")
    as ((H1 & _) & H8 & _).
  split; [exact H1|]. apply H8.
  apply (bool_decide_unpack _). by vm_compute.
Defined.

(** C3 fails as it is stated: when the patch of an updated-open incident is
    refused, the run creates no message and stores nothing. *)
Lemma refused_patch_creates_no_message :
  let store := store_of [open_101] in
  let final := (run env (refusing soon) [incident_101] store).2 in
  (exists request,
      method request = PATCH
      /\ trace final = [Notified UpdatedOpen "101" request (Some refusal)])
  /\ ~ (exists t request response,
          In (Notified t "101" request response) (trace final)
          /\ method request = POST)
  /\ kv final = store.
Proof.
  intros store final.
  assert (exists request,
             method request = PATCH
             /\ trace final = [Notified UpdatedOpen "101" request (Some refusal)])
    as (request & Hm & Ht).
  { eexists. split; [|by vm_compute]. done. }
  split; [eauto|]. split; [|by vm_compute].
  intros (t & req & resp & Hin & Hpost). rewrite Ht in Hin.
  destruct Hin as [[= <- <- <-]|[]]. congruence.
Qed.

(** The passes of steps 5, 6 and 7 for a record with a fallback
    identifier. *)
Lemma passes_for_a_fallback_identifier :
  let s := start (store_of [fallback_101]) in
  pass_spec (accepting soon) UpdatedOpen "101"
    (webhook env (DisplayIncidentCallType incident_101)) fallback_101 s
    (process_open env (accepting soon) incident_101 s)
  /\ pass_spec (accepting soon) NewlyClosed "101"
       (webhook env (DisplayIncidentCallType incident_101)) fallback_101 s
       (process_closed env (accepting soon) incident_101 s)
  /\ pass_spec (accepting soon) Expired "101"
       (webhook env (displayIncidentCallType fallback_101)) fallback_101 s
       (process_expired env (accepting soon) [incident_101] "101" s).
Proof.
  apply (Correlator.fallback_creates_and_update_adopts
           env (accepting soon) [incident_101] incident_101
           (start (store_of [fallback_101])) fallback_101).
  - by vm_compute.
  - done.
Defined.

(** The identifier a creation returns, in steps 5 and 6: step 5 stores it,
    step 6 keeps the fallback. *)
Example created_identifier_is_adopted_by_the_update_only :
  kv (run env (accepting soon) [incident_101] (store_of [fallback_101])).2
    !! incident_key "101"
  = Some (record "101" false (Some "9001") (soon + 2))
  /\ kv (run env (accepting soon) [incident_102] (store_of [fallback_102])).2
      !! incident_key "102"
     = Some (record "102" true (messageId fallback_102) (soon + 2)).
Proof. split; by vm_compute. Qed.

(** A closed record through two runs on a feed that lists its incident as
    active. *)
Lemma closed_record_after_two_runs :
  let store := store_of [closed_101] in
  let before := after env [(accepting soon, [incident_101])] store in
  let final := (run env (accepting next_day) [incident_101] before).2 in
  before !! incident_key "101" = Some closed_101
  /\ Forall (fun e => forall d, e = Put (incident_key "101") d -> closed d = true)
       (trace final)
  /\ Forall (fun e => about "101" e -> e = Deleted (incident_key "101"))
       (trace final)
  /\ (kv final !! incident_key "101" = Some closed_101
      \/ kv final !! incident_key "101" = None).
Proof.
  apply (Lifecycle.closed_is_monotonic
           env [(accepting soon, [incident_101])] (accepting next_day)
           [incident_101] (store_of [closed_101]) "101" closed_101).
  - apply (bool_decide_unpack _). by vm_compute.
  - by vm_compute.
  - done.
  - split; [|done]. vm_compute. eauto.
Defined.

(** C7 fails as it is stated: the patch of the update is refused, the patch
    of the expiry is accepted, and the record is stored as closed in that
    run; the next run does not update it. *)
Lemma refused_update_and_accepted_expiry :
  let store := store_of [open_101] in
  let final := (run env (refusing_updates next_day) [incident_101] store).2 in
  (exists request rest,
      trace final = Notified UpdatedOpen "101" request (Some refusal) :: rest
      /\ exists data, In (Put (incident_key "101") data) rest)
  /\ kv final !! incident_key "101" <> store !! incident_key "101"
  /\ openIncidents (load_tracked (kv final)) [incident_101] = []
  /\ openIncidents (load_tracked store) [incident_101] = [incident_101].
Proof.
  intros store final. split; [|split; [|split]].
  - eexists _, _. split; [by vm_compute|]. eexists. right. left. done.
  - vm_compute. discriminate.
  - by vm_compute.
  - by vm_compute.
Qed.

(** A run whose two calls for the incident, the update and the expiry, are
    both refused. *)
Lemma refused_calls_leave_the_record :
  let store := store_of [open_101] in
  let final := (run env (refusing next_day) [incident_101] store).2 in
  Forall (fun e => ~ writes "101" e) (trace final)
  /\ kv final !! incident_key "101" = store !! incident_key "101"
  /\ (forall incident, ID incident = "101" ->
        (In incident (newOnes (load_tracked (kv final)) [incident_101])
         <-> In incident (newOnes (load_tracked store) [incident_101]))
        /\ (In incident (openIncidents (load_tracked (kv final)) [incident_101])
            <-> In incident (openIncidents (load_tracked store) [incident_101]))
        /\ (In incident (newlyClosed (load_tracked (kv final)) [incident_101])
            <-> In incident (newlyClosed (load_tracked store) [incident_101])))
  /\ (forall t t', t <= t' ->
        "101" ∈ expiredIds (load_tracked store) t ->
        "101" ∈ expiredIds (load_tracked (kv final)) t').
Proof.
  apply (Lifecycle.failed_calls_leave_the_record
           env (refusing next_day) [incident_101] (store_of [open_101]) "101").
  - apply (bool_decide_unpack _). by vm_compute.
  - intros data Hd. vm_compute in Hd. by injection Hd as <-.
  - assert (exists r1 r2,
               trace (run env (refusing next_day) [incident_101]
                        (store_of [open_101])).2
               = [Notified UpdatedOpen "101" r1 (Some refusal);
                  Notified Expired "101" r2 (Some refusal)])
      as (r1 & r2 & ->).
    { eexists _, _. by vm_compute. }
    repeat constructor; intros _ r [= <-]; done.
Defined.

(** A run on a store whose record has no message identifier, a day after
    its last update. *)
Lemma record_without_messageId_is_left :
  let store := store_of [silent_101] in
  let final := (run env (accepting next_day) [incident_101] store).2 in
  Forall (fun e => about "101" e -> e = Deleted (incident_key "101")) (trace final)
  /\ (kv final !! incident_key "101" = Some silent_101
      \/ (closed silent_101 = true /\ kv final !! incident_key "101" = None)).
Proof.
  apply (Lifecycle.absent_messageId_is_skipped
           env (accepting next_day) [incident_101] (store_of [silent_101])
           "101" silent_101).
  - apply (bool_decide_unpack _). by vm_compute.
  - by vm_compute.
  - done.
Defined.

Example record_without_messageId_has_no_event :
  trace (run env (accepting next_day) [incident_101] (store_of [silent_101])).2 = [].
Proof. by vm_compute. Qed.

End Instances.

(** ** The decodings of the decryptor: [hexToBytes] and the unwrapping *)

Module DecodingFacts.

Import Decryptor.

(** Texts two characters at a time. *)
Lemma string_pair_ind (P : string -> Prop) :
  P EmptyString ->
  (forall c, P (String c EmptyString)) ->
  (forall c d rest, P rest -> P (String c (String d rest))) ->
  forall s, P s.
Proof.
  intros H0 H1 H2.
  assert (forall s, P s /\ forall c, P (String c s)) as H.
  { induction s as [|d s [IH1 IH2]]; [by split|].
    split; [apply IH2|]. intros c. by apply H2. }
  intros s. apply H.
Qed.

Lemma substring_shift c s a b :
  0 <= a <= b -> Js.substring (String c s) (a + 1) (b + 1) = Js.substring s a b.
Proof.
  intros Hab. unfold Js.substring, Js.str_length. cbn [String.length].
  match goal with
  | |- String.substring ?n ?m _ = String.substring ?n' ?m' _ =>
      replace n with (S n') by lia; replace m with m' by lia
  end.
  done.
Qed.

Lemma substring_first_pair c d rest :
  Js.substring (String c (String d rest)) 0 2 = String c (String d EmptyString).
Proof.
  unfold Js.substring, Js.str_length. cbn [String.length].
  replace (Z.to_nat _) with O by lia.
  match goal with |- String.substring 0 ?n _ = _ => replace n with 2%nat by lia end.
  by destruct rest.
Qed.

(** The first pair of characters gives the first byte, the rest of the text
    the other bytes. *)
Lemma hexToBytes_pair c d rest :
  hexToBytes (String c (String d rest))
  = Js.ToUint8 (Js.parseInt (String c (String d EmptyString)) 16) :: hexToBytes rest.
Proof.
  unfold hexToBytes, Js.str_length. cbn [String.length].
  replace (Z.to_nat (Z.of_nat (S (S (String.length rest))) `div` 2))
    with (S (Z.to_nat (Z.of_nat (String.length rest) `div` 2))).
  2: { replace (Z.of_nat (S (S (String.length rest))))
         with (1 * 2 + Z.of_nat (String.length rest)) by lia.
       rewrite Z.div_add_l by lia.
       assert (0 <= Z.of_nat (String.length rest) `div` 2)
         by (apply Z.div_pos; lia).
       lia. }
  cbn [seq map]. f_equal.
  - change (Z.of_nat 0 * 2) with 0. change (0 + 2) with 2.
    by rewrite substring_first_pair.
  - rewrite <- seq_shift, map_map. apply map_ext. intros i.
    do 2 f_equal.
    replace (Z.of_nat (S i) * 2) with (Z.of_nat i * 2 + 1 + 1) by lia.
    replace (Z.of_nat i * 2 + 1 + 1 + 2) with (Z.of_nat i * 2 + 2 + 1 + 1) by lia.
    rewrite !substring_shift by lia. done.
Qed.

Lemma append_cons c (s t : string) : String c s ++ t = String c (s ++ t).
Proof. done. Qed.

Lemma hexToBytes_short c : hexToBytes (String c EmptyString) = [].
Proof. done. Qed.

Lemma even_length_pairs (P : string -> Prop) :
  P EmptyString ->
  (forall c d rest,
      Nat.even (String.length rest) = true -> P rest -> P (String c (String d rest))) ->
  forall s, Nat.even (String.length s) = true -> P s.
Proof.
  intros H0 H2 s. induction s as [| c | c d rest IH] using string_pair_ind.
  - done.
  - done.
  - intros He. apply H2; [done | by apply IH].
Qed.

(** X1.  [hexToBytes] returns a byte for each pair of characters, whatever
    the characters: half the length of the text, rounded down, and a last
    character without a partner is not read. *)
Theorem hexToBytes_reads_whole_pairs hex :
  length (hexToBytes hex) = (String.length hex / 2)%nat
  /\ forall c,
       Nat.even (String.length hex) = true ->
       hexToBytes (hex ++ String c EmptyString) = hexToBytes hex.
Proof.
  split.
  - unfold hexToBytes. rewrite length_map, length_seq. unfold Js.str_length.
    rewrite <- (Nat2Z.inj_div _ 2). lia.
  - intros c. revert hex. apply even_length_pairs.
    + done.
    + intros c1 c2 rest _ IH.
      by rewrite !append_cons, !hexToBytes_pair, IH.
Qed.

(** X2.  Decoding goes pair by pair: after a text of even length, the bytes
    of what follows are those it has on its own. *)
Theorem hexToBytes_of_two_texts first second :
  Nat.even (String.length first) = true ->
  hexToBytes (first ++ second) = (hexToBytes first ++ hexToBytes second)%list.
Proof.
  revert first. apply even_length_pairs.
  - done.
  - intros c d rest _ IH.
    by rewrite !append_cons, !hexToBytes_pair, IH.
Qed.

Lemma hex_pair_value upper b :
  Js.ToUint8
    (Js.parseInt
       (String (hex_digit upper (Byte.to_N b / 16))
          (String (hex_digit upper (Byte.to_N b mod 16)) EmptyString)) 16)
  = b.
Proof. destruct upper, b; by vm_compute. Qed.

(** X3.  [hexToBytes] gives back the bytes of a hexadecimal text, two
    digits a byte, with the letters in lower or in upper case. *)
Theorem hexToBytes_of_hex_text upper bytes :
  hexToBytes (hex_text upper bytes) = bytes.
Proof.
  induction bytes as [|b bytes IH]; [done|].
  cbn [hex_text]. by rewrite hexToBytes_pair, hex_pair_value, IH.
Qed.

Lemma hex_digit_is_plain c v :
  Js.radix_digit 16 c = Some v ->
  Js.is_white_space c = false /\ Ascii.eqb c "-" = false
  /\ Ascii.eqb c "+" = false /\ (Ascii.eqb c "0" = true -> v = 0).
Proof.
  destruct c as [[] [] [] [] [] [] [] []]; vm_compute; try discriminate.
  all: intros [= <-]; repeat split; try done; discriminate.
Qed.

Lemma ToInt32_16 : Js.ToInt32 16 = 16.
Proof. done. Qed.

(** X4.  [hexToBytes] rejects nothing.  Of a pair whose second character is
    no hexadecimal digit it reads the first digit alone; a pair that starts
    with a character that is no digit, no white space and no sign gives the
    byte 0; and a digit after a minus sign is counted down from 256, a digit
    after a space is read alone. *)
Theorem hexToBytes_of_malformed_pairs :
  (forall c d v,
      Js.radix_digit 16 c = Some v -> Js.radix_digit 16 d = None ->
      hexToBytes (String c (String d EmptyString)) = [Js.ToUint8 (Some v)])
  /\ (forall c d,
        Js.radix_digit 16 c = None -> Js.is_white_space c = false ->
        c <> "+"%char -> c <> "-"%char ->
        hexToBytes (String c (String d EmptyString)) = [Byte.x00])
  /\ (forall d v,
        Js.radix_digit 16 d = Some v ->
        hexToBytes (String "-" (String d EmptyString)) = [Js.ToUint8 (Some (- v))]
        /\ hexToBytes (String " " (String d EmptyString)) = [Js.ToUint8 (Some v)]).
Proof.
  split; [|split].
  - intros c d v Hc Hd. rewrite hexToBytes_pair. f_equal.
    destruct (hex_digit_is_plain c v Hc) as (Hw & Hm & Hp & H0).
    unfold Js.parseInt. cbn [Js.trim_start]. rewrite Hw.
    cbn [String.get]. rewrite Hm, Hp, ToInt32_16. cbn [orb].
    change (negb (16 =? 0) && ((16 <? 2) || (36 <? 16))) with false.
    change ((16 =? 0) || (16 =? 16)) with true. cbv iota. cbn [andb].
    destruct (Ascii.eqb c "0" && (Ascii.eqb d "x" || Ascii.eqb d "X")) eqn:Hx.
    + apply andb_true_iff in Hx as [Hz _]. rewrite (H0 Hz). done.
    + change (16 =? 0) with false. cbv iota.
      cbn [Js.digits_value]. rewrite Hc, Hd. cbn [default].
      do 2 f_equal; lia.
  - intros c d Hc Hw Hp Hm. rewrite hexToBytes_pair. f_equal.
    apply Ascii.eqb_neq in Hp, Hm.
    unfold Js.parseInt. cbn [Js.trim_start]. rewrite Hw.
    cbn [String.get]. rewrite Hm, Hp, ToInt32_16. cbn [orb].
    change (negb (16 =? 0) && ((16 <? 2) || (36 <? 16))) with false.
    change ((16 =? 0) || (16 =? 16)) with true. cbv iota. cbn [andb].
    assert (Ascii.eqb c "0" = false) as ->.
    { apply Ascii.eqb_neq. intros ->. by vm_compute in Hc. }
    cbn [andb]. change (16 =? 0) with false. cbv iota.
    cbn [Js.digits_value]. by rewrite Hc.
  - intros d v Hd. rewrite !hexToBytes_pair.
    destruct (hex_digit_is_plain d v Hd) as (Hw & Hm & Hp & H0).
    split; f_equal.
    + unfold Js.parseInt. cbn [Js.trim_start].
      change (Js.is_white_space "-") with false. cbv iota.
      cbn [String.get]. change (Ascii.eqb "-" "-") with true.
      change (Ascii.eqb "-" "+") with false. cbn [orb]. cbv iota.
      rewrite ToInt32_16.
      change (negb (16 =? 0) && ((16 <? 2) || (36 <? 16))) with false.
      change ((16 =? 0) || (16 =? 16)) with true. cbv iota. cbn [andb].
      change (16 =? 0) with false. cbv iota.
      cbn [Js.digits_value]. rewrite Hd. cbn [default].
      do 2 f_equal; lia.
    + unfold Js.parseInt. cbn [Js.trim_start].
      change (Js.is_white_space " ") with true. cbv iota. rewrite Hw.
      cbn [String.get]. rewrite Hm, Hp, ToInt32_16. cbn [orb].
      change (negb (16 =? 0) && ((16 <? 2) || (36 <? 16))) with false.
      change ((16 =? 0) || (16 =? 16)) with true. cbv iota. cbn [andb].
      change (16 =? 0) with false. cbv iota.
      cbn [Js.digits_value]. rewrite Hd. cbn [default].
      do 2 f_equal; lia.
Qed.

(** *** The unwrapping *)

Lemma lastIndexOf_from_app c (a b : string) i found :
  Js.lastIndexOf_from c (a ++ b) i found
  = Js.lastIndexOf_from c b (i + Js.str_length a) (Js.lastIndexOf_from c a i found).
Proof.
  revert i found. induction a as [|d a IH]; intros i found.
  - unfold Js.str_length. simpl. by rewrite Z.add_0_r.
  - rewrite append_cons. cbn [Js.lastIndexOf_from]. rewrite IH.
    f_equal. unfold Js.str_length. cbn [String.length]. lia.
Qed.

Lemma lastIndexOf_from_absent c s i found :
  (forall j, String.get j s <> Some c) -> Js.lastIndexOf_from c s i found = found.
Proof.
  revert i found. induction s as [|d s IH]; intros i found Hno; [done|].
  cbn [Js.lastIndexOf_from]. rewrite IH.
  - destruct (Ascii.eqb_spec d c) as [->|]; [|done]. by destruct (Hno O).
  - intros j. apply (Hno (S j)).
Qed.

Lemma substring_prefix (a b : string) :
  String.substring 0 (String.length a) (a ++ b) = a.
Proof.
  induction a as [|c a IH]; [by destruct b|].
  rewrite append_cons. cbn [String.length String.substring]. by rewrite IH.
Qed.

Lemma append_length (a b : string) :
  String.length (a ++ b) = (String.length a + String.length b)%nat.
Proof.
  induction a as [|c a IH]; [done|].
  rewrite append_cons. cbn [String.length]. by rewrite IH.
Qed.

(** What is between the first character and the last double quote. *)
Lemma strip_wrapper_wrapped c body junk :
  (forall j, String.get j junk <> Some quote) ->
  strip_wrapper (String c (body ++ String quote junk)) = body.
Proof.
  intros Hno. unfold strip_wrapper, Js.lastIndexOf.
  cbn [Js.lastIndexOf_from]. rewrite lastIndexOf_from_app.
  cbn [Js.lastIndexOf_from]. rewrite Ascii.eqb_refl.
  rewrite lastIndexOf_from_absent by done.
  match goal with |- context [0 <=? ?x] => set (q := x) end.
  assert (q = 1 + Z.of_nat (String.length body)) as Hq by done.
  assert ((0 <=? q) = true) as -> by (apply Z.leb_le; lia).
  rewrite DecryptorFacts.substring_ordered.
  - replace (Z.to_nat 1) with 1%nat by done.
    cbn [String.substring].
    replace (Z.to_nat (q - 1)) with (String.length body) by lia.
    apply substring_prefix.
  - lia.
  - unfold Js.str_length. cbn [String.length].
    rewrite append_length. cbn [String.length]. lia.
Qed.

Lemma escape_quotes_head text r : escape_quotes text <> String quote r.
Proof.
  destruct text as [|c text]; [done|]. cbn [escape_quotes].
  destruct (Ascii.eqb_spec c quote) as [->|Hne]; [done|]. congruence.
Qed.

(** Un-escaping undoes the escaping. *)
Lemma unescape_escape text : unescape_quotes (escape_quotes text) = text.
Proof.
  induction text as [|c text IH]; [done|]. cbn [escape_quotes].
  destruct (Ascii.eqb_spec c quote) as [->|Hne].
  - cbn [unescape_quotes]. rewrite !Ascii.eqb_refl. cbn [andb]. by rewrite IH.
  - cbn [unescape_quotes].
    destruct (escape_quotes text) as [|d r] eqn:He.
    + destruct text as [|c' text]; [done|]. cbn [escape_quotes] in He.
      by destruct (Ascii.eqb c' quote).
    + destruct (Ascii.eqb_spec d quote) as [->|Hd].
      * by destruct (escape_quotes_head text r).
      * rewrite andb_false_r. by rewrite IH.
Qed.

(** X5.  The unwrapping gives back a text that was wrapped as the feed
    wraps its payload: put between two double quotes, with a backslash
    before each double quote of its own, and followed by any characters
    that hold no double quote. *)
Theorem unwrap_of_a_wrapped_text text junk :
  (forall j, String.get j junk <> Some quote) ->
  unwrap (String quote (escape_quotes text ++ String quote junk)) = text.
Proof.
  intros Hno. unfold unwrap.
  by rewrite strip_wrapper_wrapped, unescape_escape.
Qed.

Lemma String_tail c (a b : string) : String c a = String c b -> a = b.
Proof. by intros [= ?]. Qed.

Lemma unescape_quotes_pair c d rest :
  unescape_quotes (String c (String d rest))
  = if Ascii.eqb c backslash && Ascii.eqb d quote
    then String quote (unescape_quotes rest)
    else String c (unescape_quotes (String d rest)).
Proof. done. Qed.

(** X6.  Un-escaping changes a text only where a backslash stands before a
    double quote: a text with no such pair comes back as it is (its other
    backslashes stay), and a text with such a pair does not. *)
Theorem unescape_quotes_changes_the_pairs_only out :
  unescape_quotes out = out
  <-> forall j, ~ (String.get j out = Some backslash
                   /\ String.get (S j) out = Some quote).
Proof.
  induction out as [|c rest IH].
  { split; [|done]. intros _ j [Hj _]. done. }
  destruct rest as [|d rest].
  { split; [|done]. intros _ [|j] [_ Hj]; done. }
  rewrite unescape_quotes_pair.
  destruct (Ascii.eqb c backslash && Ascii.eqb d quote) eqn:Hp.
  - apply andb_true_iff in Hp as [->%Ascii.eqb_eq ->%Ascii.eqb_eq].
    split; [intros [= ?]; done|]. intros H. by destruct (H O).
  - split.
    + intros Hr%String_tail. pose proof (proj1 IH Hr) as Hno.
      intros [|j]; [|apply Hno].
      cbn [String.get]. intros [[= ->] [= ->]].
      by rewrite !Ascii.eqb_refl in Hp.
    + intros H. f_equal. apply (proj2 IH). intros j. apply (H (S j)).
Qed.

End DecodingFacts.

(** ** The fields of an embed: [buildDiscordFields] *)

Module FieldFacts.

Import Engine.

(** [Js.includes] finds a text exactly when it occurs. *)
Lemma prefix_app (p s : string) : String.prefix p (p ++ s) = true.
Proof.
  induction p as [|c p IH]; [by destruct s|].
  rewrite DecodingFacts.append_cons. cbn [String.prefix].
  by destruct (ascii_dec c c).
Qed.

Lemma prefix_split (p s : string) :
  String.prefix p s = true -> exists post, s = p ++ post.
Proof.
  revert s. induction p as [|c p IH]; intros s; [by exists s|].
  destruct s as [|d s]; [done|]. cbn [String.prefix].
  destruct (ascii_dec c d) as [->|]; [|done].
  intros [post ->]%IH. by exists post.
Qed.

Lemma includes_spec (s p : string) :
  Js.includes s p = true <-> exists pre post, s = pre ++ p ++ post.
Proof.
  split.
  - induction s as [|c s IH]; cbn [Js.includes].
    + rewrite orb_false_r. intros [post ->]%prefix_split.
      by exists EmptyString, post.
    + intros [[post ->]%prefix_split | (pre & post & ->)%IH]%orb_true_iff.
      * by exists EmptyString, post.
      * by exists (String c pre), post.
  - intros (pre & post & ->).
    induction pre as [|c pre IH].
    + change (EmptyString ++ p ++ post) with (p ++ post).
      destruct (p ++ post) eqn:E; cbn [Js.includes]; rewrite <- ?E;
        by rewrite prefix_app.
    + rewrite DecodingFacts.append_cons. cbn [Js.includes].
      rewrite IH. apply orb_true_r.
Qed.

Lemma append_assoc (a b c : string) : (a ++ b) ++ c = a ++ b ++ c.
Proof.
  induction a as [|x a IH]; [done|].
  by rewrite !DecodingFacts.append_cons, IH.
Qed.

Lemma append_nil_r (a : string) : a ++ EmptyString = a.
Proof.
  induction a as [|x a IH]; [done|]. by rewrite DecodingFacts.append_cons, IH.
Qed.

Lemma join_cons sep p q rest :
  Js.join sep (p :: q :: rest) = p ++ sep ++ Js.join sep (q :: rest).
Proof. done. Qed.

(** A joined text holds each of its parts. *)
Lemma join_includes sep parts p :
  In p parts -> exists pre post, Js.join sep parts = pre ++ p ++ post.
Proof.
  induction parts as [|q parts IH]; [done|].
  intros [->|Hin].
  - destruct parts as [|q' parts].
    + exists EmptyString, EmptyString. cbn [Js.join]. by rewrite append_nil_r.
    + exists EmptyString, (sep ++ Js.join sep (q' :: parts)). by rewrite join_cons.
  - destruct parts as [|q' parts]; [done|].
    destruct (IH Hin) as (pre & post & Hj).
    exists (q ++ sep ++ pre), post.
    by rewrite join_cons, Hj, !append_assoc.
Qed.

Lemma join_head sep p parts :
  exists post, Js.join sep (p :: parts) = p ++ post.
Proof.
  destruct parts as [|q parts].
  - exists EmptyString. cbn [Js.join]. by rewrite append_nil_r.
  - by exists (sep ++ Js.join sep (q :: parts)).
Qed.

Lemma knownStatuses_named :
  ("Unknown" ∉ knownStatuses) /\ (EmptyString ∉ knownStatuses).
Proof. split; apply (bool_decide_unpack _); by vm_compute. Qed.

(** The units a field of a status lists, and those the last field lists. *)
Lemma field_of_known unit status :
  status ∈ knownStatuses ->
  bool_decide (DisplayDispatchStatus unit = Some status)
  = bool_decide (field_of unit = status).
Proof.
  intros Hk. destruct knownStatuses_named as [Hu He].
  apply bool_decide_ext. unfold field_of. split.
  - intros ->. cbn [default]. by rewrite bool_decide_eq_true_2.
  - case_bool_decide as Hin.
    + destruct (DisplayDispatchStatus unit) as [d|]; simpl in *.
      * by intros ->.
      * intros <-. done.
    + intros <-. done.
Qed.

Lemma field_of_unknown unit :
  negb (bool_decide (default EmptyString (DisplayDispatchStatus unit) ∈ knownStatuses))
  = bool_decide (field_of unit = "Unknown").
Proof.
  destruct knownStatuses_named as [Hu He]. unfold field_of.
  case_bool_decide as Hin; cbn [negb].
  - symmetry. apply bool_decide_eq_false_2. intros Heq. by rewrite Heq in Hin.
  - symmetry. by apply bool_decide_eq_true_2.
Qed.

Lemma filter_ext_bool {A} (f g : A -> bool) l :
  (forall x, f x = g x) -> List.filter f l = List.filter g l.
Proof.
  intros H. induction l as [|x l IH]; [done|]. simpl. by rewrite H, IH.
Qed.

Lemma label_known unit field :
  field_of unit = field -> field <> "Unknown" -> label_of unit = UnitID unit.
Proof.
  intros <- Hne. unfold label_of. by rewrite bool_decide_eq_false_2.
Qed.

Lemma map_filter_ext {A B} (f g : A -> B) (p : A -> bool) l :
  (forall x, p x = true -> f x = g x) ->
  map f (List.filter p l) = map g (List.filter p l).
Proof.
  intros H. induction l as [|x l IH]; [done|]. simpl.
  destruct (p x) eqn:E; [|done]. simpl. by rewrite H, IH.
Qed.

(** A field of the units: there when a unit is listed in it, with the
    labels of its units. *)
Lemma status_field_listed units status :
  status ∈ knownStatuses ->
  status_field units status
  = if decide (0 < length (listed units status))%nat
    then [ {| name := status;
              value := Js.join ", " (map label_of (listed units status));
              inline := Some true |} ]
    else [].
Proof.
  intros Hk. unfold status_field, listed.
  rewrite (filter_ext_bool _ (fun unit => bool_decide (field_of unit = status)))
    by (intros u; by apply field_of_known).
  destruct (decide _); [|done]. do 3 f_equal.
  apply map_filter_ext. intros u Hu%bool_decide_eq_true. symmetry.
  apply (label_known u status); [done|]. intros ->.
  by destruct knownStatuses_named.
Qed.

Lemma unknown_field_listed units :
  unknown_field units
  = if decide (0 < length (listed units "Unknown"))%nat
    then [ {| name := "Unknown";
              value := Js.join ", " (map label_of (listed units "Unknown"));
              inline := Some true |} ]
    else [].
Proof.
  unfold unknown_field, listed.
  rewrite (filter_ext_bool _ (fun unit => bool_decide (field_of unit = "Unknown")))
    by (intros u; apply field_of_unknown).
  destruct (decide _); [|done]. do 3 f_equal.
  apply map_filter_ext. intros u Hu. unfold label_of. by rewrite Hu.
Qed.

(** The fields [buildDiscordFields] returns: the address, a field for each
    name that has units, in the fixed order, and the instant. *)
Lemma buildDiscordFields_fields world incident s :
  exists address updated,
    (buildDiscordFields world incident s).1
    = ({| name := "Full Address"; value := address; inline := None |}
       :: flat_map (unit_field (default [] (Unit incident))) unit_field_names
       ++ [ {| name := "Last Updated"; value := "<t:" ++ updated ++ ":R>";
               inline := Some false |} ])%list
    /\ address <> EmptyString
    /\ (Js.truthy (FullDisplayAddress incident) = true ->
        FullDisplayAddress incident = Some address)
    /\ (Js.truthy (FullDisplayAddress incident) = false ->
        address = "Address not available").
Proof.
  unfold buildDiscordFields. cbn [Date_now fst snd].
  eexists _, _. split; [|split; [|split]].
  - f_equal. f_equal.
    destruct (Unit incident) as [units|]; cbn [default].
    + cbn [flat_map unit_field_names]. rewrite app_nil_r.
      rewrite !status_field_listed, unknown_field_listed
        by (apply (bool_decide_unpack _); by vm_compute).
      done.
    + done.
  - destruct (FullDisplayAddress incident) as [[|c a]|]; done.
  - destruct (FullDisplayAddress incident) as [[|c a]|]; done.
  - destruct (FullDisplayAddress incident) as [[|c a]|]; done.
Qed.

Lemma listed_Exists units field :
  (0 < length (listed units field))%nat
  <-> Exists (fun unit => field_of unit = field) units.
Proof.
  unfold listed. induction units as [|u units IH]; simpl.
  - split; [lia | by intros ?%Exists_nil].
  - rewrite Exists_cons. case_bool_decide; simpl; [split; [auto | lia]|].
    rewrite IH. tauto.
Qed.

Lemma unit_field_name units field :
  map name (unit_field units field)
  = if bool_decide (Exists (fun unit => field_of unit = field) units)
    then [field] else [].
Proof.
  unfold unit_field. destruct (decide _) as [H|H].
  - by rewrite bool_decide_eq_true_2 by (by apply listed_Exists).
  - by rewrite bool_decide_eq_false_2 by (by rewrite <- listed_Exists).
Qed.

Lemma unit_fields_names units names :
  map name (flat_map (unit_field units) names)
  = List.filter
      (fun field => bool_decide (Exists (fun unit => field_of unit = field) units))
      names.
Proof.
  induction names as [|n names IH]; [done|].
  cbn [flat_map List.filter]. rewrite map_app, IH, unit_field_name.
  by destruct (bool_decide _).
Qed.

Lemma unit_field_names_NoDup : NoDup unit_field_names.
Proof. apply (bool_decide_unpack _). by vm_compute. Qed.

Lemma filter_In_iff {A} (f : A -> bool) l x :
  x ∈ List.filter f l <-> x ∈ l /\ f x = true.
Proof. rewrite !list_elem_of_In. apply filter_In. Qed.

Lemma filter_NoDup {A} (f : A -> bool) (l : list A) :
  NoDup l -> NoDup (List.filter f l).
Proof.
  induction 1 as [|x l Hx Hl IH]; simpl; [constructor|].
  destruct (f x); [|done]. constructor; [|done].
  rewrite filter_In_iff. tauto.
Qed.

(** X7.  The fields of an embed bear distinct names, in a fixed order: the
    address first, then the fields of the units, each there exactly when a
    unit is listed in it, then the instant; an incident without units has
    the first and the last only. *)
Theorem buildDiscordFields_names world incident s :
  let fields := (buildDiscordFields world incident s).1 in
  let units := default [] (Unit incident) in
  map name fields
  = ("Full Address"
     :: List.filter
          (fun field =>
             bool_decide (Exists (fun unit => field_of unit = field) units))
          unit_field_names
     ++ ["Last Updated"])%list
  /\ NoDup (map name fields)
  /\ (2 <= length fields <= 9)%nat
  /\ (units = [] -> map name fields = ["Full Address"; "Last Updated"]).
Proof.
  intros fields units.
  destruct (buildDiscordFields_fields world incident s)
    as (address & updated & Hf & _).
  fold fields units in Hf.
  assert (map name fields
          = ("Full Address"
             :: List.filter
                  (fun field =>
                     bool_decide (Exists (fun unit => field_of unit = field) units))
                  unit_field_names
             ++ ["Last Updated"])%list) as Hn.
  { rewrite Hf. cbn [map]. by rewrite map_app, unit_fields_names. }
  split; [done|]. split; [|split].
  - rewrite Hn.
    set (P := fun field =>
                bool_decide (Exists (fun unit => field_of unit = field) units)).
    assert (forall x, x ∈ List.filter P unit_field_names -> x ∈ unit_field_names)
      as Hsub by (intros x Hx; by apply filter_In_iff in Hx as [? _]).
    apply NoDup_cons. split.
    + rewrite elem_of_app, list_elem_of_singleton.
      intros [Hin%Hsub|]; [|done]. revert Hin.
      apply (bool_decide_unpack _). by vm_compute.
    + apply NoDup_app. split; [|split].
      * apply filter_NoDup, unit_field_names_NoDup.
      * intros x Hin%Hsub ->%list_elem_of_singleton. revert Hin.
        apply (bool_decide_unpack _). by vm_compute.
      * apply NoDup_singleton.
  - rewrite <- (length_map name), Hn. cbn [length]. rewrite length_app.
    pose proof (filter_length_le
                  (fun field =>
                     bool_decide (Exists (fun unit => field_of unit = field) units))
                  unit_field_names) as Hle.
    cbn [length] in *. change (length unit_field_names) with 7%nat in Hle. lia.
  - intros Hu. rewrite Hn, Hu. cbn [List.filter unit_field_names].
    rewrite !bool_decide_eq_false_2 by (by intros ?%Exists_nil). done.
Qed.

(** X8.  No unit is left out of an embed: each unit of the incident is
    written, with its label, in the field of its display status, and in the
    last field, with its raw status after it, when that status is none of
    the six. *)
Theorem buildDiscordFields_lists_every_unit world incident s :
  let fields := (buildDiscordFields world incident s).1 in
  Forall
    (fun unit =>
       exists field pre post,
         field ∈ fields /\ name field = field_of unit
         /\ inline field = Some true
         /\ value field = pre ++ label_of unit ++ post)
    (default [] (Unit incident)).
Proof.
  intros fields.
  destruct (buildDiscordFields_fields world incident s)
    as (address & updated & Hf & _).
  fold fields in Hf. set (units := default [] (Unit incident)) in *.
  apply Forall_forall. intros unit Hin.
  assert (field_of unit ∈ unit_field_names) as Hname.
  { unfold field_of. case_bool_decide as Hk.
    - revert Hk. generalize (default EmptyString (DisplayDispatchStatus unit)).
      intros status Hk.
      assert (Forall (fun x => x ∈ unit_field_names) knownStatuses) as Hsub.
      { apply (bool_decide_unpack _). by vm_compute. }
      rewrite Forall_forall in Hsub. by apply Hsub.
    - apply (bool_decide_unpack _). by vm_compute. }
  assert (In unit (listed units (field_of unit))) as Hl.
  { apply filter_In. split; [by apply list_elem_of_In|].
    by apply bool_decide_eq_true_2. }
  assert (0 < length (listed units (field_of unit)))%nat as Hpos.
  { destruct (listed units (field_of unit)); [done | simpl; lia]. }
  destruct (join_includes ", " (map label_of (listed units (field_of unit)))
              (label_of unit)) as (pre & post & Hj).
  { by apply in_map. }
  exists {| name := field_of unit;
            value := Js.join ", " (map label_of (listed units (field_of unit)));
            inline := Some true |}, pre, post.
  split; [|split; [done|split; [done|exact Hj]]].
  rewrite Hf. apply list_elem_of_In. right. apply in_or_app. left.
  apply in_flat_map. exists (field_of unit).
  split; [by apply list_elem_of_In|].
  unfold unit_field. rewrite decide_True by done. by left.
Qed.

(** X9.  No field of an embed has an empty name, and a field has an empty
    value only when a unit of the incident has an empty [UnitID]. *)
Theorem buildDiscordFields_fills_every_field world incident s :
  Forall
    (fun field =>
       name field <> EmptyString
       /\ (value field = EmptyString ->
           Exists (fun unit => UnitID unit = EmptyString)
             (default [] (Unit incident))))
    (buildDiscordFields world incident s).1.
Proof.
  destruct (buildDiscordFields_fields world incident s)
    as (address & updated & -> & Ha & _).
  set (units := default [] (Unit incident)).
  apply Forall_cons. split; [by split|].
  apply Forall_app. split; [|by repeat constructor].
  apply Forall_forall. intros field Hin.
  apply list_elem_of_In, in_flat_map in Hin as (n & Hn & Hin).
  unfold unit_field in Hin. destruct (decide _) as [Hpos|]; [|done].
  destruct Hin as [<-|[]]. cbn [name value]. split.
  - intros ->. revert Hn. apply (bool_decide_eq_false _). by vm_compute.
  - destruct (listed units n) as [|u us] eqn:El; [simpl in Hpos; lia|].
    cbn [map]. destruct (join_head ", " (label_of u) (map label_of us))
      as [post ->].
    intros Hempty.
    assert (label_of u = EmptyString) as Hlabel
      by (by destruct (label_of u)).
    assert (In u units) as Hu.
    { assert (In u (listed units n)) as H by (rewrite El; by left).
      by apply filter_In in H as [? _]. }
    apply Exists_exists. exists u. split; [by apply list_elem_of_In|].
    unfold label_of in Hlabel. case_bool_decide; [|done].
    by destruct (UnitID u).
Qed.

End FieldFacts.

(** ** The normalizer and the engine together: the tables, the fields and
       the webhooks *)

Module TableFacts.

Import Normalizer Engine.

(** X10.  The normalizer overwrites what the payload says of the attributes
    it assigns: the incidents it returns are those of the payload without
    them.  A payload without [incidents], or without one of the two lists,
    is read as one with empty lists. *)
Theorem normalize_overwrites_its_attributes decrypted :
  normalize decrypted = normalize (bare decrypted)
  /\ (incidents decrypted = None -> normalize decrypted = [])
  /\ (forall lists,
        incidents decrypted = Some lists ->
        normalize decrypted
        = normalize
            {| incidents :=
                 Some {| active := Some (default [] (active lists));
                         recent := Some (default [] (recent lists)) |} |}).
Proof.
  split; [|split].
  - unfold normalize, bare.
    destruct (incidents decrypted) as [[a r]|]; [|done]. simpl.
    assert (forall closed_ (l : list (PulsePointIncident string)),
               map display_incident (map (set_Closed closed_) l)
               = map display_incident
                   (map (set_Closed closed_) (map bare_incident l))) as H.
    { intros closed_ l. rewrite !map_map. apply map_ext. intros incident.
      unfold display_incident, set_Closed, bare_incident. simpl. f_equal.
      destruct (Unit incident) as [units|]; [|done]. simpl. f_equal.
      rewrite map_map. by apply map_ext. }
    rewrite !map_app.
    destruct a as [a|], r as [r|]; simpl;
      rewrite ?app_nil_r; try done; f_equal; apply H.
  - intros Hnone. unfold normalize. by rewrite Hnone.
  - intros lists Hl. unfold normalize. rewrite Hl. simpl.
    by destruct (active lists), (recent lists).
Qed.

Lemma statusMap_range :
  map_Forall (fun _ v => v ∈ knownStatuses) statusMap.
Proof. apply (bool_decide_unpack _). by vm_compute. Qed.

(** X11.  The two halves of the display of a unit agree: whatever display
    status the normalizer gives a unit, the embed lists the unit in the
    field of that very name ([Unknown] for a code the table does not have),
    and each of the six statuses that have a field is the display status of
    some code. *)
Theorem display_status_names_the_field status unitID :
  match mapDispatchStatus status with
  | Shown display =>
      field_of {| UnitID := unitID;
                  PulsePointDispatchStatus := status;
                  DisplayDispatchStatus := Some display |}
      = display
  | Member name => name ∈ Js.inherited_names
  end
  /\ Forall
       (fun known => exists code, mapDispatchStatus (Some code) = Shown known)
       knownStatuses.
Proof.
  split.
  - unfold mapDispatchStatus, lookup_or_unknown.
    destruct (Js.truthy status); cbn [negb]; [|done].
    unfold Js.js_get.
    destruct (statusMap !! Js.template status) as [v|] eqn:Hv.
    + pose proof (statusMap_range _ _ Hv) as Hk. cbn beta in Hk.
      assert (Js.truthy (Some v) = true) as ->.
      { destruct v; [|done]. exfalso. revert Hk.
        apply (bool_decide_eq_false _). by vm_compute. }
      unfold field_of. cbn [DisplayDispatchStatus default].
      by rewrite bool_decide_eq_true_2.
    + case_bool_decide; done.
  - repeat constructor.
    + by exists "OS".
    + by exists "ER".
    + by exists "AR".
    + by exists "TR".
    + by exists "DP".
    + by exists "TA".
Qed.

Lemma typeMap_standby :
  map_Forall
    (fun code v => bool_decide (v = "Standby") = bool_decide (code = "STBY"))
    typeMap.
Proof. apply (bool_decide_unpack _). by vm_compute. Qed.

(** The webhook of the display type of a code: of all the codes, listed or
    not, [STBY] alone gets the display type of the standby webhook. *)
Lemma webhook_of_a_code env callType :
  match mapIncidentCallType callType with
  | Shown display =>
      webhook env (Some display)
      = if bool_decide (callType = Some "STBY")
        then DISCORD_STANDBY_WEBHOOK_URL env
        else DISCORD_WEBHOOK_URL env
  | Member name => name ∈ Js.inherited_names
  end.
Proof.
  unfold mapIncidentCallType, lookup_or_unknown, webhook.
  destruct callType as [[|c code]|]; cbn [Js.truthy negb Js.template]; [done| |done].
  unfold Js.js_get.
  destruct (typeMap !! String c code) as [v|] eqn:Hv.
  - pose proof (typeMap_standby _ _ Hv) as Hs. cbn beta in Hs.
    pose proof (proj2 NormalizerFacts.tables_truthy _ _ Hv) as Ht.
    cbn beta in Ht. destruct v as [|c' v]; [done|].
    set (display := String c' v) in *.
    assert (bool_decide (Some display = Some "Standby")
            = bool_decide (display = "Standby"))
      as -> by (apply bool_decide_ext; split; congruence).
    assert (bool_decide (Some (String c code) = Some "STBY")
            = bool_decide (String c code = "STBY"))
      as -> by (apply bool_decide_ext; split; congruence).
    by rewrite Hs.
  - case_bool_decide as Hi; [done|].
    rewrite bool_decide_eq_false_2 by done.
    rewrite bool_decide_eq_false_2; [done|].
    intros Heq. assert (String c code = "STBY") as Heq' by congruence.
    rewrite Heq' in Hv. by vm_compute in Hv.
Qed.

Lemma upper_lower c : Js.upper_ascii (Js.lower_ascii c) = Js.upper_ascii c.
Proof. destruct c as [[] [] [] [] [] [] [] []]; by vm_compute. Qed.

Lemma upper_upper c : Js.upper_ascii (Js.upper_ascii c) = Js.upper_ascii c.
Proof. destruct c as [[] [] [] [] [] [] [] []]; by vm_compute. Qed.

Lemma toUpperCase_case address :
  Js.toUpperCase (Js.toLowerCase address) = Js.toUpperCase address
  /\ Js.toUpperCase (Js.toUpperCase address) = Js.toUpperCase address.
Proof.
  unfold Js.toUpperCase, Js.toLowerCase.
  induction address as [|c address [IH1 IH2]]; [done|].
  cbn [Js.map_string]. by rewrite upper_lower, upper_upper, IH1, IH2.
Qed.

(** X13.  The location filter of step 4 lets an incident through exactly
    when its address holds one of the fifteen names, whatever the case of
    its letters; an incident with no address, or an empty one, does not get
    through. *)
Theorem isMatch_is_for_the_named_places incident :
  (isMatch incident = true
   <-> exists address place pre post,
         FullDisplayAddress incident = Some address /\ place ∈ places
         /\ Js.toUpperCase address = pre ++ place ++ post)
  /\ (forall address,
        locationRegex_test (Js.toLowerCase address) = locationRegex_test address
        /\ locationRegex_test (Js.toUpperCase address) = locationRegex_test address)
  /\ (Js.truthy (FullDisplayAddress incident) = false -> isMatch incident = false).
Proof.
  split; [|split].
  - unfold isMatch, locationRegex_test.
    destruct (FullDisplayAddress incident) as [address|].
    2: { split; [done|]. by intros (? & ? & ? & ? & ? & _). }
    split.
    + intros [_ (place & Hin & Hp)%existsb_exists]%andb_true_iff.
      apply FieldFacts.includes_spec in Hp as (pre & post & Hp).
      exists address, place, pre, post. by rewrite list_elem_of_In.
    + intros (a & place & pre & post & [= <-] & Hin & Hp).
      apply andb_true_iff. split.
      * destruct address as [|c address]; [|done].
        exfalso. cbn in Hp.
        assert (place = EmptyString) as ->.
        { destruct pre; [|done]. by destruct place. }
        revert Hin. apply (bool_decide_eq_false _). by vm_compute.
      * apply existsb_exists. exists place. rewrite <- list_elem_of_In.
        split; [done|]. apply FieldFacts.includes_spec. eauto.
  - intros address. unfold locationRegex_test.
    destruct (toUpperCase_case address) as [-> ->]. done.
  - unfold isMatch. by destruct (FullDisplayAddress incident) as [[|c a]|].
Qed.

End TableFacts.

(** ** What a run does to the store, and whom it announces *)

Module StoreFacts.

Import Engine StepFacts SweepFacts SelectionFacts RunFacts.

Lemma replay_other_key evs store key :
  Forall (fun e => match e with
                   | Put k _ | Deleted k => k <> key
                   | Notified _ _ _ _ => True
                   end) evs ->
  replay evs store !! key = store !! key.
Proof.
  revert store. induction evs as [|e evs IH]; intros store; [done|].
  intros [He Hevs]%Forall_cons. rewrite replay_cons, IH by done.
  destruct e as [| k data | k]; simpl in *; [done| |].
  - by apply lookup_insert_ne.
  - by apply lookup_delete_ne.
Qed.

Lemma lawful_key m incidents e :
  lawful m incidents e ->
  match e with
  | Put k _ | Deleted k => String.prefix "incident:" k = true
  | Notified _ _ _ _ => True
  end.
Proof.
  destruct e as [| k data | k]; simpl; [done| |].
  - intros (id & -> & _). apply prefix_incident_key.
  - intros (id & tracked & -> & _). apply prefix_incident_key.
Qed.

(** X14.  A run writes and deletes under the prefix [incident:] only: what
    the namespace holds under any other key is there after the run, as it
    was. *)
Theorem run_leaves_the_other_keys env world incidents store key :
  String.prefix "incident:" key = false ->
  kv (run env world incidents store).2 !! key = store !! key.
Proof.
  intros Hkey. rewrite run_replay. apply replay_other_key.
  eapply Forall_impl; [apply run_lawful|].
  intros e He%lawful_key. destruct e as [| k data | k]; [done|..];
    intros ->; congruence.
Qed.

Lemma replay_deleted ids store id :
  id ∈ ids ->
  replay (map (fun id => Deleted (incident_key id)) ids) store
    !! incident_key id = None.
Proof.
  revert store. induction ids as [|i ids IH]; intros store Hin.
  { by apply elem_of_nil in Hin. }
  cbn [map]. rewrite replay_cons. cbn [apply_event].
  destruct (decide (id ∈ ids)) as [Hin'|Hout]; [by apply IH|].
  apply elem_of_cons in Hin as [->|]; [|done].
  rewrite replay_untouched; [apply lookup_delete_eq|].
  apply Forall_forall. intros e (j & -> & Hj)%list_elem_of_fmap. simpl.
  intros ->%incident_key_inj. done.
Qed.

Lemma sweep_no_delete world t ids s s' evs key :
  sweep world t ids s s' evs -> ~ In (Deleted key) evs.
Proof.
  intros Hw Hin. apply sweep_events in Hw. rewrite Forall_forall in Hw.
  by apply list_elem_of_In, Hw in Hin.
Qed.



End StoreFacts.

(** ** The calls of a run *)

Module TraceFacts.

Import Engine StepFacts SweepFacts SelectionFacts RunFacts.

Lemma accepted_b_spec t response :
  accepted_b t response = true <-> accepted t response.
Proof.
  unfold accepted_b, accepted. destruct response as [r|].
  - split.
    + intros [Hok Hb]%andb_true_iff. exists r. split; [done|]. split; [done|].
      intros ->. by destruct (body r).
    + intros (r' & [= <-] & -> & Hb). cbn [andb].
      destruct t; try done. destruct (body r); try done. by destruct Hb.
  - split; [done|]. by intros (r & ? & _).
Qed.

Section Passes.

Variable env : Env.
Variable world : World.
Variable incidents : list Incident.

Lemma webhook_is_bound callType :
  webhook env callType = DISCORD_WEBHOOK_URL env
  \/ webhook env callType = DISCORD_STANDBY_WEBHOOK_URL env.
Proof. unfold webhook. case_bool_decide; auto. Qed.

Lemma update_call t id callType stored_id embed :
  t <> New ->
  Js.truthy (Some stored_id) = true ->
  footer_text embed = footer id -> url embed = permalink id ->
  color embed = match t with New | UpdatedOpen => red | _ => grey end ->
  call_of env t id (update_request (webhook env callType) stored_id embed).
Proof.
  intros Ht Hm Hf Hu Hc.
  assert (embeds (update_request (webhook env callType) stored_id embed) = embed)
    as He by (unfold update_request; by destruct (isRealMessageId stored_id)).
  unfold call_of. rewrite He. split; [done|]. split; [done|]. split; [done|].
  exists (webhook env callType). split; [apply webhook_is_bound|].
  assert (exists stored_id0,
             stored_id0 <> EmptyString
             /\ call_shape (webhook env callType) stored_id0
                  (update_request (webhook env callType) stored_id embed)) as H.
  { exists stored_id. split; [by destruct stored_id|].
    unfold call_shape, update_request. by destruct (isRealMessageId stored_id). }
  by destruct t.
Qed.

Ltac name_call :=
  match goal with
  | |- context [fetch world ?n ?r] =>
      let n0 := fresh "n0" in let req := fresh "req" in
      set (n0 := n); set (req := r)
  end.

(** Step 4: the events of one pass. *)
Lemma process_new_trace incident s :
  exists evs,
    trace (process_new env world incident s).2 = (trace s ++ evs)%list
    /\ pass_trace env New (ID incident) (process_new env world incident s).1 evs.
Proof.
  unfold process_new. simpl. name_call.
  assert (call_of env New (ID incident) req) as Hcall.
  { unfold call_of, req. simpl. repeat split.
    exists (webhook env (DisplayIncidentCallType incident)).
    split; [apply webhook_is_bound | done]. }
  destruct (fetch world n0 req) as [response|] eqn:Hf.
  - destruct (ok response) eqn:Hok; simpl.
    + destruct (new_messageId _ (body response)) as [id|] eqn:Hid.
      * eexists. split; [simpl; by rewrite <- app_assoc|].
        right. exists req, (Some response). split; [done|]. right.
        split; [|by eauto]. simpl. rewrite Hok.
        destruct (body response); try done.
      * eexists. split; [done|].
        right. exists req, (Some response). split; [done|]. left.
        split; [|done]. simpl. rewrite Hok.
        apply new_messageId_None in Hid. by rewrite Hid.
    + eexists. split; [done|].
      right. exists req, (Some response). split; [done|]. left.
      split; [|done]. simpl. by rewrite Hok.
  - eexists. split; [done|].
    right. exists req, None. split; [done|]. by left.
Qed.

(** Step 5: the events of one pass. *)
Lemma process_open_trace incident s :
  exists evs,
    trace (process_open env world incident s).2 = (trace s ++ evs)%list
    /\ pass_trace env UpdatedOpen (ID incident)
         (process_open env world incident s).1 evs.
Proof.
  unfold process_open.
  destruct (Js.js_get (trackedIncidents s) (ID incident)) as [tracked| |] eqn:Hg.
  2,3: exists []; split; [by rewrite app_nil_r | by left].
  destruct (Js.truthy (messageId tracked)) eqn:Hm; simpl.
  2: { exists []. split; [by rewrite app_nil_r | by left]. }
  name_call.
  assert (call_of env UpdatedOpen (ID incident) req) as Hcall.
  { apply update_call; try done.
    by destruct (messageId tracked) as [[|c m]|]. }
  destruct (fetch world n0 req) as [response|] eqn:Hf.
  2: { eexists. split; [done|].
       right. exists req, None. split; [done|]. by left. }
  destruct (adopt (ID incident) _ tracked _) as [tracked' s1] eqn:Had.
  assert (trace s1 = (trace s ++ [Notified UpdatedOpen (ID incident) req
                                    (Some response)])%list) as Ht1.
  { unfold adopt in Had. destruct (adopted_id _ response);
      injection Had as _ <-; simpl; by rewrite ?Hf. }
  destruct (ok response) eqn:Hok; simpl.
  - eexists. split; [rewrite Ht1; by rewrite <- app_assoc|].
    right. exists req, (Some response). split; [done|]. right.
    split; [simpl; by rewrite Hok|]. split; [done|]. eauto.
  - eexists. split; [exact Ht1|].
    right. exists req, (Some response). split; [done|]. left.
    split; [simpl; by rewrite Hok|]. done.
Qed.

(** Step 6: the events of one pass. *)
Lemma process_closed_trace incident s :
  exists evs,
    trace (process_closed env world incident s).2 = (trace s ++ evs)%list
    /\ pass_trace env NewlyClosed (ID incident)
         (process_closed env world incident s).1 evs.
Proof.
  unfold process_closed.
  destruct (Js.js_get (trackedIncidents s) (ID incident)) as [tracked| |] eqn:Hg.
  2,3: exists []; split; [by rewrite app_nil_r | by left].
  destruct (Js.truthy (messageId tracked)) eqn:Hm; simpl.
  2: { exists []. split; [by rewrite app_nil_r | by left]. }
  name_call.
  assert (call_of env NewlyClosed (ID incident) req) as Hcall.
  { apply update_call; try done.
    by destruct (messageId tracked) as [[|c m]|]. }
  destruct (fetch world n0 req) as [response|] eqn:Hf.
  2: { eexists. split; [done|].
       right. exists req, None. split; [done|]. by left. }
  destruct (ok response) eqn:Hok; simpl.
  - eexists. split; [by rewrite <- app_assoc|].
    right. exists req, (Some response). split; [done|]. right.
    split; [simpl; by rewrite Hok|]. split; [done|]. eauto.
  - eexists. split; [done|].
    right. exists req, (Some response). split; [done|]. left.
    split; [simpl; by rewrite Hok|]. done.
Qed.

(** Step 7: the events of one pass. *)
Lemma process_expired_trace id s :
  exists evs,
    trace (process_expired env world incidents id s).2 = (trace s ++ evs)%list
    /\ pass_trace env Expired id (process_expired env world incidents id s).1 evs.
Proof.
  unfold process_expired.
  destruct (Js.js_get (trackedIncidents s) id) as [tracked| |] eqn:Hg.
  2,3: exists []; split; [by rewrite app_nil_r | by left].
  destruct (Js.truthy (messageId tracked)) eqn:Hm; simpl.
  2: { exists []. split; [by rewrite app_nil_r | by left]. }
  name_call.
  assert (call_of env Expired id req) as Hcall.
  { apply update_call; try done.
    by destruct (messageId tracked) as [[|c m]|]. }
  destruct (fetch world n0 req) as [response|] eqn:Hf.
  2: { eexists. split; [done|].
       right. exists req, None. split; [done|]. by left. }
  destruct (ok response) eqn:Hok; simpl.
  - eexists. split; [by rewrite <- app_assoc|].
    right. exists req, (Some response). split; [done|]. right.
    split; [simpl; by rewrite Hok|]. split; [done|]. eauto.
  - eexists. split; [done|].
    right. exists req, (Some response). split; [done|]. left.
    split; [simpl; by rewrite Hok|]. done.
Qed.

(** The events of a loop whose passes are as above. *)
Lemma for_each_trace {A} t (idf : A -> string) (body : A -> State -> bool * State) :
  (forall x s, exists evs,
      trace (body x s).2 = (trace s ++ evs)%list
      /\ pass_trace env t (idf x) (body x s).1 evs) ->
  forall xs s, exists evs,
    trace (for_each body xs s).2 = (trace s ++ evs)%list
    /\ loop_trace env t (map idf xs) (for_each body xs s).1 evs.
Proof.
  intros Hbody xs. induction xs as [|x xs IH]; intros s; simpl.
  - exists []. split; [by rewrite app_nil_r | constructor].
  - destruct (Hbody x s) as (evs1 & Ht1 & Hp).
    destruct (body x s) as [counted s1]. simpl in *.
    destruct (IH s1) as (evs2 & Ht2 & Hl).
    destruct (for_each body xs s1) as [n s2]. simpl in *.
    exists (evs1 ++ evs2)%list. split.
    + by rewrite Ht2, Ht1, <- app_assoc.
    + by apply loop_pass.
Qed.

Lemma events_unique {A} (pre a e t : list A) :
  t = (pre ++ a)%list -> t = (pre ++ e)%list -> a = e.
Proof. intros -> H. by apply app_inv_head in H. Qed.

(** The run, loop by loop: its states, its events and the counters of its
    summary; the two instants are readings of the clock. *)
Lemma run_sweeps store :
  let r := run env world incidents store in
  let m0 := load_tracked store in
  exists n4 e4 e5 e6 e7 n7 n8 s4 s5 s6 s7,
    let now7 := now world n7 in
    let now8 := now world n8 in
    let m5 := trackedIncidents s5 in
    evolved m0 m5
    /\ trackedIncidents s4 = m0 /\ trackedIncidents s6 = m5
    /\ sweep world New (map ID (newOnes m0 incidents)) (start store) s4 e4
    /\ sweep world UpdatedOpen (map ID (openIncidents m0 incidents)) s4 s5 e5
    /\ sweep world NewlyClosed (map ID (newlyClosed m0 incidents)) s5 s6 e6
    /\ sweep world Expired (expiredIds m5 now7) s6 s7 e7
    /\ loop_trace env New (map ID (newOnes m0 incidents)) n4 e4
    /\ loop_trace env UpdatedOpen (map ID (openIncidents m0 incidents))
         (updatedOpenIncidents r.1) e5
    /\ loop_trace env NewlyClosed (map ID (newlyClosed m0 incidents))
         (closedIncidents r.1) e6
    /\ loop_trace env Expired (expiredIds m5 now7) (expiredIncidents r.1) e7
    /\ newIncidents r.1 = length (newOnes m0 incidents)
    /\ prunedIncidents r.1 = length (pruneIds m5 now8)
    /\ trace r.2
       = (e4 ++ e5 ++ e6 ++ e7
          ++ map (fun id => Deleted (incident_key id)) (pruneIds m5 now8))%list.
Proof.
  unfold run, step4, step5, step6, step7, step8.
  set (s0 := start store).
  destruct (for_each_sweep world New ID (process_new env world)
              (process_new_attempt env world)
              (newOnes (trackedIncidents s0) incidents) s0) as [a4 H4].
  destruct (for_each_trace New ID (process_new env world) process_new_trace
              (newOnes (trackedIncidents s0) incidents) s0) as (e4 & T4 & L4).
  destruct (for_each (process_new env world) _ s0) as [n4 s4].
  pose proof (events_unique _ _ _ _ (sweep_trace _ _ _ _ _ _ H4) T4) as ->.
  simpl in H4, T4, L4.
  pose proof (sweep_tracked_fixed _ New _ _ _ _ ltac:(done) H4) as Ht4.
  simpl in Ht4.
  destruct (for_each_sweep world UpdatedOpen ID (process_open env world)
              (process_open_attempt env world)
              (openIncidents (trackedIncidents s4) incidents) s4) as [a5 H5].
  destruct (for_each_trace UpdatedOpen ID (process_open env world)
              process_open_trace
              (openIncidents (trackedIncidents s4) incidents) s4)
    as (e5 & T5 & L5).
  destruct (for_each (process_open env world) _ s4) as [n5 s5].
  pose proof (events_unique _ _ _ _ (sweep_trace _ _ _ _ _ _ H5) T5) as ->.
  simpl in H5, T5, L5.
  pose proof (sweep_evolved _ _ _ _ _ _ H5) as Hev5.
  destruct (for_each_sweep world NewlyClosed ID (process_closed env world)
              (process_closed_attempt env world)
              (newlyClosed (trackedIncidents s5) incidents) s5) as [a6 H6].
  destruct (for_each_trace NewlyClosed ID (process_closed env world)
              process_closed_trace
              (newlyClosed (trackedIncidents s5) incidents) s5)
    as (e6 & T6 & L6).
  destruct (for_each (process_closed env world) _ s5) as [n6 s6].
  pose proof (events_unique _ _ _ _ (sweep_trace _ _ _ _ _ _ H6) T6) as ->.
  simpl in H6, T6, L6.
  pose proof (sweep_tracked_fixed _ NewlyClosed _ _ _ _ ltac:(done) H6) as Ht6.
  simpl.
  set (s6' := {| kv := kv s6; trackedIncidents := trackedIncidents s6;
                 trace := trace s6; tick := S (tick s6) |}).
  destruct (for_each_sweep world Expired (fun id => id)
              (process_expired env world incidents)
              (process_expired_attempt env world incidents)
              (expiredIds (trackedIncidents s6) (now world (tick s6))) s6')
    as [a7 H7].
  destruct (for_each_trace Expired (fun id => id)
              (process_expired env world incidents) process_expired_trace
              (expiredIds (trackedIncidents s6) (now world (tick s6))) s6')
    as (e7 & T7 & L7).
  rewrite map_id in H7, L7.
  destruct (for_each (process_expired env world incidents) _ s6') as [n7 s7].
  pose proof (events_unique _ _ _ _ (sweep_trace _ _ _ _ _ _ H7) T7) as ->.
  simpl in H7, T7, L7.
  pose proof (sweep_tracked_fixed _ Expired _ _ _ _ ltac:(done) H7) as Ht7.
  simpl in Ht7. simpl.
  set (s7' := {| kv := kv s7; trackedIncidents := trackedIncidents s7;
                 trace := trace s7; tick := S (tick s7) |}).
  pose proof (for_each_prune
                (pruneIds (trackedIncidents s7) (now world (tick s7))) s7')
    as H8.
  destruct (for_each process_prune _ s7') as [n8 s8].
  simpl in H8. destruct H8 as (_ & _ & Hc8 & Hn8). simpl.
  rewrite Ht4 in *. rewrite Ht7, Ht6 in *.
  rewrite (evolved_newlyClosed _ _ _ Hev5) in L6, H6.
  exists n4, e4, e5, e6, e7, (tick s6), (tick s7), s4, s5, s6, s7.
  cbv zeta. rewrite Ht6.
  split; [done|]. split; [done|]. split; [done|]. split; [done|].
  split; [done|]. split; [done|].
  split; [eapply sweep_same_l; [|exact H7]; by repeat split|].
  repeat split; try done.
  rewrite Hc8, T7, T6, T5, T4. simpl. by rewrite <- !app_assoc.
Qed.

(** The events of a run, loop by loop, and the counters of its summary. *)
Lemma run_trace store :
  let r := run env world incidents store in
  let m0 := load_tracked store in
  exists n4 e4 e5 e6 e7 now7 now8 m5,
    evolved m0 m5
    /\ loop_trace env New (map ID (newOnes m0 incidents)) n4 e4
    /\ loop_trace env UpdatedOpen (map ID (openIncidents m0 incidents))
         (updatedOpenIncidents r.1) e5
    /\ loop_trace env NewlyClosed (map ID (newlyClosed m0 incidents))
         (closedIncidents r.1) e6
    /\ loop_trace env Expired (expiredIds m5 now7) (expiredIncidents r.1) e7
    /\ newIncidents r.1 = length (newOnes m0 incidents)
    /\ prunedIncidents r.1 = length (pruneIds m5 now8)
    /\ trace r.2
       = (e4 ++ e5 ++ e6 ++ e7
          ++ map (fun id => Deleted (incident_key id)) (pruneIds m5 now8))%list.
Proof.
  destruct (run_sweeps store)
    as (n4 & e4 & e5 & e6 & e7 & n7 & n8 & s4 & s5 & s6 & s7
        & Hev & _ & _ & _ & _ & _ & _ & L4 & L5 & L6 & L7 & Hn & Hp & Ht).
  by exists n4, e4, e5, e6, e7, (now world n7), (now world n8),
       (trackedIncidents s5).
Qed.

End Passes.

Lemma count_app p evs1 evs2 :
  count p (evs1 ++ evs2) = (count p evs1 + count p evs2)%nat.
Proof. unfold count. by rewrite List.filter_app, length_app. Qed.

(** What the events of a loop are. *)
Lemma loop_trace_events env t ids n evs :
  loop_trace env t ids n evs ->
  Forall (fun e => match e with
                   | Notified t' id request _ =>
                       t' = t /\ id ∈ ids /\ call_of env t id request
                   | Put _ _ => True
                   | Deleted _ => False
                   end) evs.
Proof.
  induction 1 as [|id ids counted n evs1 evs2 Hp Hl IH]; [constructor|].
  apply Forall_app. split.
  - destruct Hp as [(_ & -> & _) | (req & resp & Hc & [(_ & -> & _) | (_ & _ & d & ->)])].
    + constructor.
    + apply Forall_cons. split; [|constructor].
      split; [done|]. split; [apply elem_of_cons; by left | done].
    + apply Forall_cons. split; [|by repeat constructor].
      split; [done|]. split; [apply elem_of_cons; by left | done].
  - eapply Forall_impl; [exact IH|]. intros [t' id' req resp| |]; [|done..].
    intros (? & ? & ?). split; [done|].
    split; [apply elem_of_cons; by right | done].
Qed.

(** How many of each there are, in a pass and in a loop. *)
Lemma pass_trace_counts env t id counted evs :
  pass_trace env t id counted evs ->
  count is_put evs = (if counted then 1 else 0)%nat
  /\ count (is_accepted_call t) evs = (if counted then 1 else 0)%nat
  /\ (forall t', t' <> t ->
        count (is_call t') evs = O /\ count (is_accepted_call t') evs = O)
  /\ (count (is_call t) evs <= 1)%nat
  /\ (t = New -> count (is_call t) evs = 1%nat)
  /\ count is_notified evs = count (is_call t) evs
  /\ count is_delete evs = O.
Proof.
  assert (forall t', t' <> t -> bool_decide (t = t') = false) as Hne
    by (intros t' H'; by apply bool_decide_eq_false_2).
  assert (bool_decide (t = t) = true) as Heq by (by apply bool_decide_eq_true_2).
  intros [(Ht & -> & ->)
         | (req & resp & Hc & [(Hacc & -> & ->) | (Hacc & -> & d & ->)])];
    unfold count; cbn [List.filter is_put is_accepted_call is_call is_notified
                         is_delete]; rewrite ?Heq, ?Hacc; cbn [andb length].
  - repeat split; try done; lia.
  - split; [done|]. split; [done|]. split.
    { intros t' H'. by rewrite (Hne t' H'). }
    split; [lia|]. done.
  - split; [done|]. split; [done|]. split.
    { intros t' H'. by rewrite (Hne t' H'). }
    split; [lia|]. done.
Qed.

Lemma loop_trace_counts env t ids n evs :
  loop_trace env t ids n evs ->
  count is_put evs = n
  /\ count (is_accepted_call t) evs = n
  /\ (forall t', t' <> t ->
        count (is_call t') evs = O /\ count (is_accepted_call t') evs = O)
  /\ (count (is_call t) evs <= length ids)%nat
  /\ (t = New -> count (is_call t) evs = length ids)
  /\ count is_notified evs = count (is_call t) evs
  /\ count is_delete evs = O.
Proof.
  induction 1 as [|id ids counted n evs1 evs2 Hp Hl IH].
  { repeat split; try done. }
  destruct IH as (I1 & I2 & I3 & I4 & I5 & I6 & I7).
  destruct (pass_trace_counts _ _ _ _ _ Hp) as (P1 & P2 & P3 & P4 & P5 & P6 & P7).
  rewrite !count_app, I1, I2, I6, I7, P1, P2, P6, P7. cbn [length].
  split; [by destruct counted|]. split; [by destruct counted|]. split.
  { intros t' H'. rewrite !count_app.
    destruct (I3 t' H') as [-> ->], (P3 t' H') as [-> ->]. done. }
  split; [lia|]. split; [|done].
  intros HN. rewrite (I5 HN), (P5 HN). done.
Qed.

Lemma paired_app evs1 evs2 : paired evs1 -> paired evs2 -> paired (evs1 ++ evs2).
Proof.
  induction 1 as [| t id req resp rest Hacc Hp IH
                  | t id req resp data rest Hacc Hp IH | key rest Hp IH];
    intros H2; simpl.
  - done.
  - apply paired_failed; auto.
  - apply paired_stored; auto.
  - apply paired_deleted; auto.
Qed.

Lemma loop_trace_paired env t ids n evs :
  loop_trace env t ids n evs -> paired evs.
Proof.
  induction 1 as [|id ids counted n evs1 evs2 Hp Hl IH]; [constructor|].
  apply paired_app; [|done].
  destruct Hp as [(_ & -> & _)
                 | (req & resp & Hc & [(Hacc & -> & _) | (Hacc & _ & d & ->)])].
  - constructor.
  - apply paired_failed; [done | constructor].
  - apply paired_stored; [done | constructor].
Qed.

Lemma paired_deletes (ids : list string) :
  paired (map (fun id => Deleted (incident_key id)) ids).
Proof. induction ids; simpl; constructor; done. Qed.

Lemma count_deletes (ids : list string) :
  let deletes := map (fun id => Deleted (incident_key id)) ids in
  count is_delete deletes = length ids
  /\ count is_put deletes = O /\ count is_notified deletes = O
  /\ forall t, count (is_call t) deletes = O
               /\ count (is_accepted_call t) deletes = O.
Proof.
  unfold count. induction ids as [|id ids (I1 & I2 & I3 & I4)]; [done|].
  cbn [map List.filter is_delete is_put is_notified is_call is_accepted_call
       length].
  rewrite I1. repeat split; try done; apply I4.
Qed.

Lemma count_le (p q : Event -> bool) evs :
  (forall e, p e = true -> q e = true) -> (count p evs <= count q evs)%nat.
Proof.
  intros H. unfold count. induction evs as [|e evs IH]; [done|]. simpl.
  destruct (p e) eqn:Hp; [rewrite (H e Hp); simpl; lia|].
  destruct (q e); simpl; lia.
Qed.

Lemma accepted_call_is_call t e : is_accepted_call t e = true -> is_call t e = true.
Proof. destruct e; simpl; [|done..]. by intros [? _]%andb_true_iff. Qed.

(** Each call of a run is as [call_of] has it. *)
Lemma run_calls env world incidents store :
  Forall (fun e => match e with
                   | Notified t id request _ => call_of env t id request
                   | _ => True
                   end)
    (trace (run env world incidents store).2).
Proof.
  destruct (run_trace env world incidents store)
    as (n4 & e4 & e5 & e6 & e7 & now7 & now8 & m5 & _
        & L4 & L5 & L6 & L7 & _ & _ & ->).
  assert (forall t ids n evs,
             loop_trace env t ids n evs ->
             Forall (fun e => match e with
                              | Notified t id request _ => call_of env t id request
                              | _ => True
                              end) evs) as H.
  { intros t ids n evs Hl. eapply Forall_impl; [by eapply loop_trace_events|].
    intros [t' id req resp| |]; [|done..]. by intros (-> & _ & ?). }
  repeat (apply Forall_app; split); eauto.
  apply Forall_forall. by intros e (id & -> & _)%list_elem_of_fmap.
Qed.

(** X18.  The counters of the summary against the events of the run.
    [newIncidents] counts the calls of step 4, accepted or not; the
    counters of steps 5 to 7 count the accepted calls of their steps, each
    followed by its [put]; [prunedIncidents] counts the deletions. *)
Theorem summary_counts_the_events env world incidents store :
  let summary := (run env world incidents store).1 in
  let events := trace (run env world incidents store).2 in
  newIncidents summary = count (is_call New) events
  /\ updatedOpenIncidents summary = count (is_accepted_call UpdatedOpen) events
  /\ closedIncidents summary = count (is_accepted_call NewlyClosed) events
  /\ expiredIncidents summary = count (is_accepted_call Expired) events
  /\ prunedIncidents summary = count is_delete events
  /\ count is_put events
     = (count (is_accepted_call New) events + updatedOpenIncidents summary
        + closedIncidents summary + expiredIncidents summary)%nat.
Proof.
  intros summary events. subst summary events.
  destruct (run_trace env world incidents store)
    as (n4 & e4 & e5 & e6 & e7 & now7 & now8 & m5 & _
        & L4 & L5 & L6 & L7 & -> & -> & ->).
  destruct (loop_trace_counts _ _ _ _ _ L4) as (A1 & A2 & A3 & _ & A5 & _ & A7).
  destruct (loop_trace_counts _ _ _ _ _ L5) as (B1 & B2 & B3 & _ & _ & _ & B7).
  destruct (loop_trace_counts _ _ _ _ _ L6) as (C1 & C2 & C3 & _ & _ & _ & C7).
  destruct (loop_trace_counts _ _ _ _ _ L7) as (D1 & D2 & D3 & _ & _ & _ & D7).
  destruct (count_deletes (pruneIds m5 now8)) as (E1 & E2 & _ & E4).
  cbv zeta in E1, E2, E4.
  rewrite !count_app, A1, A2, A7, B1, B2, B7, C1, C2, C7, D1, D2, D7, E1, E2.
  rewrite (A5 eq_refl), length_map.
  destruct (B3 New ltac:(done)) as [-> _], (C3 New ltac:(done)) as [-> _],
    (D3 New ltac:(done)) as [-> _], (E4 New) as [-> _].
  destruct (A3 UpdatedOpen ltac:(done)) as [_ ->],
    (C3 UpdatedOpen ltac:(done)) as [_ ->],
    (D3 UpdatedOpen ltac:(done)) as [_ ->], (E4 UpdatedOpen) as [_ ->].
  destruct (A3 NewlyClosed ltac:(done)) as [_ ->],
    (B3 NewlyClosed ltac:(done)) as [_ ->],
    (D3 NewlyClosed ltac:(done)) as [_ ->], (E4 NewlyClosed) as [_ ->].
  destruct (A3 Expired ltac:(done)) as [_ ->],
    (B3 Expired ltac:(done)) as [_ ->],
    (C3 Expired ltac:(done)) as [_ ->], (E4 Expired) as [_ ->].
  destruct (B3 New ltac:(done)) as [_ ->], (C3 New ltac:(done)) as [_ ->],
    (D3 New ltac:(done)) as [_ ->], (E4 New) as [_ ->].
  repeat split; lia.
Qed.

Lemma filter3_length {A} (p q r : A -> bool) (l : list A) :
  (forall x, p x = true -> q x = false /\ r x = false) ->
  (forall x, q x = true -> r x = false) ->
  (length (List.filter p l) + length (List.filter q l)
   + length (List.filter r l) <= length l)%nat.
Proof.
  intros Hp Hq. induction l as [|x l IH]; [done|]. simpl.
  destruct (p x) eqn:Ep.
  - destruct (Hp x Ep) as [-> ->]. simpl. lia.
  - destruct (q x) eqn:Eq.
    + rewrite (Hq x Eq). simpl. lia.
    + destruct (r x); simpl; lia.
Qed.

Lemma evolved_size m m' : evolved m m' -> size m = size m'.
Proof.
  intros Hev. rewrite <- !(size_dom (D := gset string)). f_equal.
  apply set_eq. intros id. rewrite !elem_of_dom. specialize (Hev id).
  destruct (m !! id), (m' !! id); try done; split; intros [? ?]; done.
Qed.

(** X19.  A run makes at most one call for each incident of the feed in
    steps 4 to 6, and at most one call or one deletion for each tracked
    record in steps 7 and 8; and it writes a record at most once a call. *)
Theorem run_is_bounded env world incidents store :
  let events := trace (run env world incidents store).2 in
  (count is_notified events + count is_delete events
   <= length incidents + size (load_tracked store))%nat
  /\ (count is_put events <= count is_notified events)%nat.
Proof.
  intros events. subst events.
  destruct (run_trace env world incidents store)
    as (n4 & e4 & e5 & e6 & e7 & now7 & now8 & m5 & Hev
        & L4 & L5 & L6 & L7 & _ & _ & ->).
  destruct (loop_trace_counts _ _ _ _ _ L4) as (A1 & A2 & _ & A4 & _ & A6 & A7).
  destruct (loop_trace_counts _ _ _ _ _ L5) as (B1 & B2 & _ & B4 & _ & B6 & B7).
  destruct (loop_trace_counts _ _ _ _ _ L6) as (C1 & C2 & _ & C4 & _ & C6 & C7).
  destruct (loop_trace_counts _ _ _ _ _ L7) as (D1 & D2 & _ & D4 & _ & D6 & D7).
  destruct (count_deletes (pruneIds m5 now8)) as (E1 & E2 & E3 & _).
  cbv zeta in E1, E2, E3.
  rewrite !count_app, A7, B7, C7, D7, E1, E2, E3, A6, B6, C6, D6.
  rewrite !length_map in *.
  pose proof (count_le _ _ e4 (accepted_call_is_call New)) as F4.
  pose proof (count_le _ _ e5 (accepted_call_is_call UpdatedOpen)) as F5.
  pose proof (count_le _ _ e6 (accepted_call_is_call NewlyClosed)) as F6.
  pose proof (count_le _ _ e7 (accepted_call_is_call Expired)) as F7.
  split; [|lia].
  assert (length (newOnes (load_tracked store) incidents)
          + length (openIncidents (load_tracked store) incidents)
          + length (newlyClosed (load_tracked store) incidents)
          <= length incidents)%nat as Hfeed.
  { apply filter3_length.
    - intros x [[Hn _]%andb_true_iff _]%andb_true_iff.
      assert (isTrackedAndOpen (load_tracked store) (ID x) = false) as ->; [|done].
      unfold isNew, isTrackedAndOpen in *.
      by destruct (Js.js_get (load_tracked store) (ID x)).
    - intros x [_ Hc%negb_true_iff]%andb_true_iff. rewrite Hc.
      apply andb_false_r. }
  assert (length (expiredIds m5 now7) + length (pruneIds m5 now8)
          <= size (load_tracked store))%nat as Hstore.
  { rewrite (evolved_size _ _ Hev), <- length_map_to_list.
    unfold expiredIds, pruneIds. rewrite !length_map.
    pose proof (filter3_length
                  (fun entry : string * StoredIncident =>
                     negb (closed entry.2)
                     && elapsed_more_than 24 hour now7 (lastUpdated entry.2))
                  (fun entry : string * StoredIncident =>
                     closed entry.2
                     && elapsed_more_than cutoffDays day now8 (lastUpdated entry.2))
                  (fun _ => false) (map_to_list m5)) as H3.
    rewrite (SelectionFacts.filter_nil_intro (fun _ => false)) in H3 by done.
    cbn [length] in H3. rewrite Nat.add_0_r in H3. apply H3; [|done].
    intros x [Hc%negb_true_iff _]%andb_true_iff. by rewrite Hc. }
  lia.
Qed.

Lemma paired_put evs :
  paired evs ->
  forall pre key data post,
    evs = (pre ++ Put key data :: post)%list ->
    exists pre' t id request response,
      pre = (pre' ++ [Notified t id request response])%list
      /\ key = incident_key id /\ accepted_b t response = true.
Proof.
  induction 1 as [| t id req resp rest Hacc Hp IH
                  | t id req resp d rest Hacc Hp IH | k rest Hp IH];
    intros pre key data post Heq.
  - by destruct pre.
  - destruct pre as [|e pre]; [done|]. injection Heq as <- Heq.
    destruct (IH _ _ _ _ Heq) as (pre' & t' & id' & rq & rs & -> & ? & ?).
    by exists (Notified t id req resp :: pre'), t', id', rq, rs.
  - destruct pre as [|e [|e' pre]]; [done| |].
    + injection Heq as <- <- <- _.
      by exists [], t, id, req, resp.
    + injection Heq as <- <- Heq.
      destruct (IH _ _ _ _ Heq) as (pre' & t' & id' & rq & rs & -> & ? & ?).
      by exists (Notified t id req resp :: Put (incident_key id) d :: pre'),
           t', id', rq, rs.
  - destruct pre as [|e pre]; [done|]. injection Heq as <- Heq.
    destruct (IH _ _ _ _ Heq) as (pre' & t' & id' & rq & rs & -> & ? & ?).
    by exists (Deleted k :: pre'), t', id', rq, rs.
Qed.

Lemma paired_call evs :
  paired evs ->
  forall pre t id request response post,
    evs = (pre ++ Notified t id request response :: post)%list ->
    accepted_b t response = true ->
    exists data post', post = Put (incident_key id) data :: post'.
Proof.
  induction 1 as [| t0 id0 req resp rest Hacc Hp IH
                  | t0 id0 req resp d rest Hacc Hp IH | k rest Hp IH];
    intros pre t id request response post Heq Ha.
  - by destruct pre.
  - destruct pre as [|e pre].
    + injection Heq as -> -> -> -> _. congruence.
    + injection Heq as _ Heq. by eapply IH.
  - destruct pre as [|e [|e' pre]].
    + injection Heq as -> -> -> -> <-. eauto.
    + done.
    + injection Heq as _ _ Heq. by eapply IH.
  - destruct pre as [|e pre]; [done|]. injection Heq as _ Heq. by eapply IH.
Qed.

Lemma run_paired env world incidents store :
  paired (trace (run env world incidents store).2).
Proof.
  destruct (run_trace env world incidents store)
    as (n4 & e4 & e5 & e6 & e7 & now7 & now8 & m5 & _
        & L4 & L5 & L6 & L7 & _ & _ & ->).
  repeat (apply paired_app; [by eapply loop_trace_paired|]).
  apply paired_deletes.
Qed.

(** X20.  A run writes a record exactly when a call was accepted: each
    [put] comes right after an accepted call for the identifier whose key
    it writes, and each accepted call is followed at once by the [put] of
    the record of its identifier. *)
Theorem puts_follow_accepted_calls env world incidents store :
  let events := trace (run env world incidents store).2 in
  (forall pre key data post,
      events = (pre ++ Put key data :: post)%list ->
      exists pre' t id request response,
        pre = (pre' ++ [Notified t id request response])%list
        /\ key = incident_key id /\ accepted t response)
  /\ (forall pre t id request response post,
        events = (pre ++ Notified t id request response :: post)%list ->
        accepted t response ->
        exists data post', post = Put (incident_key id) data :: post').
Proof.
  intros events.
  assert (paired events) as Hp by apply run_paired.
  split.
  - intros pre key data post Heq.
    destruct (paired_put _ Hp _ _ _ _ Heq)
      as (pre' & t & id & rq & rs & ? & ? & Ha%accepted_b_spec).
    by exists pre', t, id, rq, rs.
  - intros pre t id request response post Heq Ha%accepted_b_spec.
    by eapply paired_call.
Qed.

Lemma paired_no_put evs :
  paired evs ->
  Forall (fun e => match e with
                   | Notified t _ _ response => ~ accepted t response
                   | _ => True
                   end) evs ->
  Forall (fun e => is_put e = false) evs.
Proof.
  induction 1 as [| t id req resp rest Hacc Hp IH
                  | t id req resp d rest Hacc Hp IH | k rest Hp IH];
    intros Hno.
  - constructor.
  - apply Forall_cons in Hno as [_ Hno]. constructor; auto.
  - apply Forall_cons in Hno as [Hn _]. by apply accepted_b_spec in Hacc.
  - apply Forall_cons in Hno as [_ Hno]. constructor; auto.
Qed.

Lemma replay_no_put evs store key :
  Forall (fun e => is_put e = false) evs ->
  replay evs store !! key = store !! key
  \/ (replay evs store !! key = None /\ In (Deleted key) evs).
Proof.
  revert store. induction evs as [|e evs IH]; intros store Hno; [by left|].
  apply Forall_cons in Hno as [He Hno]. rewrite replay_cons.
  destruct (IH (apply_event store e) Hno) as [Heq|[Hn Hin]].
  - destruct e as [| |k]; simpl in *; [by left | done |].
    destruct (decide (k = key)) as [->|Hne].
    + right. split; [by rewrite Heq, lookup_delete_eq | by left].
    + left. by rewrite Heq, lookup_delete_ne.
  - right. split; [done | by right].
Qed.

(** X28.  A run in which no call is accepted writes no record: whatever
    the feed and the store, the namespace after it is the one before it
    without the records the pruning deleted. *)
Theorem a_run_without_an_accepted_call_writes_nothing env world incidents store :
  let final := (run env world incidents store).2 in
  Forall (fun e => match e with
                   | Notified t _ _ response => ~ accepted t response
                   | _ => True
                   end) (trace final) ->
  Forall (fun e => is_put e = false) (trace final)
  /\ forall key,
       kv final !! key = store !! key
       \/ (kv final !! key = None /\ In (Deleted key) (trace final)).
Proof.
  intros final Hno.
  assert (Forall (fun e => is_put e = false) (trace final)) as Hput
    by (apply paired_no_put; [apply run_paired | done]).
  split; [done|]. intros key. unfold final. rewrite run_replay.
  by apply replay_no_put.
Qed.

Lemma loop_trace_call env t ids n evs t' id request response :
  loop_trace env t ids n evs ->
  In (Notified t' id request response) evs -> t' = t /\ id ∈ ids.
Proof.
  intros Hl Hin. apply loop_trace_events in Hl. rewrite Forall_forall in Hl.
  apply list_elem_of_In, Hl in Hin. by destruct Hin as (? & ? & _).
Qed.

Lemma loop_trace_no_delete env t ids n evs key :
  loop_trace env t ids n evs -> ~ In (Deleted key) evs.
Proof.
  intros Hl Hin. apply loop_trace_events in Hl. rewrite Forall_forall in Hl.
  by apply list_elem_of_In, Hl in Hin.
Qed.

(** A sweep calls for each identifier of its list whose record has a message
    identifier. *)
Lemma sweep_calls world t ids s s' evs id :
  sweep world t ids s s' evs ->
  id ∈ ids ->
  (exists tracked,
      trackedIncidents s !! id = Some tracked
      /\ Js.truthy (messageId tracked) = true) ->
  exists request response, In (Notified t id request response) evs.
Proof.
  induction 1 as [s s' _ | id' ids s s1 s2 evs1 evs2 Ha Hw IH].
  { by intros ?%elem_of_nil. }
  intros Hin (tracked & Htr & Hm).
  destruct (decide (id = id')) as [<-|Hne].
  - destruct Ha as [Hn Hs _ | n req _ _ _ _ _ | n req data _ _ _ _].
    + specialize (Hs tracked Htr). congruence.
    + eexists _, _. apply in_or_app. left. by left.
    + eexists _, _. apply in_or_app. left. by left.
  - apply elem_of_cons in Hin as [|Hin]; [done|].
    destruct IH as (req & resp & Hev); [done| |].
    + destruct (evolved_Some _ _ _ _ (attempt_evolved _ _ _ _ _ _ Ha) Htr)
        as (tracked' & Htr' & Hre).
      exists tracked'. split; [done|].
      apply reidentified_fields in Hre as (_ & _ & _ & ->). done.
    + exists req, resp. apply in_or_app. by right.
Qed.

(** X15.  The pruning of step 8, the only deletion of a run: the run
    deletes exactly the records that were closed at its start and last
    updated more than three days before the reading of the clock of step 8.
    An open record is never deleted, nor a record closed three days ago to
    the millisecond; a deleted record is no longer in the store. *)
Theorem pruning_is_for_the_old_closed_records env world incidents store :
  store_keyed store ->
  let final := (run env world incidents store).2 in
  exists n,
    let now_ := now world n in
    (forall key,
        In (Deleted key) (trace final)
        <-> exists data,
              store !! key = Some data /\ closed data = true
              /\ cutoffDays * day < now_ - lastUpdated data)
    /\ (forall key, In (Deleted key) (trace final) -> kv final !! key = None).
Proof.
  intros Hwf final.
  destruct (run_sweeps env world incidents store)
    as (n4 & e4 & e5 & e6 & e7 & n7 & n8 & s4 & s5 & s6 & s7
        & Hev & _ & _ & _ & _ & _ & _ & L4 & L5 & L6 & L7 & _ & _ & Ht).
  cbv zeta in *. fold final in Ht.
  set (pruned := pruneIds (trackedIncidents s5) (now world n8)) in *.
  assert (forall key, In (Deleted key) (trace final)
                      <-> exists id, key = incident_key id /\ id ∈ pruned) as Hdel.
  { intros key. rewrite Ht. split.
    - intros Hin.
      repeat (apply in_app_or in Hin as [Hin|Hin];
              [by eapply loop_trace_no_delete in Hin|]).
      apply in_map_iff in Hin as (id & [= <-] & Hin).
      exists id. by rewrite list_elem_of_In.
    - intros (id & -> & Hin). do 4 (apply in_or_app; right).
      apply in_map_iff. exists id. by rewrite <- list_elem_of_In. }
  exists n8. split.
  - intros key. rewrite Hdel. split.
    + intros (id & -> & Hin).
      apply (evolved_pruneIds _ _ _ _ Hev), pruneIds_spec in Hin
        as (data & Hd & Hc & Hold).
      rewrite load_keyed in Hd by done. exists data.
      split; [done|]. split; [done|].
      unfold elapsed_more_than in Hold. by apply Z.ltb_lt in Hold.
    + intros (data & Hd & Hc & Hold).
      destruct (Hwf _ _ Hd) as [-> _].
      exists (pulsepointId data). split; [done|].
      apply (evolved_pruneIds _ _ _ _ Hev), pruneIds_spec. exists data.
      rewrite load_keyed by done. split; [done|]. split; [done|].
      unfold elapsed_more_than. by apply Z.ltb_lt.
  - intros key (id & -> & Hin)%Hdel. unfold final.
    rewrite run_replay. fold final. rewrite Ht, !app_assoc, replay_app.
    by apply StoreFacts.replay_deleted.
Qed.

(** X29.  The expiries of step 7: a run calls to expire a record exactly
    when the record it loaded is open, has a message identifier, and was
    last updated more than 24 hours before the reading of the clock of
    step 7, whether or not the feed lists its incident, and whatever steps
    5 and 6 did for it in the same run. *)
Theorem expiries_are_for_the_stale_open_records env world incidents store :
  exists n,
    let now_ := now world n in
    forall id,
      (exists request response,
          In (Notified Expired id request response)
            (trace (run env world incidents store).2))
      <-> exists data,
            load_tracked store !! id = Some data /\ closed data = false
            /\ Js.truthy (messageId data) = true
            /\ 24 * hour < now_ - lastUpdated data.
Proof.
  destruct (run_sweeps env world incidents store)
    as (n4 & e4 & e5 & e6 & e7 & n7 & n8 & s4 & s5 & s6 & s7
        & Hev & _ & Ht6 & _ & _ & _ & H7 & L4 & L5 & L6 & L7 & _ & _ & Ht).
  cbv zeta in *. exists n7. intros id. rewrite Ht. split.
  - intros (req & resp & Hin).
    apply in_app_or in Hin as [Hin|Hin].
    { by apply (loop_trace_call _ _ _ _ _ _ _ _ _ L4) in Hin as [? _]. }
    apply in_app_or in Hin as [Hin|Hin].
    { by apply (loop_trace_call _ _ _ _ _ _ _ _ _ L5) in Hin as [? _]. }
    apply in_app_or in Hin as [Hin|Hin].
    { by apply (loop_trace_call _ _ _ _ _ _ _ _ _ L6) in Hin as [? _]. }
    apply in_app_or in Hin as [Hin|Hin].
    2: { by apply in_map_iff in Hin as (? & ? & _). }
    pose proof (loop_trace_call _ _ _ _ _ _ _ _ _ L7 Hin) as [_ Hsel].
    apply (evolved_expiredIds _ _ _ _ Hev), expiredIds_spec in Hsel
      as (data & Hd & Hc & Hold).
    exists data. split; [done|]. split; [done|]. split.
    + apply sweep_events in H7. rewrite Forall_forall in H7.
      apply list_elem_of_In, H7 in Hin. simpl in Hin.
      destruct Hin as (_ & _ & Hu). destruct Hu as (tracked & Htr & Hm); [done|].
      rewrite Ht6 in Htr.
      destruct (evolved_Some _ _ _ _ Hev Hd) as (tracked' & Htr' & Hre).
      rewrite Htr in Htr'. injection Htr' as <-.
      apply reidentified_fields in Hre as (_ & _ & _ & Hsame). congruence.
    + unfold elapsed_more_than in Hold. by apply Z.ltb_lt in Hold.
  - intros (data & Hd & Hc & Hm & Hold).
    destruct (evolved_Some _ _ _ _ Hev Hd) as (tracked' & Htr' & Hre).
    destruct (sweep_calls _ _ _ _ _ _ id H7) as (req & resp & Hin).
    + apply (evolved_expiredIds _ _ _ _ Hev), expiredIds_spec.
      exists data. split; [done|]. split; [done|].
      unfold elapsed_more_than. by apply Z.ltb_lt.
    + exists tracked'. rewrite Ht6. split; [done|].
      apply reidentified_fields in Hre as (_ & _ & _ & ->). done.
    + exists req, resp. do 3 (apply in_or_app; right). apply in_or_app. by left.
Qed.

(** X30.  The updates of step 5 and the closings of step 6: a run calls to
    update, or to close, the message of an identifier exactly when the feed
    lists an incident of that identifier as active, or as closed, and the
    record it loaded for the identifier is open and has a message
    identifier. *)
Theorem updates_and_closings_are_for_the_tracked_open_incidents
    env world incidents store id :
  let events := trace (run env world incidents store).2 in
  let tracked_open :=
    exists data,
      load_tracked store !! id = Some data /\ closed data = false
      /\ Js.truthy (messageId data) = true in
  ((exists request response, In (Notified UpdatedOpen id request response) events)
   <-> (exists incident,
           In incident incidents /\ ID incident = id
           /\ is_closed incident = false)
       /\ tracked_open)
  /\ ((exists request response, In (Notified NewlyClosed id request response) events)
      <-> (exists incident,
              In incident incidents /\ ID incident = id
              /\ is_closed incident = true)
          /\ tracked_open).
Proof.
  intros events tracked_open. subst events tracked_open.
  pose proof (run_lawful env world incidents store) as Hlaw.
  rewrite Forall_forall in Hlaw.
  destruct (run_sweeps env world incidents store)
    as (n4 & e4 & e5 & e6 & e7 & n7 & n8 & s4 & s5 & s6 & s7
        & Hev & Ht4 & _ & _ & H5 & H6 & _ & _ & _ & _ & _ & _ & _ & Ht).
  cbv zeta in *. split.
  - split.
    + intros (req & resp & Hin%list_elem_of_In%Hlaw). simpl in Hin.
      destruct Hin as [Htr (incident & Hin & <-)%elem_of_map_ID].
      apply openIncidents_In in Hin as (Hin & _ & Hc).
      split; [by exists incident | done].
    + intros [(incident & Hin & <- & Hc) (data & Hd & Hcl & Hm)].
      destruct (sweep_calls _ _ _ _ _ _ (ID incident) H5) as (req & resp & Hev5).
      * apply elem_of_map_ID. exists incident. split; [|done].
        apply openIncidents_In. split; [done|]. split; [|done].
        rewrite (isTrackedAndOpen_Some _ _ _ Hd). by rewrite Hcl.
      * exists data. by rewrite Ht4.
      * exists req, resp. rewrite Ht. apply in_or_app. right.
        apply in_or_app. by left.
  - split.
    + intros (req & resp & Hin%list_elem_of_In%Hlaw). simpl in Hin.
      destruct Hin as [Htr (incident & Hin & <-)%elem_of_map_ID].
      apply newlyClosed_In in Hin as (Hin & _ & Hc).
      split; [by exists incident | done].
    + intros [(incident & Hin & <- & Hc) (data & Hd & Hcl & Hm)].
      destruct (evolved_Some _ _ _ _ Hev Hd) as (tracked' & Htr' & Hre).
      destruct (sweep_calls _ _ _ _ _ _ (ID incident) H6) as (req & resp & Hev6).
      * apply elem_of_map_ID. exists incident. split; [|done].
        apply newlyClosed_In. split; [done|]. split; [|done].
        rewrite (isTrackedAndOpen_Some _ _ _ Hd). by rewrite Hcl.
      * exists tracked'. split; [done|].
        apply reidentified_fields in Hre as (_ & _ & _ & ->). done.
      * exists req, resp. rewrite Ht. do 2 (apply in_or_app; right).
        apply in_or_app. by left.
Qed.

End TraceFacts.

(** ** What a run keeps of a record *)

Module RecordFacts.

Import Engine StepFacts SweepFacts SelectionFacts RunFacts.

Lemma adopted_id_fallback id response id' :
  adopted_id id response = Some id' -> isRealMessageId id = false.
Proof.
  unfold adopted_id. destruct (isRealMessageId id); [|done].
  destruct (ok response) eqn:Hok; cbn [negb]; [done|].
  unfold returned_id. by rewrite Hok.
Qed.

Lemma kept_adopted loaded tracked id :
  kept loaded tracked ->
  isRealMessageId (Js.template (messageId tracked)) = false ->
  kept loaded (with_messageId id tracked).
Proof.
  intros [->|(Hf & id0 & ->)] Hfb; right.
  - split; [|by eexists]. unfold has_real_id. by rewrite Hfb.
  - split; [done|]. by exists id.
Qed.

(** A loop keeps what each of its passes keeps. *)
Lemma for_each_invariant {A} (P : State -> Prop) (Q : A -> Prop)
    (body : A -> State -> bool * State) xs s :
  (forall x s, Q x -> P s -> P (body x s).2) ->
  Forall Q xs -> P s -> P (for_each body xs s).2.
Proof.
  intros Hbody. revert s. induction xs as [|x xs IH]; intros s HQ HP; [done|].
  apply Forall_cons in HQ as [Hx Hxs]. simpl.
  pose proof (Hbody x s Hx HP) as H1.
  destruct (body x s) as [counted s1]. simpl in H1.
  pose proof (IH s1 Hxs H1) as H2.
  by destruct (for_each body xs s1).
Qed.

Section Passes.

Variable env : Env.
Variable world : World.
Variable incidents : list Incident.
Variable m0 : gmap string StoredIncident.

Lemma keeping_call s t id request response :
  Forall (put_kept m0) (trace s) ->
  Forall (put_kept m0) (trace s ++ [Notified t id request response]).
Proof. intros H. apply Forall_app. split; [done|]. by repeat constructor. Qed.

Lemma keeping_call_put s t id request response key data :
  Forall (put_kept m0) (trace s) -> put_kept m0 (Put key data) ->
  Forall (put_kept m0)
    ((trace s ++ [Notified t id request response]) ++ [Put key data]).
Proof.
  intros H Hp. apply Forall_app. split; [by apply keeping_call|].
  by repeat constructor.
Qed.

Lemma process_new_keeping incident s :
  m0 !! ID incident = None ->
  keeping m0 s -> keeping m0 (process_new env world incident s).2.
Proof.
  intros Hnew [HK HT]. unfold process_new. simpl.
  match goal with |- context [fetch world ?n ?r] => set (n0 := n); set (req := r) end.
  destruct (fetch world n0 req) as [response|] eqn:Hf.
  2: { split; [done|]. by apply keeping_call. }
  destruct (ok response); simpl.
  2: { split; [done|]. by apply keeping_call. }
  destruct (new_messageId _ (body response)) as [id|].
  2: { split; [done|]. by apply keeping_call. }
  split; [done|]. simpl. apply keeping_call_put; [done|].
  intros id' loaded Hkey%incident_key_inj Hl. rewrite <- Hkey in Hl.
  congruence.
Qed.

Lemma process_open_keeping incident s :
  keeping m0 s -> keeping m0 (process_open env world incident s).2.
Proof.
  intros [HK HT]. unfold process_open.
  destruct (Js.js_get (trackedIncidents s) (ID incident)) as [tracked| |] eqn:Hg;
    [|done..].
  apply js_get_Own in Hg.
  destruct (Js.truthy (messageId tracked)) eqn:Hm; simpl; [|done].
  match goal with |- context [fetch world ?n ?r] => set (n0 := n); set (req := r) end.
  destruct (fetch world n0 req) as [response|] eqn:Hf.
  2: { split; [done|]. by apply keeping_call. }
  destruct (adopted_id (Js.template (messageId tracked)) response)
    as [id'|] eqn:Had; simpl.
  - pose proof (adopted_id_fallback _ _ _ Had) as Hfb.
    assert (forall id loaded,
               m0 !! id = Some loaded ->
               exists tracked0,
                 alter (with_messageId id') (ID incident) (trackedIncidents s)
                   !! id = Some tracked0
                 /\ kept loaded tracked0) as HK'.
    { intros id loaded Hl. destruct (HK id loaded Hl) as (tr & Htr & Hk).
      destruct (decide (ID incident = id)) as [<-|Hne].
      - rewrite lookup_alter_eq, Hg. eexists. split; [done|].
        rewrite Hg in Htr. injection Htr as <-. by apply kept_adopted.
      - rewrite lookup_alter_ne by done. eauto. }
    destruct (ok response); simpl.
    + split; [done|]. simpl. apply keeping_call_put; [done|].
      intros id loaded Hkey%incident_key_inj Hl. rewrite <- Hkey in Hl.
      destruct (HK (ID incident) loaded Hl) as (tr & Htr & Hk).
      rewrite Hg in Htr. injection Htr as <-.
      eexists (with_messageId id' tracked), _. split; [|by left].
      by apply kept_adopted.
    + split; [done|]. by apply keeping_call.
  - destruct (ok response); simpl.
    + split; [done|]. simpl. apply keeping_call_put; [done|].
      intros id loaded Hkey%incident_key_inj Hl. rewrite <- Hkey in Hl.
      destruct (HK (ID incident) loaded Hl) as (tr & Htr & Hk).
      rewrite Hg in Htr. injection Htr as <-.
      eexists tracked, _. split; [done | by left].
    + split; [done|]. by apply keeping_call.
Qed.

Lemma process_closed_keeping incident s :
  keeping m0 s -> keeping m0 (process_closed env world incident s).2.
Proof.
  intros [HK HT]. unfold process_closed.
  destruct (Js.js_get (trackedIncidents s) (ID incident)) as [tracked| |] eqn:Hg;
    [|done..].
  apply js_get_Own in Hg.
  destruct (Js.truthy (messageId tracked)) eqn:Hm; simpl; [|done].
  match goal with |- context [fetch world ?n ?r] => set (n0 := n); set (req := r) end.
  destruct (fetch world n0 req) as [response|] eqn:Hf.
  2: { split; [done|]. by apply keeping_call. }
  destruct (ok response); simpl.
  - split; [done|]. simpl. apply keeping_call_put; [done|].
    intros id loaded Hkey%incident_key_inj Hl. rewrite <- Hkey in Hl.
    destruct (HK (ID incident) loaded Hl) as (tr & Htr & Hk).
    rewrite Hg in Htr. injection Htr as <-.
    eexists tracked, _. split; [done | by right].
  - split; [done|]. by apply keeping_call.
Qed.

Lemma process_expired_keeping id s :
  keeping m0 s -> keeping m0 (process_expired env world incidents id s).2.
Proof.
  intros [HK HT]. unfold process_expired.
  destruct (Js.js_get (trackedIncidents s) id) as [tracked| |] eqn:Hg;
    [|done..].
  apply js_get_Own in Hg.
  destruct (Js.truthy (messageId tracked)) eqn:Hm; simpl; [|done].
  match goal with |- context [fetch world ?n ?r] => set (n0 := n); set (req := r) end.
  destruct (fetch world n0 req) as [response|] eqn:Hf.
  2: { split; [done|]. by apply keeping_call. }
  destruct (ok response); simpl.
  - split; [done|]. simpl. apply keeping_call_put; [done|].
    intros id' loaded Hkey%incident_key_inj Hl. rewrite <- Hkey in Hl.
    destruct (HK id loaded Hl) as (tr & Htr & Hk).
    rewrite Hg in Htr. injection Htr as <-.
    eexists tracked, _. split; [done | by right].
  - split; [done|]. by apply keeping_call.
Qed.

Lemma process_prune_keeping id s :
  keeping m0 s -> keeping m0 (process_prune id s).2.
Proof.
  intros [HK HT]. split; [done|]. simpl.
  apply Forall_app. split; [done|]. by repeat constructor.
Qed.

End Passes.

Lemma run_keeping env world incidents store :
  keeping (load_tracked store) (run env world incidents store).2.
Proof.
  set (m0 := load_tracked store).
  assert (keeping m0 (start store)) as H0.
  { split; [|constructor]. intros id loaded Hl. exists loaded. split; [done|].
    by left. }
  unfold run, step4, step5, step6, step7, step8.
  pose proof (for_each_invariant (keeping m0) (fun x => m0 !! ID x = None)
                (process_new env world)
                (newOnes (trackedIncidents (start store)) incidents) (start store)
                (fun x s => process_new_keeping env world m0 x s)) as H4.
  destruct (for_each (process_new env world) _ (start store)) as [n4 s4].
  simpl in H4.
  assert (keeping m0 s4) as K4.
  { apply H4; [|done]. apply Forall_forall. intros x Hx%list_elem_of_In.
    apply newOnes_In in Hx as (_ & Hn & _). by apply isNew_spec in Hn as [? _]. }
  pose proof (for_each_invariant (keeping m0) (fun _ => True)
                (process_open env world)
                (openIncidents (trackedIncidents s4) incidents) s4
                (fun x s _ => process_open_keeping env world m0 x s)) as H5.
  destruct (for_each (process_open env world) _ s4) as [n5 s5]. simpl in H5.
  assert (keeping m0 s5) as K5 by (apply H5; [by apply Forall_forall | done]).
  pose proof (for_each_invariant (keeping m0) (fun _ => True)
                (process_closed env world)
                (newlyClosed (trackedIncidents s5) incidents) s5
                (fun x s _ => process_closed_keeping env world m0 x s)) as H6.
  destruct (for_each (process_closed env world) _ s5) as [n6 s6]. simpl in H6.
  assert (keeping m0 s6) as K6 by (apply H6; [by apply Forall_forall | done]).
  simpl.
  set (s6' := {| kv := kv s6; trackedIncidents := trackedIncidents s6;
                 trace := trace s6; tick := S (tick s6) |}).
  pose proof (for_each_invariant (keeping m0) (fun _ => True)
                (process_expired env world incidents)
                (expiredIds (trackedIncidents s6) (now world (tick s6))) s6'
                (fun x s _ => process_expired_keeping env world incidents m0 x s))
    as H7.
  destruct (for_each (process_expired env world incidents) _ s6') as [n7 s7].
  simpl in H7.
  assert (keeping m0 s7) as K7 by (apply H7; [by apply Forall_forall | done]).
  simpl.
  set (s7' := {| kv := kv s7; trackedIncidents := trackedIncidents s7;
                 trace := trace s7; tick := S (tick s7) |}).
  pose proof (for_each_invariant (keeping m0) (fun _ => True) process_prune
                (pruneIds (trackedIncidents s7) (now world (tick s7))) s7'
                (fun x s _ => process_prune_keeping m0 x s)) as H8.
  destruct (for_each process_prune _ s7') as [n8 s8]. simpl in H8.
  assert (keeping m0 s8) as K8 by (apply H8; [by apply Forall_forall | done]).
  exact K8.
Qed.

(** X21.  What a run keeps of a record it writes again: the identifier of
    the incident, the instant of the call and the display type are those
    the store had, so the type an incident was announced with is the one
    its later messages are titled and routed by; and a message identifier
    that is no fallback is never replaced. *)
Theorem a_run_keeps_what_a_record_says env world incidents store id old data :
  store_keyed store ->
  store !! incident_key id = Some old ->
  In (Put (incident_key id) data) (trace (run env world incidents store).2) ->
  pulsepointId data = pulsepointId old
  /\ callReceived data = callReceived old
  /\ displayIncidentCallType data = displayIncidentCallType old
  /\ (has_real_id old -> messageId data = messageId old).
Proof.
  intros Hwf Hold Hin.
  destruct (run_keeping env world incidents store) as [_ HT].
  rewrite Forall_forall in HT. apply list_elem_of_In, HT in Hin.
  destruct (Hin id old eq_refl) as (tracked & at_ & Hk & Hd).
  { by rewrite load_keyed. }
  assert (pulsepointId tracked = pulsepointId old
          /\ callReceived tracked = callReceived old
          /\ displayIncidentCallType tracked = displayIncidentCallType old
          /\ (has_real_id old -> messageId tracked = messageId old)) as Hf.
  { destruct Hk as [->|(Hfb & id' & ->)]; [done|]. by repeat split. }
  destruct Hd as [-> | ->]; exact Hf.
Qed.

End RecordFacts.
(** ** The calls of a run, one by one *)

Module CallFacts.

Import Engine StepFacts SweepFacts SelectionFacts RunFacts.

Lemma under_messageId tracked : under (messageId tracked) tracked = tracked.
Proof. by destruct tracked. Qed.

Lemma under_with_messageId id mid loaded :
  with_messageId id (under mid loaded) = under (Some id) loaded.
Proof. done. Qed.

Lemma current_app evs1 evs2 id loaded :
  current_messageId (evs1 ++ evs2) id loaded
  = foldl (reassign id) (current_messageId evs1 id loaded) evs2.
Proof. unfold current_messageId. by rewrite foldl_app. Qed.

(** Only a fallback identifier is replaced. *)
Lemma reassign_real id mid e :
  isRealMessageId (Js.template mid) = true -> reassign id mid e = mid.
Proof.
  intros Hreal. destruct e as [[] id' req [resp|] | |]; try done. simpl.
  case_bool_decide; [|done].
  destruct (adopted_id _ resp) as [new|] eqn:Had; [|done].
  apply RecordFacts.adopted_id_fallback in Had. congruence.
Qed.

Lemma current_real evs id loaded :
  has_real_id loaded -> current_messageId evs id loaded = messageId loaded.
Proof.
  unfold current_messageId, has_real_id. generalize (messageId loaded) as mid.
  induction evs as [|e evs IH]; intros mid Hreal; [done|]. simpl.
  rewrite reassign_real by done. by apply IH.
Qed.

Lemma call_shape_update base mid embed :
  call_shape base mid (update_request base mid embed).
Proof. unfold call_shape, update_request. by destruct (isRealMessageId mid). Qed.

Section Passes.

Variable env : Env.
Variable world : World.
Variable incidents : list Incident.
Variable m0 : gmap string StoredIncident.

Local Abbreviation event_described := (event_described env world incidents m0).
Local Abbreviation described_from := (described_from env world incidents m0).
Local Abbreviation described := (described env world incidents m0).

Lemma described_from_app pre evs1 evs2 :
  described_from pre (evs1 ++ evs2)
  <-> described_from pre evs1 /\ described_from (pre ++ evs1) evs2.
Proof.
  revert pre. induction evs1 as [|e evs1 IH]; intros pre; simpl.
  - rewrite app_nil_r. tauto.
  - rewrite IH, <- app_assoc. simpl. tauto.
Qed.

Lemma described_from_at pre0 evs pre e post :
  described_from pre0 evs -> evs = (pre ++ e :: post)%list ->
  event_described (pre0 ++ pre) e.
Proof.
  intros H ->. apply described_from_app in H as [_ H]. simpl in H. tauto.
Qed.

(** A step that leaves [trackedIncidents] and whose events assign no
    message identifier. *)
Lemma described_step s s' evs :
  described s ->
  trackedIncidents s' = trackedIncidents s ->
  trace s' = (trace s ++ evs)%list ->
  (forall id loaded,
      m0 !! id = Some loaded ->
      foldl (reassign id) (current_messageId (trace s) id loaded) evs
      = current_messageId (trace s) id loaded) ->
  described_from (trace s) evs ->
  described s'.
Proof.
  intros [HK HT] Htr Hev Hsame Hd. split.
  - intros id. rewrite Htr, HK, Hev.
    destruct (m0 !! id) as [loaded|] eqn:Hl; [|done]. simpl.
    by rewrite current_app, Hsame.
  - rewrite Hev. apply described_from_app. by split.
Qed.

Lemma process_new_described incident s :
  In incident incidents ->
  described s -> described (process_new env world incident s).2.
Proof.
  intros Hin Hd. unfold process_new. simpl.
  match goal with |- context [fetch world ?n ?r] => set (n0 := n); set (req := r) end.
  assert (forall resp,
             event_described (trace s) (Notified New (ID incident) req resp))
    as Hcall.
  { intros resp. exists incident. by repeat split. }
  destruct (fetch world n0 req) as [response|] eqn:Hf.
  2: { eapply (described_step s); [done|done|done|done|]. by split. }
  destruct (ok response); simpl.
  2: { eapply (described_step s); [done|done|done|done|]. by split. }
  destruct (new_messageId _ (body response)) as [id|] eqn:Hid.
  2: { eapply (described_step s); [done|done|done|done|]. by split. }
  eapply (described_step s);
    [done | done | simpl; by rewrite <- app_assoc | done |].
  split; [done|]. split; [|done].
  unfold event_described. rewrite last_snoc.
  split; [done|]. split; [done|]. split; [done|]. split; [done|].
  split; [done|]. exists (tick s), (S (S (S (tick s)))).
  split; [lia|]. split; [|done]. simpl. exact Hid.
Qed.

Lemma process_open_described incident s :
  In incident incidents ->
  described s -> described (process_open env world incident s).2.
Proof.
  intros Hin Hd. pose proof Hd as [HK HT]. unfold process_open.
  destruct (Js.js_get (trackedIncidents s) (ID incident)) as [tracked| |] eqn:Hg;
    [|done..].
  apply js_get_Own in Hg.
  destruct (Js.truthy (messageId tracked)) eqn:Hm; simpl; [|done].
  match goal with |- context [fetch world ?n ?r] => set (n0 := n); set (req := r) end.
  pose proof (HK (ID incident)) as Hk. rewrite Hg in Hk.
  destruct (m0 !! ID incident) as [loaded|] eqn:Hl; [|done].
  simpl in Hk. injection Hk as Hk.
  assert (messageId tracked = current_messageId (trace s) (ID incident) loaded)
    as Hmid by (by rewrite Hk).
  assert (forall resp,
             event_described (trace s) (Notified UpdatedOpen (ID incident) req resp))
    as Hcall.
  { intros resp. exists incident, loaded. repeat split; try done.
    rewrite <- Hmid. apply call_shape_update. }
  destruct (fetch world n0 req) as [response|] eqn:Hf.
  2: { eapply (described_step s); [done|done|done|done|]. by split. }
  destruct (adopted_id (Js.template (messageId tracked)) response)
    as [id'|] eqn:Had; simpl.
  - assert (forall rest,
               (forall id mid, foldl (reassign id) mid rest = mid) ->
               forall id,
                 alter (with_messageId id') (ID incident) (trackedIncidents s) !! id
                 = (fun loaded0 =>
                      under
                        (current_messageId
                           ((trace s ++ [Notified UpdatedOpen (ID incident) req
                                           (Some response)]) ++ rest)
                           id loaded0)
                        loaded0) <$> m0 !! id) as HK'.
    { intros rest Hrest id. destruct (decide (ID incident = id)) as [<-|Hne].
      - rewrite lookup_alter_eq, Hg, Hl. simpl. f_equal.
        rewrite !current_app, Hrest. simpl.
        rewrite bool_decide_eq_true_2 by done.
        rewrite <- Hmid, Had. by rewrite Hk.
      - rewrite lookup_alter_ne by done. rewrite HK.
        destruct (m0 !! id) as [l|]; [|done]. simpl. f_equal.
        rewrite !current_app, Hrest. simpl.
        by rewrite bool_decide_eq_false_2. }
    destruct (ok response); simpl.
    + split; [by apply HK'|]. simpl.
      apply described_from_app. split.
      * apply described_from_app. split; [done | by split].
      * simpl. rewrite last_snoc. by split.
    + split.
      * intros id. specialize (HK' [] ltac:(done) id).
        by rewrite app_nil_r in HK'.
      * simpl. apply described_from_app. split; [done | by split].
  - assert (forall id loaded0 rest,
               (forall mid, foldl (reassign id) mid rest = mid) ->
               m0 !! id = Some loaded0 ->
               foldl (reassign id) (current_messageId (trace s) id loaded0)
                 (Notified UpdatedOpen (ID incident) req (Some response) :: rest)
               = current_messageId (trace s) id loaded0) as Hsame.
    { intros id loaded0 rest Hrest Hl0. simpl. rewrite Hrest.
      case_bool_decide as Hid; [|done]. subst id.
      assert (loaded0 = loaded) as -> by congruence.
      by rewrite <- Hmid, Had. }
    destruct (ok response); simpl.
    + eapply (described_step s);
        [done | done | simpl; by rewrite <- app_assoc | |].
      * intros id loaded0. by apply Hsame.
      * split; [done|]. split; [|done].
        unfold Engine.event_described. by rewrite last_snoc.
    + eapply (described_step s); [done | done | done | |].
      * intros id loaded0. by apply Hsame.
      * by split.
Qed.

(** Steps 6 and 7 leave [trackedIncidents]. *)
Lemma described_update s s' t id request response rest :
  t = NewlyClosed \/ t = Expired ->
  described s ->
  trackedIncidents s' = trackedIncidents s ->
  trace s' = (trace s ++ Notified t id request response :: rest)%list ->
  event_described (trace s) (Notified t id request response) ->
  rest = [] \/ (exists key data, rest = [Put key data]) ->
  described s'.
Proof.
  intros Ht Hd Htr Hev Hcall Hrest.
  eapply (described_step s); [done | done | exact Hev | |].
  - intros id0 loaded _.
    destruct Ht as [-> | ->], Hrest as [-> | (key & data & ->)]; done.
  - split; [done|].
    destruct Hrest as [-> | (key & data & ->)]; [done|].
    split; [|done]. unfold Engine.event_described. rewrite last_snoc.
    by destruct Ht as [-> | ->].
Qed.

Lemma process_closed_described incident s :
  In incident incidents ->
  described s -> described (process_closed env world incident s).2.
Proof.
  intros Hin Hd. pose proof Hd as [HK HT]. unfold process_closed.
  destruct (Js.js_get (trackedIncidents s) (ID incident)) as [tracked| |] eqn:Hg;
    [|done..].
  apply js_get_Own in Hg.
  destruct (Js.truthy (messageId tracked)) eqn:Hm; simpl; [|done].
  match goal with |- context [fetch world ?n ?r] => set (n0 := n); set (req := r) end.
  pose proof (HK (ID incident)) as Hk. rewrite Hg in Hk.
  destruct (m0 !! ID incident) as [loaded|] eqn:Hl; [|done].
  simpl in Hk. injection Hk as Hk.
  assert (messageId tracked = current_messageId (trace s) (ID incident) loaded)
    as Hmid by (by rewrite Hk).
  assert (forall resp,
             event_described (trace s) (Notified NewlyClosed (ID incident) req resp))
    as Hcall.
  { intros resp. exists incident, loaded. repeat split; try done.
    rewrite <- Hmid. apply call_shape_update. }
  destruct (fetch world n0 req) as [response|] eqn:Hf.
  2: { eapply (described_update s); [by left|done|done|done|done|by left]. }
  destruct (ok response); simpl.
  - eapply (described_update s);
      [by left | done | done | simpl; by rewrite <- app_assoc | done |].
    right. eauto.
  - eapply (described_update s); [by left|done|done|done|done|by left].
Qed.

Lemma process_expired_described id s :
  described s -> described (process_expired env world incidents id s).2.
Proof.
  intros Hd. pose proof Hd as [HK HT]. unfold process_expired.
  destruct (Js.js_get (trackedIncidents s) id) as [tracked| |] eqn:Hg;
    [|done..].
  apply js_get_Own in Hg.
  destruct (Js.truthy (messageId tracked)) eqn:Hm; simpl; [|done].
  match goal with |- context [fetch world ?n ?r] => set (n0 := n); set (req := r) end.
  pose proof (HK id) as Hk. rewrite Hg in Hk.
  destruct (m0 !! id) as [loaded|] eqn:Hl; [|done].
  simpl in Hk. injection Hk as Hk.
  assert (messageId tracked = current_messageId (trace s) id loaded)
    as Hmid by (by rewrite Hk).
  assert (displayIncidentCallType tracked = displayIncidentCallType loaded)
    as Htype by (by rewrite Hk).
  assert (forall resp, event_described (trace s) (Notified Expired id req resp))
    as Hcall.
  { intros resp. exists loaded. split; [done|].
    rewrite <- Hmid, <- Htype. apply call_shape_update. }
  destruct (fetch world n0 req) as [response|] eqn:Hf.
  2: { eapply (described_update s); [by right|done|done|done|done|by left]. }
  destruct (ok response); simpl.
  - eapply (described_update s);
      [by right | done | done | simpl; by rewrite <- app_assoc | done |].
    right. eauto.
  - eapply (described_update s); [by right|done|done|done|done|by left].
Qed.

Lemma process_prune_described id s :
  described s -> described (process_prune id s).2.
Proof.
  intros Hd. eapply (described_step s); [done | done | done | done |].
  by split.
Qed.

End Passes.

Lemma current_untouched pre id loaded :
  Forall (fun e => forall request response,
              e <> Notified UpdatedOpen id request response) pre ->
  current_messageId pre id loaded = messageId loaded.
Proof.
  unfold current_messageId. generalize (messageId loaded) as mid.
  induction pre as [|e pre IH]; intros mid Hpre; [done|].
  apply Forall_cons in Hpre as [He Hpre]. simpl.
  assert (reassign id mid e = mid) as ->; [|by apply IH].
  destruct e as [[] id' req [resp|] | |]; try done. simpl.
  case_bool_decide as Hid; [|done]. subst id'. by destruct (He req (Some resp)).
Qed.

(** The run, event by event. *)
Lemma run_described env world incidents store :
  described env world incidents (load_tracked store)
    (run env world incidents store).2.
Proof.
  set (m0 := load_tracked store).
  set (P := described env world incidents m0).
  assert (P (start store)) as H0.
  { split; [|done]. intros id. simpl. fold m0.
    destruct (m0 !! id) as [loaded|]; [|done]. simpl.
    unfold current_messageId. simpl. by rewrite under_messageId. }
  assert (forall (f : Incident -> bool),
             Forall (fun x => In x incidents) (List.filter f incidents)) as Hsel.
  { intros f. apply Forall_forall. intros x Hx%list_elem_of_In.
    by apply filter_In in Hx as [? _]. }
  unfold run, step4, step5, step6, step7, step8.
  pose proof (RecordFacts.for_each_invariant P (fun x => In x incidents)
                (process_new env world)
                (newOnes (trackedIncidents (start store)) incidents) (start store)
                (process_new_described env world incidents m0)) as H4.
  destruct (for_each (process_new env world) _ (start store)) as [n4 s4].
  simpl in H4.
  assert (P s4) as K4 by (apply H4; [apply Hsel | done]).
  pose proof (RecordFacts.for_each_invariant P (fun x => In x incidents)
                (process_open env world)
                (openIncidents (trackedIncidents s4) incidents) s4
                (process_open_described env world incidents m0)) as H5.
  destruct (for_each (process_open env world) _ s4) as [n5 s5]. simpl in H5.
  assert (P s5) as K5 by (apply H5; [apply Hsel | done]).
  pose proof (RecordFacts.for_each_invariant P (fun x => In x incidents)
                (process_closed env world)
                (newlyClosed (trackedIncidents s5) incidents) s5
                (process_closed_described env world incidents m0)) as H6.
  destruct (for_each (process_closed env world) _ s5) as [n6 s6]. simpl in H6.
  assert (P s6) as K6 by (apply H6; [apply Hsel | done]).
  simpl.
  set (s6' := {| kv := kv s6; trackedIncidents := trackedIncidents s6;
                 trace := trace s6; tick := S (tick s6) |}).
  pose proof (RecordFacts.for_each_invariant P (fun _ => True)
                (process_expired env world incidents)
                (expiredIds (trackedIncidents s6) (now world (tick s6))) s6'
                (fun x s _ => process_expired_described env world incidents m0 x s))
    as H7.
  destruct (for_each (process_expired env world incidents) _ s6') as [n7 s7].
  simpl in H7.
  assert (P s7) as K7 by (apply H7; [by apply Forall_forall | done]).
  simpl.
  set (s7' := {| kv := kv s7; trackedIncidents := trackedIncidents s7;
                 trace := trace s7; tick := S (tick s7) |}).
  pose proof (RecordFacts.for_each_invariant P (fun _ => True) process_prune
                (pruneIds (trackedIncidents s7) (now world (tick s7))) s7'
                (fun x s _ => process_prune_described env world incidents m0 x s))
    as H8.
  destruct (for_each process_prune _ s7') as [n8 s8]. simpl in H8.
  assert (P s8) as K8 by (apply H8; [by apply Forall_forall | done]).
  exact K8.
Qed.

Lemma run_event env world incidents store pre e post :
  trace (run env world incidents store).2 = (pre ++ e :: post)%list ->
  event_described env world incidents (load_tracked store) pre e.
Proof.
  intros Ht. destruct (run_described env world incidents store) as [_ Hd].
  exact (described_from_at env world incidents _ [] _ pre e post Hd Ht).
Qed.

(** X12.  The webhook of a call.  A call of steps 4 to 6 goes to the webhook
    of the display type of an incident of the feed that has the identifier
    of the call, a call of step 7 to the webhook of the display type of the
    record step 3 loaded for the identifier, whatever the feed says: the
    standby webhook for the display type [Standby], the main one for any
    other.  And of all the raw codes, listed or not, [STBY] alone is given
    that display type. *)
Theorem calls_are_routed_by_the_display_type :
  (forall env world incidents store t id request response,
      In (Notified t id request response)
        (trace (run env world incidents store).2) ->
      exists callType,
        match t with
        | Expired =>
            exists loaded,
              load_tracked store !! id = Some loaded
              /\ callType = displayIncidentCallType loaded
        | _ =>
            exists incident,
              In incident incidents /\ ID incident = id
              /\ callType = DisplayIncidentCallType incident
        end
        /\ let base :=
             if bool_decide (callType = Some "Standby")
             then DISCORD_STANDBY_WEBHOOK_URL env
             else DISCORD_WEBHOOK_URL env in
           match t with
           | New => method request = POST /\ req_url request = base ++ "?wait=true"
           | _ =>
               (method request = POST /\ req_url request = base)
               \/ (method request = PATCH
                   /\ exists mid, req_url request = base ++ "/messages/" ++ mid)
           end)
  /\ (forall env callType,
        match Normalizer.mapIncidentCallType callType with
        | Normalizer.Shown display =>
            webhook env (Some display)
            = if bool_decide (callType = Some "STBY")
              then DISCORD_STANDBY_WEBHOOK_URL env
              else DISCORD_WEBHOOK_URL env
        | Normalizer.Member name => name ∈ Js.inherited_names
        end).
Proof.
  split; [|apply TableFacts.webhook_of_a_code].
  intros env world incidents store t id request response Hin.
  apply in_split in Hin as (pre & post & Ht).
  apply run_event in Ht.
  assert (forall base mid,
             call_shape base mid request ->
             (method request = POST /\ req_url request = base)
             \/ (method request = PATCH
                 /\ exists mid, req_url request = base ++ "/messages/" ++ mid))
    as Hshape.
  { intros base mid. unfold call_shape.
    destruct (isRealMessageId mid); [|by left].
    intros [? ?]. right. eauto. }
  destruct t; simpl in Ht.
  - destruct Ht as (incident & Hi & Hid & Hm & Hu & _).
    exists (DisplayIncidentCallType incident). split; [by exists incident|].
    done.
  - destruct Ht as (incident & loaded & Hi & Hid & _ & Hc).
    exists (DisplayIncidentCallType incident). split; [by exists incident|].
    by eapply Hshape.
  - destruct Ht as (incident & loaded & Hi & Hid & _ & Hc).
    exists (DisplayIncidentCallType incident). split; [by exists incident|].
    by eapply Hshape.
  - destruct Ht as (loaded & Hl & Hc).
    exists (displayIncidentCallType loaded). split; [by exists loaded|].
    by eapply Hshape.
Qed.

(** X17.  What a call is.  Each call of a run goes to one of the two
    webhooks of the environment, with an embed that names the identifier of
    the incident in its footer and its link, red for a new and an updated
    incident, grey for a closed and an expired one.  Step 4 creates a
    message and waits for it.  Steps 5 to 7 work on the message identifier
    the record of the incident has by then: they patch the message of that
    identifier, or create a message when it is a fallback.  That identifier
    is the one step 3 loaded, until step 5 assigns the one an accepted
    response carried; it is the loaded one whenever that one is no fallback,
    and whenever no call of step 5 for the incident came before. *)
Theorem every_call_goes_to_a_webhook
    env world incidents store pre t id request response post :
  trace (run env world incidents store).2
  = (pre ++ Notified t id request response :: post)%list ->
  call_of env t id request
  /\ (t <> New ->
      exists loaded,
        load_tracked store !! id = Some loaded
        /\ (exists base,
              (base = DISCORD_WEBHOOK_URL env
               \/ base = DISCORD_STANDBY_WEBHOOK_URL env)
              /\ call_shape base
                   (Js.template (current_messageId pre id loaded)) request)
        /\ (has_real_id loaded ->
            current_messageId pre id loaded = messageId loaded)
        /\ (Forall (fun e => forall request0 response0,
                        e <> Notified UpdatedOpen id request0 response0) pre ->
            current_messageId pre id loaded = messageId loaded)).
Proof.
  intros Ht. split.
  - pose proof (TraceFacts.run_calls env world incidents store) as Hc.
    rewrite Ht in Hc. apply Forall_app in Hc as [_ Hc].
    by apply Forall_cons in Hc as [Hc _].
  - intros Hn. apply run_event in Ht.
    assert (exists loaded callType,
               load_tracked store !! id = Some loaded
               /\ call_shape (webhook env callType)
                    (Js.template (current_messageId pre id loaded)) request)
      as (loaded & callType & Hl & Hc).
    { destruct t; simpl in Ht; [done| | |].
      - destruct Ht as (incident & loaded & _ & _ & Hl & Hc). eauto.
      - destruct Ht as (incident & loaded & _ & _ & Hl & Hc). eauto.
      - destruct Ht as (loaded & Hl & Hc). eauto. }
    exists loaded. split; [done|]. split.
    { exists (webhook env callType). split; [|done].
      apply TraceFacts.webhook_is_bound. }
    split; [apply current_real | apply current_untouched].
Qed.

(** X27.  The record step 4 writes.  A run never writes a record without a
    message identifier.  The record that follows the accepted call for a new
    incident is under the key of the incident, open, with the title and the
    instant of the message; its message identifier is the [id] of the
    response when it has one, else its [message_id], else its [message.id],
    else, and for a response that is blank or no JSON, the fallback
    [incident-], the identifier of the incident and a reading of the clock;
    and steps 5 to 7 take that fallback for a fallback. *)
Theorem the_identifier_of_a_record_written :
  (forall env world incidents store,
      Forall (fun e => match e with
                       | Put _ data => Js.truthy (messageId data) = true
                       | _ => True
                       end)
        (trace (run env world incidents store).2))
  /\ (forall env world incidents store pre id request response key data post,
        trace (run env world incidents store).2
        = (pre ++ Notified New id request (Some response) :: Put key data :: post)%list ->
        key = incident_key id /\ pulsepointId data = id /\ closed data = false
        /\ displayIncidentCallType data = title (embeds request)
        /\ callReceived data = timestamp (embeds request)
        /\ exists n,
             let fallback := "incident-" ++ id ++ "-" ++ pretty (now world n) in
             messageId data
             = match body response with
               | Json messageData =>
                   if Js.truthy (data_id messageData)
                   then data_id messageData
                   else if Js.truthy (data_message_id messageData)
                   then data_message_id messageData
                   else if Js.truthy (data_message messageData)
                   then data_message messageData
                   else Some fallback
               | _ => Some fallback
               end)
  /\ (forall (id : string) (stamp : Z),
        isRealMessageId ("incident-" ++ id ++ "-" ++ pretty stamp) = false).
Proof.
  assert (forall env world incidents store,
             Forall (fun e => match e with
                              | Put _ data => Js.truthy (messageId data) = true
                              | _ => True
                              end)
               (trace (run env world incidents store).2)) as Hput.
  { intros env world incidents store.
    eapply Forall_impl; [apply run_lawful|].
    intros [| key data |]; [done| |done]. by intros (id & _ & Hm & _). }
  split; [exact Hput|]. split.
  - intros env world incidents store pre id request response key data post Ht.
    pose proof (Hput env world incidents store) as Hm.
    rewrite Ht in Hm. apply Forall_app in Hm as [_ Hm].
    apply Forall_cons in Hm as [_ Hm]. apply Forall_cons in Hm as [Hm _].
    change (pre ++ Notified New id request (Some response) :: Put key data :: post)%list
      with (pre ++ [Notified New id request (Some response)] ++ Put key data :: post)%list
      in Ht.
    rewrite app_assoc in Ht. apply run_event in Ht.
    unfold event_described in Ht. rewrite last_snoc in Ht.
    destruct Ht as (-> & Hid & Hcl & Hcr & Hty & n & n' & _ & Hnew & _).
    split; [done|]. split; [done|]. split; [done|]. split; [done|].
    split; [done|]. exists n. cbv zeta. rewrite <- Hnew.
    destruct (body response) as [| | |d]; cbn [new_messageId]; try done.
    rewrite <- Hnew in Hm. done.
  - intros id stamp. unfold isRealMessageId, Js.startsWith.
    change ("incident-" ++ id ++ "-" ++ pretty stamp)
      with ("incident-" ++ (id ++ "-" ++ pretty stamp)).
    by rewrite FieldFacts.prefix_app.
Qed.

End CallFacts.

(** ** The handler of the entry point *)

Module IndexFacts.

Import Index.

(** X25.  The text [/reset-id] stores is the one [/latest-id] answers with
    afterwards, whatever the namespace held and whatever the workflow
    binding does: the identifier of the body, or [0] when the body has none
    or an empty one.  And [/latest-id] answers [0] on a namespace that has
    no text under [latestIncidentId], or an empty one. *)
Theorem latest_id_answers_what_reset_id_stored workflow workflow' kv request
    request' id :
  Js.truthy (instanceId request') = false ->
  pathname request' = "/latest-id" ->
  (Js.truthy (kv !! latestIncidentId) = false ->
   fetch workflow' kv request'
   = {| reply := Some (Latest "0"); namespace := kv; started := false |})
  /\ (Js.truthy (instanceId request) = false ->
      pathname request = "/reset-id" -> method request = "POST" ->
      json request = Value id ->
      reply (fetch workflow' (namespace (fetch workflow kv request)) request')
      = Some (Latest (if Js.truthy id then Js.template id else "0"))).
Proof.
  intros Hi' Hp'. split.
  - intros Hk. unfold fetch. rewrite Hi', Hp'. cbn [String.eqb Ascii.eqb].
    simpl. by rewrite Hk.
  - intros Hi Hp Hm Hj. unfold fetch.
    rewrite Hi, Hp, Hm, Hj, Hi', Hp'. cbn [String.eqb Ascii.eqb andb]. simpl.
    rewrite lookup_insert_eq. by destruct id as [[|c id]|].
Qed.

(** X26.  What the handler never does.  A request with a parameter
    [instanceId] that is not empty is a query: it creates no instance and
    leaves the namespace, whatever its path and its method.  An instance
    is created for the path [/trigger] only, with any method, and the
    namespace is written for a [POST] to [/reset-id] only, under the one key
    [latestIncidentId]. *)
Theorem fetch_creates_and_writes_by_the_path workflow kv request :
  let outcome := fetch workflow kv request in
  (Js.truthy (instanceId request) = true ->
   started outcome = false /\ namespace outcome = kv
   /\ exists answer, reply outcome = Some answer
        /\ (answer = NotFound ("Instance not found: "
                               ++ Js.template (instanceId request))
            \/ exists id status, answer = Status id status))
  /\ (started outcome = true ->
      pathname request = "/trigger" /\ Js.truthy (instanceId request) = false)
  /\ (namespace outcome <> kv ->
      pathname request = "/reset-id" /\ method request = "POST"
      /\ Js.truthy (instanceId request) = false)
  /\ (forall key, key <> latestIncidentId -> namespace outcome !! key = kv !! key).
Proof.
  unfold fetch.
  destruct (Js.truthy (instanceId request)) eqn:Hi.
  { cbn [started namespace reply].
    split; [|split; [done|split; [done|done]]].
    intros _. split; [done|]. split; [done|]. eexists. split; [done|].
    destruct (get workflow _) as [[i [st|]]|]; eauto. }
  split; [done|].
  destruct (String.eqb_spec (pathname request) "/trigger") as [Ht|Ht].
  { destruct (create workflow) as [instance|]; cbn [started namespace];
      repeat split; try done. }
  destruct (String.eqb_spec (pathname request) "/latest-id") as [Hl|Hl].
  { cbn [started namespace]. repeat split; try done. }
  destruct (String.eqb_spec (pathname request) "/reset-id") as [Hr|Hr];
    cbn [andb].
  2: { cbn [started namespace]. repeat split; try done. }
  destruct (String.eqb_spec (method request) "POST") as [Hm|Hm].
  2: { cbn [started namespace]. repeat split; try done. }
  destruct (json request) as [| |id]; cbn [started namespace];
    repeat split; try done.
  intros key Hk. by rewrite lookup_insert_ne.
Qed.

End IndexFacts.

(** ** The records whose incident is no longer in the feed *)

Module FeedFacts.

Import Engine StepFacts SweepFacts SelectionFacts RunFacts.

(** X22.  A run keeps the store in the shape step 3 reads it in: each
    record under the key of its own identifier, so that what the run leaves
    under [incident:] and an identifier is what the next run loads for that
    identifier. *)
Theorem a_run_keeps_the_store_keyed env world incidents store :
  store_keyed store ->
  let store' := kv (run env world incidents store).2 in
  store_keyed store'
  /\ forall id, load_tracked store' !! id = store' !! incident_key id.
Proof.
  intros Hwf store'.
  assert (store_keyed store') as Hwf' by (by apply run_keyed).
  split; [done|]. intros id. by apply load_keyed.
Qed.

(** X23.  An identifier the feed does not list is neither announced, nor
    updated, nor closed as an incident of the feed: the only call a run
    makes for it is the expiry of its record.  So a run on an empty feed
    expires and prunes, and does nothing else. *)
Theorem out_of_the_feed_records_only_expire env world incidents store id :
  Forall (fun incident => ID incident <> id) incidents ->
  Forall (fun e => match e with
                   | Notified t id' _ _ => id' = id -> t = Expired
                   | _ => True
                   end)
    (trace (run env world incidents store).2).
Proof.
  intros Hout.
  assert (forall l : list Incident,
             (forall x, In x l -> In x incidents) -> ~ id ∈ map ID l) as Hno.
  { intros l Hl (x & Hx & Hid)%elem_of_map_ID.
    rewrite Forall_forall in Hout. apply (Hout x); [|done].
    by apply list_elem_of_In, Hl. }
  eapply Forall_impl; [apply run_lawful|].
  intros [t id' req resp| |] He; [|done..]. intros ->.
  destruct t; [| |  |done]; exfalso; simpl in He.
  - revert He. apply Hno. intros x Hx. by apply newOnes_In in Hx as [? _].
  - destruct He as [_ He]. revert He. apply Hno.
    intros x Hx. by apply openIncidents_In in Hx as [? _].
  - destruct He as [_ He]. revert He. apply Hno.
    intros x Hx. by apply newlyClosed_In in Hx as [? _].
Qed.

Lemma find_absent (incidents : list Incident) id :
  Forall (fun incident => ID incident <> id) incidents ->
  List.find (fun inc => String.eqb (ID inc) id) incidents = None.
Proof.
  induction 1 as [|x l Hx Hl IH]; [done|]. simpl.
  destruct (String.eqb_spec (ID x) id); [done|]. exact IH.
Qed.

(** X24.  The expiry of a record whose incident the feed no longer lists:
    the pass calls with an embed made from the record alone, titled by the
    stored display type, stamped with the stored instant of the call, and
    with two fields, an address that says it is no longer available and
    the instant of the update. *)
Theorem expiry_out_of_the_feed_is_minimal env world incidents id s tracked :
  trackedIncidents s !! id = Some tracked ->
  Js.truthy (messageId tracked) = true ->
  Forall (fun incident => ID incident <> id) incidents ->
  exists request response rest updated,
    trace (process_expired env world incidents id s).2
    = (trace s ++ Notified Expired id request response :: rest)%list
    /\ title (embeds request)
       = Some (Js.template (displayIncidentCallType tracked) ++ " - Expired")
    /\ timestamp (embeds request) = callReceived tracked
    /\ fields (embeds request)
       = [ {| name := "Full Address";
              value := "Address information no longer available";
              inline := None |};
           {| name := "Last Updated"; value := updated; inline := Some false |} ].
Proof.
  intros Htr Hm Hout. apply js_get_Own in Htr.
  unfold process_expired. rewrite Htr, Hm, (find_absent _ _ Hout). simpl.
  match goal with |- context [fetch world ?n ?r] => set (n0 := n); set (req := r) end.
  assert (embeds req
          = {| title := Some (Js.template (displayIncidentCallType tracked)
                              ++ " - Expired");
               fields :=
                 [ {| name := "Full Address";
                      value := "Address information no longer available";
                      inline := None |};
                   {| name := "Last Updated";
                      value := "<t:" ++ pretty (now world (tick s) `div` 1000)
                               ++ ":R>";
                      inline := Some false |} ];
               color := grey; footer_text := footer id; url := permalink id;
               timestamp := callReceived tracked |}) as He.
  { unfold req, update_request.
    by destruct (isRealMessageId (Js.template (messageId tracked))). }
  exists req, (fetch world n0 req).
  destruct (fetch world n0 req) as [response|] eqn:Hf.
  2: { exists [], ("<t:" ++ pretty (now world (tick s) `div` 1000) ++ ":R>").
       by rewrite He. }
  destruct (ok response); simpl.
  - eexists _, ("<t:" ++ pretty (now world (tick s) `div` 1000) ++ ":R>").
    rewrite He. simpl. split; [|done]. by rewrite <- app_assoc.
  - exists [], ("<t:" ++ pretty (now world (tick s) `div` 1000) ++ ":R>").
    by rewrite He.
Qed.

End FeedFacts.

(** ** More theorems on concrete inputs *)

Module Cases.

Import Engine Examples.

(** Two hexadecimal texts, the first of four characters. *)
Lemma bytes_of_two_texts :
  Decryptor.hexToBytes ("00ff" ++ "1a7")
  = (Decryptor.hexToBytes "00ff" ++ Decryptor.hexToBytes "1a7")%list.
Proof.
  apply (DecodingFacts.hexToBytes_of_two_texts "00ff" "1a7"). reflexivity.
Defined.

Example bytes_of_a_text_with_odd_pairs :
  map Byte.to_N (Decryptor.hexToBytes "00ff1A-1g10x zz7")
  = [0; 255; 26; 255; 0; 0; 0; 0]%N.
Proof. by vm_compute. Qed.

(** The payload text, wrapped, and followed by two characters. *)
Lemma unwrap_of_the_wrapped_payload :
  Decryptor.unwrap
    (String Decryptor.quote
       (Decryptor.escape_quotes payload_text ++ String Decryptor.quote junk))
  = payload_text.
Proof.
  apply (DecodingFacts.unwrap_of_a_wrapped_text payload_text junk).
  intros [|[|j]]; vm_compute; discriminate.
Defined.

(** A run on a store with a record under a key of another prefix. *)
Lemma run_leaves_the_backup :
  kv (run env (accepting next_day) [incident_101] store_with_a_backup).2
    !! "backup:101"
  = store_with_a_backup !! "backup:101".
Proof.
  apply (StoreFacts.run_leaves_the_other_keys env (accepting next_day)
           [incident_101] store_with_a_backup "backup:101").
  reflexivity.
Defined.

(** A run four days after a record was closed. *)
Lemma pruning_of_a_record_closed_four_days_ago :
  let final := (run env (accepting days_later) [] (store_of [closed_101])).2 in
  exists n,
    let now_ := now (accepting days_later) n in
    (forall key,
        In (Deleted key) (trace final)
        <-> exists data,
              store_of [closed_101] !! key = Some data /\ closed data = true
              /\ cutoffDays * day < now_ - lastUpdated data)
    /\ (forall key, In (Deleted key) (trace final) -> kv final !! key = None).
Proof.
  apply (TraceFacts.pruning_is_for_the_old_closed_records env
           (accepting days_later) [] (store_of [closed_101])).
  apply (bool_decide_unpack _). by vm_compute.
Defined.

Example the_record_closed_four_days_ago_is_deleted :
  trace (run env (accepting days_later) [] (store_of [closed_101])).2
  = [Deleted (incident_key "101")].
Proof. by vm_compute. Qed.

(** The record a run writes for an open incident it updates. *)
Lemma the_updated_record_of_101 :
  let data := record "101" false (Some "555") (soon + 2) in
  In (Put (incident_key "101") data)
    (trace (run env (accepting soon) [incident_101] (store_of [open_101])).2)
  /\ pulsepointId data = pulsepointId open_101
  /\ callReceived data = callReceived open_101
  /\ displayIncidentCallType data = displayIncidentCallType open_101
  /\ messageId data = messageId open_101.
Proof.
  assert (In (Put (incident_key "101") (record "101" false (Some "555") (soon + 2)))
            (trace (run env (accepting soon) [incident_101]
                      (store_of [open_101])).2)) as Hin.
  { vm_compute. right. left. reflexivity. }
  destruct (RecordFacts.a_run_keeps_what_a_record_says env (accepting soon)
              [incident_101] (store_of [open_101]) "101" open_101
              (record "101" false (Some "555") (soon + 2)))
    as (H1 & H2 & H3 & H4).
  - apply (bool_decide_unpack _). by vm_compute.
  - by vm_compute.
  - exact Hin.
  - split; [exact Hin|]. split; [exact H1|]. split; [exact H2|].
    split; [exact H3|]. apply H4. reflexivity.
Defined.

(** The store after a run that updates a record. *)
Lemma the_store_after_an_update :
  let store' := kv (run env (accepting soon) [incident_101] (store_of [open_101])).2 in
  store_keyed store'
  /\ forall id, load_tracked store' !! id = store' !! incident_key id.
Proof.
  apply (FeedFacts.a_run_keeps_the_store_keyed env (accepting soon)
           [incident_101] (store_of [open_101])).
  apply (bool_decide_unpack _). by vm_compute.
Defined.

(** A run on a feed that lists another incident, a day and an hour after
    the record of 101 was updated. *)
Lemma the_calls_for_101_out_of_the_feed :
  Forall (fun e => match e with
                   | Notified t id' _ _ => id' = "101" -> t = Expired
                   | _ => True
                   end)
    (trace (run env (accepting next_day) [incident_102] (store_of [open_101])).2).
Proof.
  apply (FeedFacts.out_of_the_feed_records_only_expire env (accepting next_day)
           [incident_102] (store_of [open_101]) "101").
  apply (bool_decide_unpack _). by vm_compute.
Defined.

Lemma the_expiry_of_101_out_of_the_feed :
  let s := start (store_of [open_101]) in
  exists request response rest updated,
    trace (process_expired env (accepting next_day) [incident_102] "101" s).2
    = (trace s ++ Notified Expired "101" request response :: rest)%list
    /\ title (embeds request)
       = Some (Js.template (displayIncidentCallType open_101) ++ " - Expired")
    /\ timestamp (embeds request) = callReceived open_101
    /\ fields (embeds request)
       = [ {| name := "Full Address";
              value := "Address information no longer available";
              inline := None |};
           {| name := "Last Updated"; value := updated; inline := Some false |} ].
Proof.
  apply (FeedFacts.expiry_out_of_the_feed_is_minimal env (accepting next_day)
           [incident_102] "101" (start (store_of [open_101])) open_101).
  - by vm_compute.
  - done.
  - apply (bool_decide_unpack _). by vm_compute.
Defined.

(** A reset to 42, then the reading of the latest identifier. *)
Lemma latest_id_after_a_reset_to_42 :
  Index.fetch no_workflow ∅ read_latest
  = {| Index.reply := Some (Index.Latest "0"); Index.namespace := ∅;
       Index.started := false |}
  /\ Index.reply
       (Index.fetch no_workflow
          (Index.namespace (Index.fetch no_workflow ∅ (reset_to (Some "42"))))
          read_latest)
     = Some (Index.Latest "42").
Proof.
  destruct (IndexFacts.latest_id_answers_what_reset_id_stored no_workflow
              no_workflow ∅ (reset_to (Some "42")) read_latest (Some "42"))
    as [H1 H2]; [reflexivity..|].
  split; [apply H1 | apply H2]; reflexivity.
Defined.

Example a_reset_without_an_identifier :
  Index.reply
    (Index.fetch no_workflow
       (Index.namespace (Index.fetch no_workflow ∅ (reset_to None))) read_latest)
  = Some (Index.Latest "0").
Proof. by vm_compute. Qed.

(** A run whose two calls are refused. *)
Lemma a_run_whose_calls_are_refused :
  let final := (run env (refusing next_day) [incident_101] (store_of [open_101])).2 in
  Forall (fun e => is_put e = false) (trace final)
  /\ forall key,
       kv final !! key = store_of [open_101] !! key
       \/ (kv final !! key = None /\ In (Deleted key) (trace final)).
Proof.
  apply (TraceFacts.a_run_without_an_accepted_call_writes_nothing env
           (refusing next_day) [incident_101] (store_of [open_101])).
  assert (exists r1 r2,
             trace (run env (refusing next_day) [incident_101]
                      (store_of [open_101])).2
             = [Notified UpdatedOpen "101" r1 (Some refusal);
                Notified Expired "101" r2 (Some refusal)])
    as (r1 & r2 & ->).
  { eexists _, _. by vm_compute. }
  repeat constructor; intros (r & [= <-] & Hok & _); discriminate.
Defined.

(** The call for a new incident of the display type [Standby]. *)
Lemma the_call_for_a_standby_incident :
  let final := (run env (accepting noon) [incident_103] ∅).2 in
  exists request response,
    In (Notified New "103" request response) (trace final)
    /\ exists callType,
         (exists incident,
             In incident [incident_103] /\ ID incident = "103"
             /\ callType = DisplayIncidentCallType incident)
         /\ method request = POST
         /\ req_url request
            = (if bool_decide (callType = Some "Standby")
               then DISCORD_STANDBY_WEBHOOK_URL env
               else DISCORD_WEBHOOK_URL env) ++ "?wait=true".
Proof.
  intros final.
  assert (exists request response,
             In (Notified New "103" request response) (trace final))
    as (req & resp & Hin).
  { eexists _, _. vm_compute. left. reflexivity. }
  exists req, resp. split; [exact Hin|].
  exact (proj1 CallFacts.calls_are_routed_by_the_display_type
           env (accepting noon) [incident_103] ∅ New "103" req resp Hin).
Defined.

Example the_webhooks_of_a_standby_incident :
  map (fun e => match e with
                | Notified t id request _ => Some (t, id, method request, req_url request)
                | _ => None
                end)
    (trace (run env (accepting next_day) [incident_103]
              (store_of [record "103" false (Some "777") noon])).2)
  = [ Some (UpdatedOpen, "103", PATCH,
            "https://discord.example/api/webhooks/2/standby/messages/777");
      None;
      Some (Expired, "103", PATCH,
            "https://discord.example/api/webhooks/1/main/messages/777");
      None ].
Proof. by vm_compute. Qed.

(** A record with a fallback identifier, a day after its last update: step 5
    creates a message and assigns its identifier, and step 7 patches the
    message of that identifier. *)
Lemma the_expiry_after_an_adopted_identifier :
  let store := store_of [fallback_101] in
  let final := (run env (accepting next_day) [incident_101] store).2 in
  exists update stored request response post,
    trace final
    = ([update; stored] ++ Notified Expired "101" request response :: post)%list
    /\ call_of env Expired "101" request
    /\ (Expired <> New ->
        exists loaded,
          load_tracked store !! "101" = Some loaded
          /\ (exists base,
                (base = DISCORD_WEBHOOK_URL env
                 \/ base = DISCORD_STANDBY_WEBHOOK_URL env)
                /\ call_shape base
                     (Js.template (current_messageId [update; stored] "101" loaded))
                     request)
          /\ (has_real_id loaded ->
              current_messageId [update; stored] "101" loaded = messageId loaded)
          /\ (Forall (fun e => forall request0 response0,
                          e <> Notified UpdatedOpen "101" request0 response0)
                 [update; stored] ->
              current_messageId [update; stored] "101" loaded = messageId loaded)).
Proof.
  intros store final.
  assert (exists update stored request response post,
             trace final
             = ([update; stored]
                  ++ Notified Expired "101" request response :: post)%list)
    as (u & st & req & resp & post & Ht).
  { eexists _, _, _, _, _. by vm_compute. }
  exists u, st, req, resp, post. split; [exact Ht|].
  exact (CallFacts.every_call_goes_to_a_webhook
           env (accepting next_day) [incident_101] store [u; st] Expired "101"
           req resp post Ht).
Defined.

Example the_calls_after_an_adopted_identifier :
  map (fun e => match e with
                | Notified t id request _ => Some (t, id, method request, req_url request)
                | _ => None
                end)
    (trace (run env (accepting next_day) [incident_101]
              (store_of [fallback_101])).2)
  = [ Some (UpdatedOpen, "101", POST,
            "https://discord.example/api/webhooks/1/main");
      None;
      Some (Expired, "101", PATCH,
            "https://discord.example/api/webhooks/1/main/messages/9001");
      None ].
Proof. by vm_compute. Qed.

(** The record of a new incident, from a response that carries an [id]. *)
Lemma the_record_of_a_new_incident :
  let final := (run env (accepting noon) [incident_101] ∅).2 in
  exists request data,
    trace final
    = ([] ++ Notified New "101" request (Some (created "9001"))
          :: Put (incident_key "101") data :: [])%list
    /\ messageId data = Some "9001".
Proof.
  intros final.
  assert (exists request data,
             trace final
             = ([] ++ Notified New "101" request (Some (created "9001"))
                   :: Put (incident_key "101") data :: [])%list)
    as (req & data & Ht).
  { eexists _, _. by vm_compute. }
  exists req, data. split; [exact Ht|].
  destruct (proj1 (proj2 CallFacts.the_identifier_of_a_record_written)
              env (accepting noon) [incident_101] ∅ [] "101" req
              (created "9001") (incident_key "101") data [] Ht)
    as (_ & _ & _ & _ & _ & n & Hm).
  exact Hm.
Defined.

Example the_record_of_a_new_incident_without_an_identifier :
  messageId
    <$> kv (run env (answering_blank noon) [incident_101] ∅).2 !! incident_key "101"
  = Some (Some "incident-101-1714564800000").
Proof. by vm_compute. Qed.

End Cases.
